(** * Culinary advisor: the orchestration engine

    A shallow embedding of the retrying model client
    ([src/llm/gemini-client.ts]), of the JSON extractor
    ([src/orchestrator/json-parser.ts]), of the three-phase orchestrator
    ([src/orchestrator/orchestrator.ts]) and of the timer of the HTTP route
    ([src/server.ts]), with the properties the specification states of them. *)

From Stdlib Require Import List ZArith NArith Bool String Ascii Lia.
Import ListNotations.

Set Implicit Arguments.
Set Warnings "-register-all".
Local Open Scope Z_scope.

(** ** JavaScript strings

    A string is its sequence of UTF-16 code units. *)

Definition jsstring := list N.

Definition js (s : string) : jsstring :=
  map N_of_ascii (list_ascii_of_string s).

(** [jsq] reads an apostrophe as a double quote, for JSON texts. *)
Definition jsq (s : string) : jsstring :=
  map (fun c => if N.eqb c 39 then 34%N else c) (js s).

Fixpoint jseqb (a b : jsstring) : bool :=
  match a, b with
  | [], [] => true
  | x :: a', y :: b' => N.eqb x y && jseqb a' b'
  | _, _ => false
  end.

Fixpoint startsWith (p s : jsstring) : bool :=
  match p, s with
  | [], _ => true
  | x :: p', y :: s' => N.eqb x y && startsWith p' s'
  | _ :: _, [] => false
  end.

(** [s.includes(p)] *)
Fixpoint includes (s p : jsstring) : bool :=
  startsWith p s ||
  match s with
  | [] => false
  | _ :: s' => includes s' p
  end.

(** [toLowerCase] on the ASCII letters.  Outside ASCII only U+0130 and
    U+212A have a lower-case form that holds an ASCII letter ([i] followed by
    U+0307, and [k]); neither can complete one of the markers searched for
    below, so the other code units are left as they are. *)
Definition lower_unit (c : N) : N :=
  if (N.leb 65 c && N.leb c 90)%bool then (c + 32)%N else c.

Definition toLowerCase (s : jsstring) : jsstring := map lower_unit s.

(** [s.substring(0, n)] and [s.slice(0, n)] for [0 <= n]. *)
Definition substring0 (n : nat) (s : jsstring) : jsstring := firstn n s.

(** [xs.join(sep)] *)
Fixpoint join (sep : jsstring) (xs : list jsstring) : jsstring :=
  match xs with
  | [] => []
  | [x] => x
  | x :: rest => x ++ sep ++ join sep rest
  end.

(** Decimal rendering of an integer, as [String(n)] gives it. *)
Fixpoint digits_of_pos (fuel : nat) (n : N) (acc : jsstring) : jsstring :=
  match fuel with
  | O => acc
  | S f =>
      let acc' := (48 + N.modulo n 10)%N :: acc in
      if N.ltb n 10 then acc' else digits_of_pos f (N.div n 10) acc'
  end.

Definition string_of_N (n : N) : jsstring :=
  digits_of_pos (S (N.to_nat (N.log2 n))) n [].

Definition string_of_nat (n : nat) : jsstring := string_of_N (N.of_nat n).

Definition string_of_Z (z : Z) : jsstring :=
  if z <? 0 then 45%N :: string_of_N (Z.to_N (- z)) else string_of_N (Z.to_N z).

(** ** JavaScript values read from JSON

    A number is kept as the decimal it was written as,
    [(-1)^neg * digits * 10^exp], without trailing zero digits; the rounding
    to a double is not modelled.  An object is the list of its members in
    insertion order, a repeated key overwriting in place. *)

Record JsNumber := Num { num_neg : bool; num_digits : N; num_exp : Z }.

Fixpoint strip_zeros (fuel : nat) (d : N) (e : Z) : N * Z :=
  match fuel with
  | O => (d, e)
  | S f =>
      if N.eqb d 0 then (0%N, 0)
      else if N.eqb (N.modulo d 10) 0 then strip_zeros f (N.div d 10) (e + 1)
      else (d, e)
  end.

Definition mkNum (neg : bool) (d : N) (e : Z) : JsNumber :=
  let '(d', e') := strip_zeros (S (N.to_nat (N.log2 d))) d e in
  Num neg d' e'.

Definition num_of_Z (z : Z) : JsNumber := mkNum (z <? 0) (Z.abs_N z) 0.

Inductive Json :=
| JNull
| JBool (b : bool)
| JNum (n : JsNumber)
| JStr (s : jsstring)
| JArr (elems : list Json)
| JObj (members : list (jsstring * Json)).

Definition isArray (v : Json) : bool :=
  match v with JArr _ => true | _ => false end.

(** [obj[key] = v] on a member list. *)
Fixpoint set_member (ms : list (jsstring * Json)) (k : jsstring) (v : Json)
  : list (jsstring * Json) :=
  match ms with
  | [] => [(k, v)]
  | (k', v') :: rest =>
      if jseqb k' k then (k, v) :: rest else (k', v') :: set_member rest k v
  end.

Fixpoint lookup {A} (k : jsstring) (ms : list (jsstring * A)) : option A :=
  match ms with
  | [] => None
  | (k', v) :: rest => if jseqb k' k then Some v else lookup k rest
  end.

(** ** The types of [src/types/index.ts] and [src/types/errors.ts]

    Instants and durations are integers of milliseconds; an ISO timestamp
    is kept as the instant it renders. *)

Record TokenUsage := mkTokenUsage {
  promptTokens : Z;
  outputTokens : Z;
  totalTokens : Z
}.

Record ExecutionStep := mkStep {
  step_agent : jsstring;
  step_action : jsstring;
  step_timestamp : Z;
  step_durationMs : Z;
  step_success : bool;
  step_error : option jsstring;
  step_tokenUsage : option TokenUsage
}.

Record ExecutionLog := mkLog {
  steps : list ExecutionStep;
  startTime : Z;
  endTime : option Z;
  totalDurationMs : option Z
}.

Record SpecialistAssignment := mkAssignment {
  spec_name : jsstring;
  responsibilities : list jsstring;
  priority : Z
}.

Inductive Complexity := Simple | Moderate | Complex.

Record TaskMap := mkTaskMap {
  specialists : list SpecialistAssignment;
  estimatedComplexity : Complexity
}.

Record SpecialistOnePager := mkOnePager {
  op_specialist : jsstring;
  op_section : jsstring;
  op_notes : jsstring
}.

(** The synthesized recipe is the value its schema returns. *)
Definition Recipe := Json.

Record RecipeResult := mkResult { recipe : Recipe; result_log : ExecutionLog }.

(** [class AppError extends Error] and its subclasses, told apart by [name]. *)
Record AppError := mkAppError {
  err_name : jsstring;
  err_message : jsstring;
  isOperational : bool;
  httpCode : option Z;
  context : option (list (jsstring * Json));
  err_timestamp : Z
}.

(** The instances of [Error]: a plain [new Error(message)] (and the errors
    of the runtime and of libraries), or an [AppError]. *)
Inductive ErrorObject :=
| PlainError (message : jsstring)
| AppErr (e : AppError).

Definition message_of (e : ErrorObject) : jsstring :=
  match e with
  | PlainError m => m
  | AppErr a => err_message a
  end.

(** What a [throw] carries: an [Error] object, with the [executionLog]
    property once the orchestrator has attached one, or any other value,
    kept as [String(value)]. *)
Inductive Thrown :=
| ThrownError (e : ErrorObject) (executionLog : option ExecutionLog)
| ThrownValue (text : jsstring).

(** [error instanceof Error ? error.message : String(error)] *)
Definition describe (t : Thrown) : jsstring :=
  match t with
  | ThrownError e _ => message_of e
  | ThrownValue v => v
  end.

Definition newError (m : jsstring) : Thrown := ThrownError (PlainError m) None.

(** [src/types/index.ts], the input of a run. *)
Inductive Scope := SingleRecipe | Menu.
Inductive CreativeFocus := Traditional | Modern | Fusion.
Inductive Skill := Beginner | Intermediate | Advanced.

Record Constraints := mkConstraints {
  dietary : option (list jsstring);
  equipment : option (list jsstring);
  skill : option Skill;
  time : option jsstring;
  servings : option Z
}.

Record CreativeBrief := mkBrief {
  title : jsstring;
  scope : Scope;
  constraints : option Constraints;
  creativeFocus : CreativeFocus;
  additionalContext : option jsstring
}.

(** ** Schemas

    A zod schema is the function its [parse] computes: the typed value, or
    the issues of a [ZodError]. *)

Inductive PathSegment := Key (k : jsstring) | Index (i : nat).

Record ZodIssue := mkIssue { path : list PathSegment; issue_message : jsstring }.

Inductive ZodResult (T : Type) :=
| ZodOk (v : T)
| ZodError (issues : list ZodIssue).
Arguments ZodOk {T} v.
Arguments ZodError {T} issues.

Definition ZodSchema (T : Type) := Json -> ZodResult T.

(** ** The generation service

    [candidate.finishReason] is typed by the enumeration [FinishReason] of
    the SDK, whose members are their own names as strings.  At run time it
    is the string the service sent, whatever it is, or it is absent. *)
Definition FinishReason := jsstring.

Definition STOP : FinishReason := js "STOP".

(** The members of the enumeration of the SDK. *)
Definition finishReasons : list FinishReason :=
  [js "FINISH_REASON_UNSPECIFIED"; js "STOP"; js "MAX_TOKENS"; js "SAFETY";
   js "RECITATION"; js "LANGUAGE"; js "BLOCKLIST"; js "PROHIBITED_CONTENT";
   js "SPII"; js "MALFORMED_FUNCTION_CALL"; js "OTHER"].

Record Candidate := mkCandidate { finishReason : option FinishReason }.

Record UsageMetadata := mkUsage {
  promptTokenCount : option Z;
  candidatesTokenCount : option Z;
  totalTokenCount : option Z
}.

(** [result.response]: the candidates (absent and empty alike give no
    first candidate), the text [response.text()] returns and the usage
    metadata. *)
Record GenerateContentResponse := mkResponse {
  candidates : list Candidate;
  response_text : jsstring;
  usageMetadata : option UsageMetadata
}.

(** What [getGenerativeModel] and [generateContent] are given. *)
Record ModelRequest := mkRequest {
  req_model : jsstring;
  req_temperature : JsNumber;
  req_maxOutputTokens : Z;
  req_responseMimeType : option jsstring;
  req_systemInstruction : option jsstring;
  req_prompt : jsstring
}.

(** One exchange with the service: the awaited call resolves, rejects
    (which also stands for a throw while the model is being set up), or
    never settles. *)
Inductive RemoteOutcome :=
| Resolved (r : GenerateContentResponse)
| Rejected (t : Thrown)
| NeverSettles.

(** [config/agents.json] *)
Record AgentConfig := mkAgentConfig {
  agents : list (jsstring * jsstring);
  defaultModel : jsstring;
  temperatures : option (list (jsstring * JsNumber))
}.

Record PromptParts := mkParts { systemInstruction : jsstring; taskPrompt : jsstring }.

Record PromptVariables := mkVars {
  var_creativeBrief : CreativeBrief;
  var_responsibilities : option (list jsstring);
  var_onePagers : option (list SpecialistOnePager)
}.

(** ** The world of a run

    Everything the program obtains from outside itself: the clock (its
    n-th reading), the service (the outcome of the n-th request, which may
    depend on the agent and on the request), the configuration, the prompt
    source, the text of the engine's [SyntaxError] for an input, the random
    part of the request identifier, the schemas of [src/types/validation.ts]
    and zod's [flatten].
    [extractSystemInstruction] and [renderPrompt] only shape text that is
    sent to the service; they are total and taken as given. *)
Record World := mkWorld {
  now : nat -> Z;
  remote : nat -> jsstring -> ModelRequest -> RemoteOutcome;
  agentConfig : AgentConfig;
  loadPrompt : jsstring -> ErrorObject + jsstring;
  extractSystemInstruction : jsstring -> PromptParts;
  renderPrompt : jsstring -> PromptVariables -> jsstring;
  syntaxError : jsstring -> jsstring;
  random : jsstring;
  CreativeBriefSchema : ZodSchema CreativeBrief;
  flatten : list ZodIssue -> list (jsstring * Json);
  TaskMapSchema : ZodSchema TaskMap;
  SpecialistOnePagerSchema : ZodSchema SpecialistOnePager;
  RecipeSchema : ZodSchema Recipe
}.

(** ** Debug events ([src/types/debug-events.ts]) *)

Inductive Phase := PlanningPhase | SpecialistsPhase | SynthesisPhase.

Inductive ParsedData :=
| DataTaskMap (t : TaskMap)
| DataOnePager (p : SpecialistOnePager)
| DataRecipe (r : Recipe).

Inductive EventBody :=
| PhaseStart (phase : Phase)
| PhaseComplete (phase : Phase) (durationMs : Z) (success : bool)
| LlmRequest (agent model : jsstring) (temperature : JsNumber)
    (promptPreview fullPrompt : jsstring) (isParallel : option bool)
| LlmResponse (agent : jsstring) (durationMs : Z) (success : bool)
    (tokenUsage : TokenUsage) (responsePreview fullResponse : jsstring)
| DataParsed (agent dataType : jsstring) (data : ParsedData)
    (validationSuccess : bool)
| AgentError (agent error phase : jsstring) (recoverable : bool)
| RecipeComplete (r : Recipe) (l : ExecutionLog)
| RecipeError (error : jsstring) (partialLog : ExecutionLog).

Record DebugEvent := mkEvent {
  body : EventBody;
  ev_timestamp : Z;
  requestId : jsstring;
  elapsedMs : Z
}.

(** The listener registered for ['debug'] on the emitter.  [emit] calls it
    synchronously, with an event that refers to objects of the run itself:
    the token usage of a response, the task map, a one-pager, the recipe,
    the log.  The call returns or throws, and the objects are then as the
    listener left them: an outcome gives the event with its objects as they
    are when the call ends (changed within the types of
    [src/types/index.ts]).  Every other field of an event is a copy, which
    the run does not read again.  A call that does not return stops the
    whole program, not only the run, and has no outcome here.  Nor has a
    listener that keeps a reference to an object and changes it after the
    call that handed it over has ended: the listeners of this model change
    an object during that call or never. *)
Inductive ListenerOutcome :=
| Returns (after : EventBody)
| Throws (thrown : Thrown) (after : EventBody).

Definition Listener := DebugEvent -> ListenerOutcome.

(** ** Effects

    The state a run threads: the clock readings taken so far, the delays
    awaited, the requests issued, the phase banners printed, the events
    handed to the listener, and the run's [ExecutionLog] object. *)
Record St := mkSt {
  ticks : nat;
  slept : list Z;
  requests : list (jsstring * ModelRequest);
  banners : list Phase;
  delivered : list DebugEvent;
  log : ExecutionLog
}.

Inductive Res (A : Type) :=
| Ok (a : A)
| Throw (t : Thrown)
| Pending.
Arguments Ok {A} a.
Arguments Throw {A} t.
Arguments Pending {A}.

Definition M (A : Type) := St -> Res A * St.

Definition ret {A} (a : A) : M A := fun s => (Ok a, s).

Definition bind {A B} (m : M A) (k : A -> M B) : M B :=
  fun s =>
    match m s with
    | (Ok a, s') => k a s'
    | (Throw t, s') => (Throw t, s')
    | (Pending, s') => (Pending, s')
    end.

Definition throw {A} (t : Thrown) : M A := fun s => (Throw t, s).

(** [try { m } catch (error) { h error }]; a call that never settles is
    not an exception. *)
Definition try_catch {A} (m : M A) (h : Thrown -> M A) : M A :=
  fun s =>
    match m s with
    | (Throw t, s') => h t s'
    | r => r
    end.

Declare Scope monad_scope.
Delimit Scope monad_scope with monad.
Notation "x <- m ;; k" := (bind m (fun x => k))
  (at level 61, m at next level, right associativity) : monad_scope.
Notation "m ;;; k" := (bind m (fun _ => k))
  (at level 61, right associativity) : monad_scope.
Local Open Scope monad_scope.

Definition modify (f : St -> St) : M unit := fun s => (Ok tt, f s).

Definition st_tick (s : St) : St :=
  mkSt (S (ticks s)) (slept s) (requests s) (banners s) (delivered s) (log s).

Definition st_sleep (delay : Z) (s : St) : St :=
  mkSt (ticks s) (slept s ++ [delay]) (requests s) (banners s) (delivered s) (log s).

Definition st_request (agent : jsstring) (req : ModelRequest) (s : St) : St :=
  mkSt (ticks s) (slept s) (requests s ++ [(agent, req)]) (banners s)
       (delivered s) (log s).

Definition st_banner (p : Phase) (s : St) : St :=
  mkSt (ticks s) (slept s) (requests s) (banners s ++ [p]) (delivered s) (log s).

Definition st_deliver (e : DebugEvent) (s : St) : St :=
  mkSt (ticks s) (slept s) (requests s) (banners s) (delivered s ++ [e]) (log s).

Definition set_log (l : ExecutionLog) (s : St) : St :=
  mkSt (ticks s) (slept s) (requests s) (banners s) (delivered s) l.

Section Program.

Variable w : World.

(** [Date.now()] and [new Date()] *)
Definition clock : M Z := fun s => (Ok (now w (ticks s)), st_tick s).

(** [await new Promise((resolve) => setTimeout(resolve, delay))] *)
Definition sleep (delay : Z) : M unit := modify (st_sleep delay).

Definition banner (p : Phase) : M unit := modify (st_banner p).

(** [await model.generateContent(prompt)] then [await result.response] *)
Definition generateContent (agent : jsstring) (req : ModelRequest)
  : M GenerateContentResponse :=
  fun s =>
    let s' := st_request agent req s in
    match remote w (List.length (requests s)) agent req with
    | Resolved r => (Ok r, s')
    | Rejected t => (Throw t, s')
    | NeverSettles => (Pending, s')
    end.

(** *** [src/types/errors.ts] *)

(** [new AppError(message, isOperational, httpCode, context)]; the
    constructor reads the clock. *)
Definition newAppError (name message : jsstring) (operational : bool)
  (code : option Z) (ctx : option (list (jsstring * Json))) : M Thrown :=
  t <- clock ;;
  ret (ThrownError (AppErr (mkAppError name message operational code ctx t)) None).

(** [new LLMError(agent, originalError, context)], given the message of
    [originalError]. *)
Definition LLMError (agent original : jsstring) (ctx : list (jsstring * Json))
  : M Thrown :=
  newAppError (js "LLMError")
    (js "LLM agent '" ++ agent ++ js "' failed: " ++ original)
    true (Some 500)
    (Some ([(js "agent", JStr agent); (js "originalError", JStr original)] ++ ctx)).

(** *** [src/llm/gemini-client.ts] *)

Record GeminiCallOptions := mkOptions {
  opt_systemInstruction : option jsstring;
  opt_temperature : option JsNumber;
  opt_maxOutputTokens : option Z;
  opt_jsonMode : option bool
}.

Record GeminiResponse := mkGeminiResponse { text : jsstring; tokenUsage : TokenUsage }.

Definition maxRetries : Z := 3.
Definition baseDelay : Z := 1000.

Definition retryMarkers : list jsstring :=
  [js "rate limit"; js "quota"; js "timeout"; js "econnreset"; js "enotfound";
   js "503"; js "429"].

Definition isRetryableError (error : Thrown) : bool :=
  match error with
  | ThrownValue _ => false
  | ThrownError e _ =>
      let message := toLowerCase (message_of e) in
      includes message (js "rate limit") ||
      includes message (js "quota") ||
      includes message (js "timeout") ||
      includes message (js "econnreset") ||
      includes message (js "enotfound") ||
      includes message (js "503") ||
      includes message (js "429")
  end.

Definition getDefaultMaxTokens (agent : jsstring) : Z :=
  if includes agent (js "synthesis") then 16384
  else if includes agent (js "planning") then 2048
  else 4096.

Definition truthy (s : option jsstring) : option jsstring :=
  match s with
  | Some (_ :: _) => s
  | _ => None
  end.

(** Lines 71 to 97: the model and its generation configuration. *)
Definition build_request (agent prompt : jsstring) (options : GeminiCallOptions)
  : ModelRequest :=
  let cfg := agentConfig w in
  let modelName :=
    match truthy (lookup agent (agents cfg)) with
    | Some m => m
    | None => defaultModel cfg
    end in
  let agentTemp :=
    match temperatures cfg with
    | Some ts => lookup agent ts
    | None => None
    end in
  let temperature :=
    match opt_temperature options, agentTemp with
    | Some t, _ => t
    | None, Some t => t
    | None, None => Num false 7 (-1)
    end in
  let maxOutputTokens :=
    match opt_maxOutputTokens options with
    | Some n => n
    | None => getDefaultMaxTokens agent
    end in
  mkRequest modelName temperature maxOutputTokens
    (match opt_jsonMode options with
     | Some true => Some (js "application/json")
     | _ => None
     end)
    (truthy (opt_systemInstruction options))
    prompt.

(** The message of the error of lines 112 to 115. *)
Definition stopped_message (reason : jsstring) : jsstring :=
  js "Generation stopped with reason: " ++ reason ++
  js ". This may indicate content policy violation or other issue.".

(** Lines 105 to 116: what the validation of the finish reason throws.  An
    absent reason and the empty string are falsy. *)
Definition response_error (response : GenerateContentResponse) : option Thrown :=
  match candidates response with
  | [] => Some (newError (js "No response candidate returned"))
  | candidate :: _ =>
      match truthy (finishReason candidate) with
      | None => None
      | Some reason =>
          if jseqb reason STOP then None
          else Some (newError (stopped_message reason))
      end
  end.

Definition validate_response (response : GenerateContentResponse) : M unit :=
  match response_error response with
  | Some t => throw t
  | None => ret tt
  end.

Definition or0 (n : option Z) : Z :=
  match n with
  | Some v => v
  | None => 0
  end.

Definition token_usage_of (response : GenerateContentResponse) : TokenUsage :=
  match usageMetadata response with
  | Some u => mkTokenUsage (or0 (promptTokenCount u)) (or0 (candidatesTokenCount u))
                           (or0 (totalTokenCount u))
  | None => mkTokenUsage 0 0 0
  end.

(** The [for] loop of [callGemini] from iteration [attempt] on, with
    [remaining = maxRetries + 1 - attempt] iterations left. *)
Fixpoint callGemini_from (remaining : nat) (attempt : Z)
  (agent prompt : jsstring) (options : GeminiCallOptions) : M GeminiResponse :=
  match remaining with
  | O =>
      e <- LLMError agent (js "Max retries exceeded") [] ;;
      throw e
  | S k =>
      startTime <- clock ;;
      try_catch
        (response <- generateContent agent (build_request agent prompt options) ;;
         validate_response response ;;;
         _ <- clock ;;
         ret (mkGeminiResponse (response_text response) (token_usage_of response)))
        (fun error =>
           t <- clock ;;
           let duration := t - startTime in
           if (attempt <? maxRetries) && isRetryableError error then
             sleep (baseDelay * 2 ^ (attempt - 1)) ;;;
             callGemini_from k (attempt + 1) agent prompt options
           else
             e <- LLMError agent (describe error)
                    [(js "duration", JNum (num_of_Z duration))] ;;
             throw e)
  end.

Definition callGemini (agent prompt : jsstring) (options : GeminiCallOptions)
  : M GeminiResponse :=
  callGemini_from (Z.to_nat maxRetries) 1 agent prompt options.

End Program.

(** *** Observing a call of [callGemini] *)

(** What the [catch] clause of an attempt receives, if the attempt fails. *)
Definition caught (o : RemoteOutcome) : option Thrown :=
  match o with
  | Rejected t => Some t
  | Resolved r => response_error r
  | NeverSettles => None
  end.

(** The requests a computation issued, read off the states before and
    after it. *)
Definition attempts_made (s s' : St) : nat :=
  (List.length (requests s') - List.length (requests s))%nat.

(** The delay awaited after a failed attempt, [baseDelay * 2^(attempt-1)]. *)
Definition backoff (attempt : Z) : Z := baseDelay * 2 ^ (attempt - 1).

(** The attempts [first], [first + 1], ... ([count] of them). *)
Definition attempts_from (first : Z) (count : nat) : list Z :=
  map (fun i => first + Z.of_nat i) (seq 0 count).

(** The [LLMError] raised for [agent] with the cause's text [original]. *)
Definition is_LLMError (agent original : jsstring) (t : Thrown) : Prop :=
  exists ctx stamp,
    t = ThrownError
          (AppErr (mkAppError (js "LLMError")
                     (js "LLM agent '" ++ agent ++ js "' failed: " ++ original)
                     true (Some 500)
                     (Some ((js "agent", JStr agent) :: ctx)) stamp))
          None.

(** A response is abnormal when it has no candidate or when its first
    candidate states a reason other than [STOP]. *)
Definition abnormal (r : GenerateContentResponse) : Prop :=
  candidates r = [] \/
  exists c rest reason,
    candidates r = c :: rest /\ finishReason c = Some reason /\
    reason <> [] /\ reason <> STOP.

(** The reason holds, in whatever case, one of the markers by which
    [isRetryableError] knows a retryable error. *)
Definition names_marker (reason : jsstring) : bool :=
  existsb (includes (toLowerCase reason)) retryMarkers.

Section CallObservations.

Variable w : World.
Variables (agent prompt : jsstring) (options : GeminiCallOptions).

(** The outcome of the k-th attempt (from 1) of a call started in [s]. *)
Definition attempt_outcome (s : St) (k : nat) : RemoteOutcome :=
  remote w (List.length (requests s) + (k - 1))%nat agent
    (build_request w agent prompt options).

(** The state in which the [catch] clause of an attempt started in [s]
    decides, and the error it raises when it gives up. *)
Definition after_attempt (s : St) : St :=
  st_tick (st_request agent (build_request w agent prompt options) (st_tick s)).

Definition gives_up (s : St) (error : Thrown) : Thrown :=
  ThrownError
    (AppErr (mkAppError (js "LLMError")
               (js "LLM agent '" ++ agent ++ js "' failed: " ++ describe error)
               true (Some 500)
               (Some ([(js "agent", JStr agent);
                       (js "originalError", JStr (describe error))] ++
                      [(js "duration",
                        JNum (num_of_Z (now w (S (ticks s)) - now w (ticks s))))]))
               (now w (S (S (ticks s))))))
    None.

(** The [catch] clause of iteration [attempt], with [k] iterations left
    after it. *)
Definition on_failure (k : nat) (attempt : Z) (s : St) (error : Thrown)
  : Res GeminiResponse * St :=
  if (attempt <? maxRetries) && isRetryableError error then
    callGemini_from w k (attempt + 1) agent prompt options
      (st_sleep (baseDelay * 2 ^ (attempt - 1)) (after_attempt s))
  else (Throw (gives_up s error), st_tick (after_attempt s)).

(** How a call started in [s] at iteration [first] ends with its n-th
    attempt. *)
Definition ends_as (s : St) (first : Z) (n : nat) (res : Res GeminiResponse) : Prop :=
  match res with
  | Ok g =>
      exists r, attempt_outcome s n = Resolved r /\
                response_error r = None /\
                g = mkGeminiResponse (response_text r) (token_usage_of r)
  | Throw t =>
      exists error, caught (attempt_outcome s n) = Some error /\
                    (isRetryableError error = false \/
                     first + Z.of_nat n - 1 = maxRetries) /\
                    is_LLMError agent (describe error) t
  | Pending => attempt_outcome s n = NeverSettles
  end.

(** The retry policy, for a call at iteration [attempt] with [S k]
    iterations left: [n] attempts are made, each but the last failed with a
    retryable error and was followed by its delay, and the last one decides
    the result.  Only the clock, the delays and the requests change. *)
Definition call_spec (k : nat) (attempt : Z) (s : St)
  (out : Res GeminiResponse * St) : Prop :=
  exists n,
    (1 <= n <= S k)%nat /\
    requests (snd out) =
      requests s ++ repeat (agent, build_request w agent prompt options) n /\
    slept (snd out) = slept s ++ map backoff (attempts_from attempt (n - 1)) /\
    (forall j, (1 <= j < n)%nat ->
       exists error, caught (attempt_outcome s j) = Some error /\
                     isRetryableError error = true) /\
    ends_as s attempt n (fst out) /\
    banners (snd out) = banners s /\
    delivered (snd out) = delivered s /\
    log (snd out) = log s.

End CallObservations.

(** ** [JSON.parse]

    The built-in parser, as a pushdown machine that reads the text one code
    unit at a time: the grammar of ECMA-404, with the four JSON white-space
    characters, the escapes of strings and the number syntax. *)

Inductive CharClass :=
| CWs | CQuote | CBackslash | CLBrace | CRBrace | CLBracket | CRBracket
| CColon | CComma | CMinus | CPlus | CDot | CDigit (d : N) | COther.

Definition is_json_ws (c : N) : bool :=
  N.eqb c 32 || N.eqb c 9 || N.eqb c 10 || N.eqb c 13.

Definition classify (c : N) : CharClass :=
  if is_json_ws c then CWs
  else if N.eqb c 34 then CQuote
  else if N.eqb c 92 then CBackslash
  else if N.eqb c 123 then CLBrace
  else if N.eqb c 125 then CRBrace
  else if N.eqb c 91 then CLBracket
  else if N.eqb c 93 then CRBracket
  else if N.eqb c 58 then CColon
  else if N.eqb c 44 then CComma
  else if N.eqb c 45 then CMinus
  else if N.eqb c 43 then CPlus
  else if N.eqb c 46 then CDot
  else if N.leb 48 c && N.leb c 57 then CDigit (c - 48)
  else COther.

Definition hex_value (c : N) : option N :=
  if N.leb 48 c && N.leb c 57 then Some (c - 48)%N
  else if N.leb 97 c && N.leb c 102 then Some (c - 87)%N
  else if N.leb 65 c && N.leb c 70 then Some (c - 55)%N
  else None.

Inductive NumPhase :=
| NMinus | NZero | NInt | NDot | NFrac | NExpMark | NExpSign | NExp.

Record NumAcc := mkNumAcc {
  acc_neg : bool;
  acc_digits : N;
  acc_frac : N;
  acc_eneg : bool;
  acc_exp : N
}.

Definition number_of (a : NumAcc) : Json :=
  JNum (mkNum (acc_neg a) (acc_digits a)
          ((if acc_eneg a then - Z.of_N (acc_exp a) else Z.of_N (acc_exp a))
           - Z.of_N (acc_frac a))).

Definition accepting (p : NumPhase) : bool :=
  match p with
  | NZero | NInt | NFrac | NExp => true
  | _ => false
  end.

Inductive Escape := Plain | Escaped | Hex (count : nat) (value : N).

Inductive Literal := LTrue | LFalse | LNull.

Definition literal_text (l : Literal) : jsstring :=
  match l with
  | LTrue => js "true"
  | LFalse => js "false"
  | LNull => js "null"
  end.

Definition literal_value (l : Literal) : Json :=
  match l with
  | LTrue => JBool true
  | LFalse => JBool false
  | LNull => JNull
  end.

(** The enclosing array (its elements so far, last first) or object (its
    members so far and the key whose value is being read). *)
Inductive Frame :=
| InArray (done : list Json)
| InObject (done : list (jsstring * Json)) (key : jsstring).

Inductive Mode :=
| MValue
| MArrayStart
| MObjectStart
| MKey (done : list (jsstring * Json))
| MKeyString (done : list (jsstring * Json)) (acc : jsstring) (esc : Escape)
| MColon (done : list (jsstring * Json)) (key : jsstring)
| MString (acc : jsstring) (esc : Escape)
| MNumber (phase : NumPhase) (acc : NumAcc)
| MLiteral (l : Literal) (pos : nat)
| MAfter (v : Json)
| MError.

Definition Machine := (list Frame * Mode)%type.

Definition failed : Machine := ([], MError).

(** A value [v] is complete and [c] follows it. *)
Definition after_value (stack : list Frame) (v : Json) (c : N) : Machine :=
  match classify c, stack with
  | CWs, _ => (stack, MAfter v)
  | CComma, InArray done :: rest => (InArray (v :: done) :: rest, MValue)
  | CComma, InObject done key :: rest => (rest, MKey (set_member done key v))
  | CRBracket, InArray done :: rest => (rest, MAfter (JArr (rev (v :: done))))
  | CRBrace, InObject done key :: rest =>
      (rest, MAfter (JObj (set_member done key v)))
  | _, _ => failed
  end.

(** A value has to start at [c]. *)
Definition value_start (stack : list Frame) (c : N) : Machine :=
  match classify c with
  | CWs => (stack, MValue)
  | CLBrace => (stack, MObjectStart)
  | CLBracket => (stack, MArrayStart)
  | CQuote => (stack, MString [] Plain)
  | CMinus => (stack, MNumber NMinus (mkNumAcc true 0 0 false 0))
  | CDigit d =>
      (stack, MNumber (if N.eqb d 0 then NZero else NInt) (mkNumAcc false d 0 false 0))
  | COther =>
      if N.eqb c 116 then (stack, MLiteral LTrue 1)
      else if N.eqb c 102 then (stack, MLiteral LFalse 1)
      else if N.eqb c 110 then (stack, MLiteral LNull 1)
      else failed
  | _ => failed
  end.

(** Inside a string: the text so far (last unit first) and the escape
    state; [inr] is the finished string. *)
Definition string_step (acc : jsstring) (esc : Escape) (c : N)
  : option (jsstring * Escape + jsstring) :=
  match esc with
  | Plain =>
      if N.eqb c 34 then Some (inr (rev acc))
      else if N.eqb c 92 then Some (inl (acc, Escaped))
      else if N.ltb c 32 then None
      else Some (inl (c :: acc, Plain))
  | Escaped =>
      if N.eqb c 34 then Some (inl (34%N :: acc, Plain))
      else if N.eqb c 92 then Some (inl (92%N :: acc, Plain))
      else if N.eqb c 47 then Some (inl (47%N :: acc, Plain))
      else if N.eqb c 98 then Some (inl (8%N :: acc, Plain))
      else if N.eqb c 102 then Some (inl (12%N :: acc, Plain))
      else if N.eqb c 110 then Some (inl (10%N :: acc, Plain))
      else if N.eqb c 114 then Some (inl (13%N :: acc, Plain))
      else if N.eqb c 116 then Some (inl (9%N :: acc, Plain))
      else if N.eqb c 117 then Some (inl (acc, Hex 0 0))
      else None
  | Hex count value =>
      match hex_value c with
      | Some h =>
          let value' := (value * 16 + h)%N in
          if Nat.eqb count 3 then Some (inl (value' :: acc, Plain))
          else Some (inl (acc, Hex (S count) value'))
      | None => None
      end
  end.

Definition add_digit (a : NumAcc) (d : N) : NumAcc :=
  mkNumAcc (acc_neg a) (acc_digits a * 10 + d) (acc_frac a) (acc_eneg a) (acc_exp a).

Definition add_fraction (a : NumAcc) (d : N) : NumAcc :=
  mkNumAcc (acc_neg a) (acc_digits a * 10 + d) (acc_frac a + 1) (acc_eneg a) (acc_exp a).

Definition add_exponent (a : NumAcc) (d : N) : NumAcc :=
  mkNumAcc (acc_neg a) (acc_digits a) (acc_frac a) (acc_eneg a) (acc_exp a * 10 + d).

Definition exponent_sign (a : NumAcc) (neg : bool) : NumAcc :=
  mkNumAcc (acc_neg a) (acc_digits a) (acc_frac a) neg (acc_exp a).

Definition is_e (c : N) : bool := N.eqb c 101 || N.eqb c 69.

Definition number_step (stack : list Frame) (p : NumPhase) (a : NumAcc) (c : N)
  : Machine :=
  let finish := if accepting p then after_value stack (number_of a) c else failed in
  match p, classify c with
  | NMinus, CDigit d => (stack, MNumber (if N.eqb d 0 then NZero else NInt) (add_digit a d))
  | NInt, CDigit d => (stack, MNumber NInt (add_digit a d))
  | (NZero | NInt), CDot => (stack, MNumber NDot a)
  | NDot, CDigit d => (stack, MNumber NFrac (add_fraction a d))
  | NFrac, CDigit d => (stack, MNumber NFrac (add_fraction a d))
  | NExpMark, CPlus => (stack, MNumber NExpSign a)
  | NExpMark, CMinus => (stack, MNumber NExpSign (exponent_sign a true))
  | (NExpMark | NExpSign | NExp), CDigit d => (stack, MNumber NExp (add_exponent a d))
  | (NZero | NInt | NFrac), COther =>
      if is_e c then (stack, MNumber NExpMark a) else finish
  | _, _ => finish
  end.

Definition step (m : Machine) (c : N) : Machine :=
  let '(stack, mode) := m in
  match mode with
  | MValue => value_start stack c
  | MArrayStart =>
      match classify c with
      | CWs => (stack, MArrayStart)
      | CRBracket => (stack, MAfter (JArr []))
      | _ => value_start (InArray [] :: stack) c
      end
  | MObjectStart =>
      match classify c with
      | CWs => (stack, MObjectStart)
      | CRBrace => (stack, MAfter (JObj []))
      | CQuote => (stack, MKeyString [] [] Plain)
      | _ => failed
      end
  | MKey done =>
      match classify c with
      | CWs => (stack, MKey done)
      | CQuote => (stack, MKeyString done [] Plain)
      | _ => failed
      end
  | MKeyString done acc esc =>
      match string_step acc esc c with
      | Some (inl (acc', esc')) => (stack, MKeyString done acc' esc')
      | Some (inr key) => (stack, MColon done key)
      | None => failed
      end
  | MColon done key =>
      match classify c with
      | CWs => (stack, MColon done key)
      | CColon => (InObject done key :: stack, MValue)
      | _ => failed
      end
  | MString acc esc =>
      match string_step acc esc c with
      | Some (inl (acc', esc')) => (stack, MString acc' esc')
      | Some (inr s) => (stack, MAfter (JStr s))
      | None => failed
      end
  | MNumber p a => number_step stack p a c
  | MLiteral l pos =>
      match nth_error (literal_text l) pos with
      | Some expected =>
          if N.eqb c expected then
            if Nat.eqb (S pos) (List.length (literal_text l))
            then (stack, MAfter (literal_value l))
            else (stack, MLiteral l (S pos))
          else failed
      | None => failed
      end
  | MAfter v => after_value stack v c
  | MError => failed
  end.

Definition run (m : Machine) (s : jsstring) : Machine := fold_left step s m.

(** The end of the text. *)
Definition finish (m : Machine) : option Json :=
  match m with
  | ([], MAfter v) => Some v
  | ([], MNumber p a) => if accepting p then Some (number_of a) else None
  | _ => None
  end.

(** [JSON.parse(text)]; [None] is a [SyntaxError]. *)
Definition JSON_parse (text : jsstring) : option Json :=
  finish (run ([], MValue) text).

(** ** [src/orchestrator/json-parser.ts] *)

(** What [\s] matches and [trim] removes: white space and line
    terminators. *)
Definition is_js_ws (c : N) : bool :=
  N.eqb c 9 || N.eqb c 10 || N.eqb c 11 || N.eqb c 12 || N.eqb c 13 ||
  N.eqb c 32 || N.eqb c 160 || N.eqb c 5760 ||
  (N.leb 8192 c && N.leb c 8202) ||
  N.eqb c 8232 || N.eqb c 8233 || N.eqb c 8239 || N.eqb c 8287 ||
  N.eqb c 12288 || N.eqb c 65279.

(** The line terminators, which [.] does not match and before which [$]
    holds under the [m] flag. *)
Definition is_line_terminator (c : N) : bool :=
  N.eqb c 10 || N.eqb c 13 || N.eqb c 8232 || N.eqb c 8233.

Fixpoint trimStart (s : jsstring) : jsstring :=
  match s with
  | [] => []
  | c :: s' => if is_js_ws c then trimStart s' else s
  end.

Definition trimEnd (s : jsstring) : jsstring := rev (trimStart (rev s)).

Definition trim (s : jsstring) : jsstring := trimEnd (trimStart s).

(** [s.replace(/lit\s*/g, '')] for a literal [lit] that is not empty: each
    occurrence goes with the white space after it, and the search resumes
    behind it.  [fuel] bounds the steps; the length of [s] is enough. *)
Fixpoint remove_marker (lit : jsstring) (fuel : nat) (s : jsstring) : jsstring :=
  match fuel with
  | O => s
  | S f =>
      if startsWith lit s then
        remove_marker lit f (trimStart (skipn (List.length lit) s))
      else
        match s with
        | [] => []
        | c :: s' => c :: remove_marker lit f s'
        end
  end.

(** Line 5 *)
Definition remove_fences (text : jsstring) : jsstring :=
  let cleaned := remove_marker (js "```json") (List.length text) text in
  remove_marker (js "```") (List.length cleaned) cleaned.

(** [.*$]: up to the next line terminator or the end. *)
Fixpoint rest_of_line (s : jsstring) : jsstring :=
  match s with
  | [] => []
  | c :: s' => if is_line_terminator c then s else rest_of_line s'
  end.

(** Line 8, [s.replace(/\/\/.*$/gm, '')] *)
Fixpoint remove_line_comments (fuel : nat) (s : jsstring) : jsstring :=
  match fuel with
  | O => s
  | S f =>
      if startsWith (js "//") s then
        remove_line_comments f (rest_of_line (skipn 2 s))
      else
        match s with
        | [] => []
        | c :: s' => c :: remove_line_comments f s'
        end
  end.

(** [[\s\S]*?\*\/]: what follows the first [*/], when there is one. *)
Fixpoint after_close (s : jsstring) : option jsstring :=
  match s with
  | [] => None
  | _ :: s' => if startsWith (js "*/") s then Some (skipn 2 s) else after_close s'
  end.

(** Line 9, [s.replace(/\/\*[\s\S]*?\*\//g, '')] *)
Fixpoint remove_block_comments (fuel : nat) (s : jsstring) : jsstring :=
  match fuel with
  | O => s
  | S f =>
      match s with
      | [] => []
      | c :: s' =>
          if startsWith (js "/*") s then
            match after_close (skipn 2 s) with
            | Some rest => remove_block_comments f rest
            | None => c :: remove_block_comments f s'
            end
          else c :: remove_block_comments f s'
      end
  end.

(** [\s*[}\]]] matches at the start of [s]. *)
Definition closes (s : jsstring) : bool :=
  match trimStart s with
  | c :: _ => N.eqb c 125 || N.eqb c 93
  | [] => false
  end.

(** Line 12, [s.replace(/,(\s*[}\]])/g, '$1')]: a comma before a closing
    bracket goes.  What is kept of a match holds no comma, so resuming the
    search right behind the comma finds the same matches as resuming
    behind the bracket. *)
Fixpoint remove_trailing_commas (s : jsstring) : jsstring :=
  match s with
  | [] => []
  | c :: s' =>
      if N.eqb c 44 && closes s' then remove_trailing_commas s'
      else c :: remove_trailing_commas s'
  end.

(** Lines 5 to 12 *)
Definition clean (text : jsstring) : jsstring :=
  let cleaned := remove_fences text in
  let cleaned := remove_line_comments (List.length cleaned) cleaned in
  let cleaned := remove_block_comments (List.length cleaned) cleaned in
  remove_trailing_commas cleaned.

Fixpoint from_first (c : N) (s : jsstring) : option jsstring :=
  match s with
  | [] => None
  | x :: s' => if N.eqb x c then Some s else from_first c s'
  end.

(** The longest prefix of [s] that ends with [c]. *)
Definition through_last (c : N) (s : jsstring) : option jsstring :=
  match from_first c (rev s) with
  | Some r => Some (rev r)
  | None => None
  end.

(** Line 49, [s.match(/\{[\s\S]*\}/)]: from the first opening brace to the
    last closing brace behind it. *)
Definition match_object (s : jsstring) : option jsstring :=
  match from_first 123 s with
  | Some (brace :: body) =>
      match through_last 125 body with
      | Some inner => Some (brace :: inner)
      | None => None
      end
  | _ => None
  end.

(** What the [try] block of [extractJSON] throws. *)
Inductive Raised :=
| SyntaxErr
| ZodErr (issues : list ZodIssue)
| PlainErr (message : jsstring).

(** Line 30 *)
Definition array_message (n : nat) : jsstring :=
  js "JSON validation failed: expected object, received array with " ++
  string_of_nat n ++ js " elements".

(** The optional [schema] argument; without it the parsed value is
    returned as it is ([parsed as T]). *)
Inductive Schema : Type -> Type :=
| WithSchema {T : Type} (parse : ZodSchema T) : Schema T
| NoSchema : Schema Json.

(** Lines 34 to 39 *)
Definition validated {T} (schema : Schema T) (parsed : Json) : Raised + T :=
  match schema in Schema T return Raised + T with
  | WithSchema parse =>
      match parse parsed with
      | ZodOk v => inr v
      | ZodError issues => inl (ZodErr issues)
      end
  | NoSchema => inr parsed
  end.

(** Lines 16 to 39, the [try] block. *)
Definition direct_parse {T} (schema : Schema T) (cleaned : jsstring) : Raised + T :=
  match JSON_parse (trim cleaned) with
  | None => inl SyntaxErr
  | Some parsed =>
      let parsed :=
        match parsed with
        | JArr [only] => only
        | _ => parsed
        end in
      match parsed with
      | JArr elems => inl (PlainErr (array_message (List.length elems)))
      | _ => validated schema parsed
      end
  end.

(** The errors [extractJSON] throws, each a [new Error(message)]. *)
Inductive ExtractError :=
| ValidationFailed (issues : list ZodIssue)
| ExtractionFailed (matched text : jsstring)
| NoValidJson (text : jsstring).

(** Lines 48 to 70, the search for an object in the cleaned text. *)
Definition fallback {T} (schema : Schema T) (text cleaned : jsstring)
  : ExtractError + T :=
  match match_object cleaned with
  | Some matched =>
      match JSON_parse matched with
      | Some parsed =>
          match validated schema parsed with
          | inr v => inr v
          | inl (ZodErr issues) => inl (ValidationFailed issues)
          | inl _ => inl (ExtractionFailed matched text)
          end
      | None => inl (ExtractionFailed matched text)
      end
  | None => inl (NoValidJson text)
  end.

(** [extractJSON(text, schema)]: whatever the [try] block throws that is
    not a [ZodError] leads to the search. *)
Definition extractJSON {T} (text : jsstring) (schema : Schema T) : ExtractError + T :=
  let cleaned := clean text in
  match direct_parse schema cleaned with
  | inr v => inr v
  | inl (ZodErr issues) => inl (ValidationFailed issues)
  | inl _ => fallback schema text cleaned
  end.

Definition segment_text (p : PathSegment) : jsstring :=
  match p with
  | Key k => k
  | Index i => string_of_nat i
  end.

Definition issue_text (i : ZodIssue) : jsstring :=
  join (js ".") (map segment_text (path i)) ++ js ": " ++ issue_message i.

(** The message of the error; [syntaxError w matched] is [String(e2)]. *)
Definition extract_message (w : World) (e : ExtractError) : jsstring :=
  match e with
  | ValidationFailed issues =>
      js "JSON validation failed: " ++ join (js ", ") (map issue_text issues)
  | ExtractionFailed matched text =>
      js "JSON extraction failed: " ++ syntaxError w matched ++
      [10%N; 10%N] ++ js "Original text:" ++ [10%N] ++ substring0 500 text ++ js "..."
  | NoValidJson text =>
      js "No valid JSON found in response:" ++ [10%N] ++ substring0 500 text ++ js "..."
  end.

(** The comma of line 12 occurs in [s]. *)
Fixpoint has_trailing_comma (s : jsstring) : bool :=
  match s with
  | [] => false
  | c :: s' => (N.eqb c 44 && closes s') || has_trailing_comma s'
  end.

(** A text none of the rewrites of lines 5 to 12 applies to. *)
Definition untouched (text : jsstring) : Prop :=
  includes text (js "```") = false /\
  includes text (js "//") = false /\
  includes text (js "/*") = false /\
  has_trailing_comma text = false.

(** White space of JavaScript that is not white space of JSON. *)
Definition exotic (c : N) : Prop := (c = 11 \/ c = 12 \/ 160 <= c)%N.

(** The machine is inside a string or has failed. *)
Definition stuck (m : Machine) : Prop :=
  match snd m with
  | MError | MString _ _ | MKeyString _ _ _ => True
  | _ => False
  end.

(** ** [src/orchestrator/orchestrator.ts] *)

(** A started promise: fulfilled, rejected, or never settled. *)
Inductive Settled (A : Type) :=
| Fulfilled (a : A)
| RejectedWith (t : Thrown)
| Unsettled.
Arguments Fulfilled {A} a.
Arguments RejectedWith {A} t.
Arguments Unsettled {A}.

Definition settle {A} (task : M A) : M (Settled A) :=
  fun s =>
    match task s with
    | (Ok a, s') => (Ok (Fulfilled a), s')
    | (Throw t, s') => (Ok (RejectedWith t), s')
    | (Pending, s') => (Ok Unsettled, s')
    end.

Fixpoint start_all {A} (tasks : list (M A)) : M (list (Settled A)) :=
  match tasks with
  | [] => ret []
  | task :: rest =>
      r <- settle task ;;
      rs <- start_all rest ;;
      ret (r :: rs)
  end.

Definition is_unsettled {A} (r : Settled A) : bool :=
  match r with Unsettled => true | _ => false end.

(** [await Promise.allSettled(promises)]: resolves once every promise has
    settled.  The tasks share nothing but the clock and the emitter, and
    their results are taken in the order of the list, so they are run one
    after the other. *)
Definition allSettled {A} (tasks : list (M A)) : M (list (Settled A)) :=
  results <- start_all tasks ;;
  if existsb is_unsettled results then (fun s => (Pending, s)) else ret results.

Definition add_step (l : ExecutionLog) (step : ExecutionStep) : ExecutionLog :=
  mkLog (steps l ++ [step]) (startTime l) (endTime l) (totalDurationMs l).

(** [text.slice(0, n)] *)
Definition slice0 (n : nat) (s : jsstring) : jsstring := firstn n s.

(** [orchestratorStartTime] and [requestId], fixed when the run starts. *)
Record RunIds := mkIds { orchestratorStartTime : Z; runRequestId : jsstring }.

Section Orchestrator.

Variable w : World.
Variable debugEmitter : option Listener.
Variable brief : CreativeBrief.

Variable ids : RunIds.

(** The log that a final event refers to is the log of the run: it is as
    the listener left it. *)
Definition keep_log (event after : EventBody) : M unit :=
  match event, after with
  | RecipeComplete _ _, RecipeComplete _ l
  | RecipeError _ _, RecipeError _ l => modify (set_log l)
  | _, _ => ret tt
  end.

(** Lines 32 to 41.  The event passed in is already built; [emit] adds the
    time stamp, the request identifier and the elapsed time, and calls the
    listener, whose exception is the exception of [emit].  It returns the
    event with its objects as the listener left them. *)
Definition emit (event : EventBody) : M EventBody :=
  match debugEmitter with
  | Some listener =>
      timestamp <- clock w ;;
      t <- clock w ;;
      let e := mkEvent event timestamp (runRequestId ids)
                 (t - orchestratorStartTime ids) in
      modify (st_deliver e) ;;;
      match listener e with
      | Returns after => keep_log event after ;;; ret after
      | Throws thrown after => keep_log event after ;;; throw thrown
      end
  | None => ret event
  end.

(** The objects of the run that an event referred to, read again after
    [emit]. *)
Definition usage_in (seen : EventBody) (usage : TokenUsage) : TokenUsage :=
  match seen with
  | LlmResponse _ _ _ u _ _ => u
  | _ => usage
  end.

Definition taskMap_in (seen : EventBody) (taskMap : TaskMap) : TaskMap :=
  match seen with
  | DataParsed _ _ (DataTaskMap t) _ => t
  | _ => taskMap
  end.

Definition onePager_in (seen : EventBody) (onePager : SpecialistOnePager)
  : SpecialistOnePager :=
  match seen with
  | DataParsed _ _ (DataOnePager p) _ => p
  | _ => onePager
  end.

Definition recipe_in (seen : EventBody) (recipe : Recipe) : Recipe :=
  match seen with
  | DataParsed _ _ (DataRecipe r) _ => r
  | RecipeComplete r _ => r
  | _ => recipe
  end.

(** [loadPrompt(name)], which throws [Error] objects only. *)
Definition load (name : jsstring) : M jsstring :=
  match loadPrompt w name with
  | inl e => throw (ThrownError e None)
  | inr template => ret template
  end.

(** [extractJSON<T>(text, schema)], which throws [new Error(message)]. *)
Definition extract {T} (text : jsstring) (schema : ZodSchema T) : M T :=
  match extractJSON text (WithSchema schema) with
  | inr v => ret v
  | inl e => throw (newError (extract_message w e))
  end.

(** [log.steps.push(step)] *)
Definition push_step (step : ExecutionStep) : M unit :=
  modify (fun s => set_log (add_step (log s) step) s).

Definition get_log : M ExecutionLog := fun s => (Ok (log s), s).

Definition model_name : jsstring := js "gemini-2.5-flash".

Definition json_mode (sysInst : jsstring) : GeminiCallOptions :=
  mkOptions (Some sysInst) None None (Some true).

(** Lines 46 to 109.  Returns the task map and [planningDuration]. *)
Definition planning : M (TaskMap * Z) :=
  banner PlanningPhase ;;;
  emit (PhaseStart PlanningPhase) ;;;
  planningStartTime <- clock w ;;
  planningTemplate <- load (js "sous-chef-planning") ;;
  let parts := extractSystemInstruction w planningTemplate in
  let planningPrompt := renderPrompt w (taskPrompt parts) (mkVars brief None None) in
  emit (LlmRequest (js "sous_chef_planning") model_name (Num false 3 (-1))
          (slice0 200 planningPrompt) planningPrompt None) ;;;
  planningResponse <- callGemini w (js "sous_chef_planning") planningPrompt
                        (json_mode (systemInstruction parts)) ;;
  t <- clock w ;;
  seen <- emit (LlmResponse (js "sous_chef_planning") (t - planningStartTime) true
                  (tokenUsage planningResponse) (slice0 300 (text planningResponse))
                  (text planningResponse)) ;;
  let usage := usage_in seen (tokenUsage planningResponse) in
  parsed <- extract (text planningResponse) (TaskMapSchema w) ;;
  seen <- emit (DataParsed (js "sous_chef_planning") (js "TaskMap")
                  (DataTaskMap parsed) true) ;;
  let taskMap := taskMap_in seen parsed in
  t <- clock w ;;
  let planningDuration := t - planningStartTime in
  timestamp <- clock w ;;
  push_step (mkStep (js "sous_chef") (js "planning") timestamp planningDuration true
               None (Some usage)) ;;;
  emit (PhaseComplete PlanningPhase planningDuration true) ;;;
  ret (taskMap, planningDuration).

(** Lines 115 to 204, the task of one specialist. *)
Definition specialist_task (taskMap : TaskMap) (spec : SpecialistAssignment)
  : M (option SpecialistOnePager * ExecutionStep) :=
  startTime <- clock w ;;
  let isParallel := Nat.ltb 1 (List.length (specialists taskMap)) in
  try_catch
    (template <- load (spec_name spec) ;;
     let parts := extractSystemInstruction w template in
     let prompt := renderPrompt w (taskPrompt parts)
                     (mkVars brief (Some (responsibilities spec)) None) in
     emit (LlmRequest (spec_name spec) model_name (Num false 6 (-1))
             (slice0 200 prompt) prompt (Some isParallel)) ;;;
     response <- callGemini w (spec_name spec) prompt
                   (json_mode (systemInstruction parts)) ;;
     t <- clock w ;;
     seen <- emit (LlmResponse (spec_name spec) (t - startTime) true
                     (tokenUsage response) (slice0 300 (text response))
                     (text response)) ;;
     let usage := usage_in seen (tokenUsage response) in
     parsed <- extract (text response) (SpecialistOnePagerSchema w) ;;
     seen <- emit (DataParsed (spec_name spec) (js "SpecialistOnePager")
                     (DataOnePager parsed) true) ;;
     let onePager := onePager_in seen parsed in
     t <- clock w ;;
     let duration := t - startTime in
     timestamp <- clock w ;;
     ret (Some onePager,
          mkStep (spec_name spec) (js "specialist_contribution") timestamp duration
            true None (Some usage)))
    (fun error =>
       t <- clock w ;;
       let duration := t - startTime in
       let message := describe error in
       emit (AgentError (spec_name spec) message (js "specialists") true) ;;;
       timestamp <- clock w ;;
       ret (None,
            mkStep (spec_name spec) (js "specialist_contribution") timestamp duration
              false (Some message) None)).

(** Lines 212 to 224: the steps of the fulfilled tasks are logged and
    their one-pagers collected. *)
Fixpoint collect (results : list (Settled (option SpecialistOnePager * ExecutionStep)))
  : M (list SpecialistOnePager) :=
  match results with
  | [] => ret []
  | Fulfilled (onePager, step) :: rest =>
      push_step step ;;;
      onePagers <- collect rest ;;
      ret (match onePager with
           | Some p => p :: onePagers
           | None => onePagers
           end)
  | _ :: rest => collect rest
  end.

Definition all_failed_message : jsstring :=
  js "All specialists failed. Cannot proceed to synthesis.".

(** Lines 111 to 242 *)
Definition specialists_phase (taskMap : TaskMap) (planningDuration : Z)
  : M (list SpecialistOnePager) :=
  banner SpecialistsPhase ;;;
  emit (PhaseStart SpecialistsPhase) ;;;
  results <- allSettled (map (specialist_task taskMap) (specialists taskMap)) ;;
  onePagers <- collect results ;;
  match onePagers with
  | [] =>
      e <- newAppError w (js "AppError") all_failed_message true (Some 500)
             (Some [(js "attemptedSpecialists",
                     JArr (map (fun s => JStr (spec_name s)) (specialists taskMap)))]) ;;
      throw e
  | _ :: _ =>
      t <- clock w ;;
      emit (PhaseComplete SpecialistsPhase
              (t - orchestratorStartTime ids - planningDuration)
              (Nat.ltb 0 (List.length onePagers))) ;;;
      ret onePagers
  end.

(** Lines 310 and 311, 326 and 327: [endTime] and [totalDurationMs]. *)
Definition finalize_log : M unit :=
  ended <- clock w ;;
  modify (fun s => set_log (mkLog (steps (log s)) (startTime (log s)) (Some ended)
                               (totalDurationMs (log s))) s) ;;;
  t <- clock w ;;
  modify (fun s => set_log (mkLog (steps (log s)) (startTime (log s)) (endTime (log s))
                               (Some (t - startTime (log s)))) s).

(** Lines 244 to 322 *)
Definition synthesis (onePagers : list SpecialistOnePager) : M RecipeResult :=
  banner SynthesisPhase ;;;
  emit (PhaseStart SynthesisPhase) ;;;
  synthesisStartTime <- clock w ;;
  synthesisTemplate <- load (js "sous-chef-synthesis") ;;
  let parts := extractSystemInstruction w synthesisTemplate in
  let synthesisPrompt := renderPrompt w (taskPrompt parts)
                           (mkVars brief None (Some onePagers)) in
  emit (LlmRequest (js "sous_chef_synthesis") model_name (Num false 5 (-1))
          (slice0 200 synthesisPrompt) synthesisPrompt None) ;;;
  synthesisResponse <- callGemini w (js "sous_chef_synthesis") synthesisPrompt
                         (json_mode (systemInstruction parts)) ;;
  t <- clock w ;;
  seen <- emit (LlmResponse (js "sous_chef_synthesis") (t - synthesisStartTime) true
                  (tokenUsage synthesisResponse) (slice0 300 (text synthesisResponse))
                  (text synthesisResponse)) ;;
  let usage := usage_in seen (tokenUsage synthesisResponse) in
  parsed <- extract (text synthesisResponse) (RecipeSchema w) ;;
  seen <- emit (DataParsed (js "sous_chef_synthesis") (js "Recipe")
                  (DataRecipe parsed) true) ;;
  let recipe := recipe_in seen parsed in
  t <- clock w ;;
  let synthesisDuration := t - synthesisStartTime in
  timestamp <- clock w ;;
  push_step (mkStep (js "sous_chef") (js "synthesis") timestamp synthesisDuration true
               None (Some usage)) ;;;
  emit (PhaseComplete SynthesisPhase synthesisDuration true) ;;;
  finalize_log ;;;
  l <- get_log ;;
  seen <- emit (RecipeComplete recipe l) ;;
  l <- get_log ;;
  ret (mkResult (recipe_in seen recipe) l).

(** Lines 45 to 322, the [try] block. *)
Definition try_block : M RecipeResult :=
  planned <- planning ;;
  let '(taskMap, planningDuration) := planned in
  onePagers <- specialists_phase taskMap planningDuration ;;
  synthesis onePagers.

(** Line 350: the log becomes a property of an [Error] object. *)
Definition attach (error : Thrown) (l : ExecutionLog) : Thrown :=
  match error with
  | ThrownError e _ => ThrownError e (Some l)
  | ThrownValue v => ThrownValue v
  end.

(** Lines 324 to 353, the [catch] clause. *)
Definition catch_block (error : Thrown) : M RecipeResult :=
  finalize_log ;;;
  let message := describe error in
  timestamp <- clock w ;;
  push_step (mkStep (js "orchestrator") (js "error") timestamp 0 false
               (Some message) None) ;;;
  l <- get_log ;;
  emit (RecipeError message l) ;;;
  l <- get_log ;;
  throw (attach error l).

End Orchestrator.

(** Lines 18 to 354, [generateRecipe(brief, debugEmitter)]. *)
Definition generateRecipe (w : World) (brief : CreativeBrief)
  (debugEmitter : option Listener) : M RecipeResult :=
  started <- clock w ;;
  modify (set_log (mkLog [] started None None)) ;;;
  orchestratorStartTime <- clock w ;;
  t <- clock w ;;
  let requestId := js "req_" ++ string_of_Z t ++ js "_" ++ random w in
  let ids := mkIds orchestratorStartTime requestId in
  try_catch (try_block w debugEmitter brief ids) (catch_block w debugEmitter ids).

(** The state in which a run starts. *)
Definition initial : St := mkSt 0 [] [] [] [] (mkLog [] 0 None None).

(** ** [src/server.ts], the route [POST /api/generate-recipe] *)

Definition TIMEOUT_MS : Z := 300000.

Inductive ResponseBody :=
| RecipeBody (result : RecipeResult)
| ErrorBody (error : jsstring)
    (appError : option (bool * option (list (jsstring * Json)) * Z))
    (executionLog : option ExecutionLog)
| TimeoutBody (error : jsstring) (timeout : Z).

Record HttpResponse := mkHttp { status : Z; res_body : ResponseBody }.

(** Lines 464 to 471, what the timer sends when it fires first. *)
Definition timeout_response : HttpResponse :=
  mkHttp 504
    (TimeoutBody
       (js "Recipe generation timed out. Try a simpler request or try again later.")
       TIMEOUT_MS).

(** Lines 503 to 524, the [catch] clause. *)
Definition error_response (error : Thrown) : HttpResponse :=
  match error with
  | ThrownError (AppErr a) l =>
      mkHttp (match httpCode a with
              | Some code => if code =? 0 then 500 else code
              | None => 500
              end)
        (ErrorBody (err_message a)
           (Some (isOperational a, context a, err_timestamp a)) l)
  | ThrownError (PlainError message) l => mkHttp 500 (ErrorBody message None l)
  | ThrownValue _ => mkHttp 500 (ErrorBody (js "Unknown error") None None)
  end.

(** The time a run took that went from [s] to [s'], on the clock it reads:
    from its first reading to its last. *)
Definition run_time (w : World) (s s' : St) : Z :=
  now w (Nat.pred (ticks s')) - now w (ticks s).

(** Whether the timer of line 464 fired before the run settled.  The timer
    and the run read the same clock, and time passes while the run awaits,
    not in between: the timer is started at the instant of the run's first
    reading (none of the lines 464 to 495 awaits), and the run settles at
    the instant of its last reading.  A run that has taken 300000 ms or more
    settles after the timer has fired. *)
Definition timer_fired (w : World) (s s' : St) : bool :=
  TIMEOUT_MS <=? run_time w s s'.

(** The response the client receives, which is the first one sent: the
    timer answers for a run that never settles and for a run that settles
    after [TIMEOUT_MS]; the answer of the handler to such a run (lines 501
    and 515) comes after the headers were sent.  An invalid body is
    answered at once. *)
Definition generate_recipe_route (w : World) (body : Json) : M HttpResponse :=
  match CreativeBriefSchema w body with
  | ZodError issues =>
      e <- newAppError w (js "ValidationError") (js "Invalid creative brief") true
             (Some 400) (Some (flatten w issues)) ;;
      ret (error_response e)
  | ZodOk brief =>
      fun s =>
        match generateRecipe w brief None s with
        | (Pending, s') => (Ok timeout_response, s')
        | (settled, s') =>
            if timer_fired w s s' then (Ok timeout_response, s')
            else
              match settled with
              | Ok result => (Ok (mkHttp 200 (RecipeBody result)), s')
              | Throw error => (Ok (error_response error), s')
              | Pending => (Ok timeout_response, s')
              end
        end
  end.

(** ** [src/types/validation.ts]

    The schemas as the functions their [parse] computes.  An object schema
    checks every field and joins the issues; it keeps the fields it
    declares, in the order of the declaration, and drops the others.  The
    issue texts that the source does not give stand for zod's. *)

Definition issue (p : list PathSegment) (m : string) : ZodIssue := mkIssue p (js m).

Definition z_string (p : list PathSegment) (v : option Json) : ZodResult jsstring :=
  match v with
  | Some (JStr s) => ZodOk s
  | Some _ => ZodError [issue p "Expected string"]
  | None => ZodError [issue p "Required"]
  end.

Definition z_int (p : list PathSegment) (v : option Json) : ZodResult Z :=
  match v with
  | Some (JNum (Num neg d e)) =>
      if 0 <=? e then
        ZodOk ((if neg then -1 else 1) * Z.of_N d * 10 ^ e)
      else ZodError [issue p "Expected integer"]
  | Some _ => ZodError [issue p "Expected number"]
  | None => ZodError [issue p "Required"]
  end.

Definition issues_of {T} (r : ZodResult T) : list ZodIssue :=
  match r with
  | ZodOk _ => []
  | ZodError l => l
  end.

(** Two fields of an object: both are checked and their issues joined. *)
Definition z_both {A B C} (f : A -> B -> C) (a : ZodResult A) (b : ZodResult B)
  : ZodResult C :=
  match a, b with
  | ZodOk x, ZodOk y => ZodOk (f x y)
  | _, _ => ZodError (issues_of a ++ issues_of b)
  end.

Definition z_map {A B} (f : A -> B) (a : ZodResult A) : ZodResult B :=
  match a with
  | ZodOk x => ZodOk (f x)
  | ZodError l => ZodError l
  end.

Fixpoint z_array {T} (check : list PathSegment -> option Json -> ZodResult T)
  (p : list PathSegment) (i : nat) (elems : list Json) : ZodResult (list T) :=
  match elems with
  | [] => ZodOk []
  | e :: rest =>
      z_both cons (check (p ++ [Index i]) (Some e)) (z_array check p (S i) rest)
  end.

Definition z_array_of {T} (check : list PathSegment -> option Json -> ZodResult T)
  (p : list PathSegment) (v : option Json) : ZodResult (list T) :=
  match v with
  | Some (JArr elems) => z_array check p 0 elems
  | Some _ => ZodError [issue p "Expected array"]
  | None => ZodError [issue p "Required"]
  end.

Definition z_object {T} (check : list (jsstring * Json) -> ZodResult T)
  (p : list PathSegment) (v : option Json) : ZodResult T :=
  match v with
  | Some (JObj ms) => check ms
  | Some _ => ZodError [issue p "Expected object"]
  | None => ZodError [issue p "Required"]
  end.

(** [.optional()]: an absent field is accepted and stays absent. *)
Definition z_optional {T} (check : list PathSegment -> option Json -> ZodResult T)
  (p : list PathSegment) (v : option Json) : ZodResult (option T) :=
  match v with
  | None => ZodOk None
  | Some _ => z_map Some (check p v)
  end.

(** [z.number().int().positive()]: both checks are made. *)
Definition z_positive_int (p : list PathSegment) (v : option Json) : ZodResult Z :=
  match v with
  | Some (JNum (Num neg d e)) =>
      let whole := if 0 <=? e then [] else [issue p "Expected integer"] in
      let positive :=
        if negb neg && negb (N.eqb d 0) then []
        else [issue p "Number must be greater than 0"] in
      match whole ++ positive with
      | [] => ZodOk (Z.of_N d * 10 ^ e)
      | issues => ZodError issues
      end
  | Some _ => ZodError [issue p "Expected number"]
  | None => ZodError [issue p "Required"]
  end.

(** [z.enum([...])] on the names of an enumeration. *)
Fixpoint z_enum {T} (members : list (string * T)) (p : list PathSegment)
  (v : option Json) : ZodResult T :=
  match v with
  | None => ZodError [issue p "Required"]
  | Some (JStr s) =>
      match members with
      | [] => ZodError [issue p "Invalid enum value"]
      | (name, x) :: rest =>
          if jseqb s (js name) then ZodOk x else z_enum rest p v
      end
  | Some _ => ZodError [issue p "Invalid enum value"]
  end.

(** Lines 29 to 33 *)
Definition onePagerSchema : ZodSchema SpecialistOnePager :=
  fun v =>
    z_object (fun ms =>
      z_both (fun f notes => f notes)
        (z_both mkOnePager
           (z_string [Key (js "specialist")] (lookup (js "specialist") ms))
           (z_string [Key (js "section")] (lookup (js "section") ms)))
        (z_string [Key (js "notes")] (lookup (js "notes") ms)))
      [] (Some v).

Definition z_complexity (p : list PathSegment) (v : option Json) : ZodResult Complexity :=
  match v with
  | Some (JStr s) =>
      if jseqb s (js "simple") then ZodOk Simple
      else if jseqb s (js "moderate") then ZodOk Moderate
      else if jseqb s (js "complex") then ZodOk Complex
      else ZodError [issue p "Invalid enum value"]
  | Some _ => ZodError [issue p "Invalid enum value"]
  | None => ZodError [issue p "Required"]
  end.

Definition z_assignment (p : list PathSegment) (v : option Json)
  : ZodResult SpecialistAssignment :=
  z_object (fun ms =>
    z_both (fun f n => f n)
      (z_both mkAssignment
         (z_string (p ++ [Key (js "name")]) (lookup (js "name") ms))
         (z_array_of z_string (p ++ [Key (js "responsibilities")])
            (lookup (js "responsibilities") ms)))
      (z_int (p ++ [Key (js "priority")]) (lookup (js "priority") ms)))
    p v.

(** Lines 19 to 26 *)
Definition taskMapSchema : ZodSchema TaskMap :=
  fun v =>
    z_object (fun ms =>
      z_both mkTaskMap
        (z_array_of z_assignment [Key (js "specialists")] (lookup (js "specialists") ms))
        (z_complexity [Key (js "estimatedComplexity")]
           (lookup (js "estimatedComplexity") ms)))
      [] (Some v).

(** *** [CreativeBriefSchema], lines 4 to 16 *)

(** [z.string().min(lo, short).max(hi, long)], on the length in code
    units. *)
Definition z_string_within (lo hi : nat) (short long : string)
  (p : list PathSegment) (v : option Json) : ZodResult jsstring :=
  match z_string p v with
  | ZodOk s =>
      if Nat.ltb (List.length s) lo then ZodError [issue p short]
      else if Nat.ltb hi (List.length s) then ZodError [issue p long]
      else ZodOk s
  | ZodError issues => ZodError issues
  end.

Definition z_constraints (p : list PathSegment) (v : option Json)
  : ZodResult Constraints :=
  z_object (fun ms =>
    let field k := (p ++ [Key (js k)], lookup (js k) ms) in
    let check {T} (c : list PathSegment -> option Json -> ZodResult T) k :=
      z_optional c (fst (field k)) (snd (field k)) in
    z_both (fun f x => f x)
      (z_both (fun f x => f x)
         (z_both (fun f x => f x)
            (z_both mkConstraints
               (check (z_array_of z_string) "dietary"%string)
               (check (z_array_of z_string) "equipment"%string))
            (check (z_enum [("beginner"%string, Beginner);
                            ("intermediate"%string, Intermediate);
                            ("advanced"%string, Advanced)]) "skill"%string))
         (check z_string "time"%string))
      (check z_positive_int "servings"%string))
    p v.

Definition creativeBriefSchema : ZodSchema CreativeBrief :=
  fun v =>
    z_object (fun ms =>
      let field k := lookup (js k) ms in
      z_both (fun f x => f x)
        (z_both (fun f x => f x)
           (z_both (fun f x => f x)
              (z_both mkBrief
                 (z_string_within 1 200 "Title is required" "Title too long"
                    [Key (js "title")] (field "title"%string))
                 (z_enum [("single_recipe"%string, SingleRecipe); ("menu"%string, Menu)]
                    [Key (js "scope")] (field "scope"%string)))
              (z_optional z_constraints [Key (js "constraints")]
                 (field "constraints"%string)))
           (z_enum [("traditional"%string, Traditional); ("modern"%string, Modern);
                    ("fusion"%string, Fusion)]
              [Key (js "creativeFocus")] (field "creativeFocus"%string)))
        (z_optional
           (z_string_within 0 2000 "Additional context too long"
              "Additional context too long")
           [Key (js "additionalContext")] (field "additionalContext"%string)))
      [] (Some v).

(** [error.flatten()]: the messages of the issues, those of the form and
    those of each field. *)
Fixpoint add_field_error (k m : jsstring) (fieldErrors : list (jsstring * Json))
  : list (jsstring * Json) :=
  match fieldErrors with
  | [] => [(k, JArr [JStr m])]
  | (k', v) :: rest =>
      if jseqb k' k then
        (k', match v with JArr ms => JArr (ms ++ [JStr m]) | _ => v end) :: rest
      else (k', v) :: add_field_error k m rest
  end.

Definition segment_key (seg : PathSegment) : jsstring :=
  match seg with
  | Key k => k
  | Index i => string_of_nat i
  end.

Definition zod_flatten (issues : list ZodIssue) : list (jsstring * Json) :=
  [(js "formErrors",
    JArr (flat_map (fun i => match path i with
                             | [] => [JStr (issue_message i)]
                             | _ => []
                             end) issues));
   (js "fieldErrors",
    JObj (fold_left (fun acc i => match path i with
                                  | [] => acc
                                  | seg :: _ =>
                                      add_field_error (segment_key seg)
                                        (issue_message i) acc
                                  end) issues []))].

(** *** [RecipeSchema], lines 36 to 75

    [toLowerCase] changes the ASCII letters only; no other character has a
    lower-case form that could complete one of the seven words compared
    with (none of them holds a [k], the one ASCII letter that is the lower
    case of a character outside ASCII). *)

(** Lines 41 to 46, the function given to [transform]. *)
Definition difficulty_transform (val : jsstring) : jsstring :=
  let lower := toLowerCase val in
  if jseqb lower (js "easy") || jseqb lower (js "beginner") || jseqb lower (js "simple")
  then js "easy"
  else if jseqb lower (js "hard") || jseqb lower (js "advanced") ||
          jseqb lower (js "expert") || jseqb lower (js "difficult")
  then js "hard"
  else js "medium".

(** [z.enum(['easy', 'medium', 'hard'])] *)
Definition difficulty_enum (p : list PathSegment) (v : jsstring) : ZodResult jsstring :=
  if jseqb v (js "easy") || jseqb v (js "medium") || jseqb v (js "hard") then ZodOk v
  else ZodError [issue p "Invalid enum value"].

(** [z.string().transform(...).pipe(z.enum([...]))] *)
Definition z_difficulty (p : list PathSegment) (v : option Json) : ZodResult jsstring :=
  match z_string p v with
  | ZodOk s => difficulty_enum p (difficulty_transform s)
  | ZodError issues => ZodError issues
  end.

(** The recipe is kept as a value: a field of the result is the value its
    schema returns, or nothing when an optional field is absent. *)
Definition Field := list PathSegment -> option Json -> ZodResult (option Json).

Definition required {T} (check : list PathSegment -> option Json -> ZodResult T)
  (value : T -> Json) : Field :=
  fun p v => z_map (fun x => Some (value x)) (check p v).

Definition optional {T} (check : list PathSegment -> option Json -> ZodResult T)
  (value : T -> Json) : Field :=
  fun p v => z_map (option_map value) (z_optional check p v).

(** [.nullish()]: [null] is accepted as well, and stays [null]. *)
Definition nullish {T} (check : list PathSegment -> option Json -> ZodResult T)
  (value : T -> Json) : Field :=
  fun p v =>
    match v with
    | Some JNull => ZodOk (Some JNull)
    | _ => optional check value p v
    end.

Fixpoint z_fields (p : list PathSegment) (ms : list (jsstring * Json))
  (fields : list (string * Field)) : ZodResult (list (jsstring * Json)) :=
  match fields with
  | [] => ZodOk []
  | (k, check) :: rest =>
      z_both (fun x xs => match x with
                          | Some value => (js k, value) :: xs
                          | None => xs
                          end)
        (check (p ++ [Key (js k)]) (lookup (js k) ms)) (z_fields p ms rest)
  end.

(** [z.object({...})] with the fields given. *)
Definition z_record (fields : list (string * Field)) (p : list PathSegment)
  (v : option Json) : ZodResult Json :=
  z_object (fun ms => z_map JObj (z_fields p ms fields)) p v.

Definition z_number (p : list PathSegment) (v : option Json) : ZodResult JsNumber :=
  match v with
  | Some (JNum n) => ZodOk n
  | Some _ => ZodError [issue p "Expected number"]
  | None => ZodError [issue p "Required"]
  end.

Definition a_string : Field := required z_string JStr.
Definition strings : Field :=
  required (z_array_of z_string) (fun l => JArr (map JStr l)).
Definition a_count : Field := required z_positive_int (fun n => JNum (num_of_Z n)).
Definition records (fields : list (string * Field)) : Field :=
  required (z_array_of (z_record fields)) JArr.

Definition recipeSchema : ZodSchema Recipe :=
  fun v =>
    z_record
      [("id", a_string); ("title", a_string); ("category", a_string);
       ("servings", a_count);
       ("difficulty", required z_difficulty JStr);
       ("prepTime", a_string); ("cookTime", a_string); ("totalTime", a_string);
       ("introduction", a_string);
       ("historicalContext", optional z_string JStr);
       ("tips", strings); ("equipment", strings);
       ("ingredients",
        records [("item", a_string); ("amount", a_string); ("unit", a_string);
                 ("category", nullish z_string JStr);
                 ("notes", nullish z_string JStr)]);
       ("instructions",
        records [("step", a_count); ("instruction", a_string);
                 ("timing", nullish z_string JStr);
                 ("temperature", nullish z_string JStr)]);
       ("nutrition",
        required
          (z_record [("calories", optional z_number JNum);
                     ("protein", optional z_string JStr);
                     ("carbohydrates", optional z_string JStr);
                     ("fat", optional z_string JStr);
                     ("fiber", optional z_string JStr);
                     ("sodium", optional z_string JStr)])
          (fun x => x))]%string
      [] (Some v).

(** ** Worlds for the examples *)

Definition exampleBrief : CreativeBrief :=
  mkBrief (js "Brioche") SingleRecipe None Traditional None.

(** The body of a request for the example brief. *)
Definition briefBody : Json :=
  JObj [(js "title", JStr (js "Brioche")); (js "scope", JStr (js "single_recipe"));
        (js "creativeFocus", JStr (js "traditional"))].

Definition respond (t : jsstring) : RemoteOutcome :=
  Resolved (mkResponse [mkCandidate (Some STOP)] t
              (Some (mkUsage (Some 10) (Some 20) (Some 30)))).

Definition planText : jsstring :=
  jsq "{'specialists':[{'name':'boulanger','responsibilities':['dough'],'priority':1}],'estimatedComplexity':'simple'}".

Definition pageText : jsstring :=
  jsq "{'specialist':'boulanger','section':'Dough','notes':'Knead well'}".

Definition recipeText : jsstring :=
  jsq "{'id':'r1','title':'Brioche','category':'bread','servings':8,'difficulty':'Intermediate','prepTime':'30 min','cookTime':'35 min','totalTime':'14 h','introduction':'A rich bread.','tips':['Chill the dough'],'equipment':['stand mixer'],'ingredients':[{'item':'flour','amount':'500','unit':'g','notes':null}],'instructions':[{'step':1,'instruction':'Knead the dough.'}],'nutrition':{'calories':320}}".


(** A service that answers every agent as the prompts ask. *)
Definition helpfulRemote (n : nat) (agent : jsstring) (req : ModelRequest)
  : RemoteOutcome :=
  if jseqb agent (js "sous_chef_planning") then respond planText
  else if jseqb agent (js "sous_chef_synthesis") then respond recipeText
  else respond pageText.

(** A world with the schemas of [src/types/validation.ts], a clock that
    advances by 10 ms from one reading to the next, and the service
    given. *)
Definition worldWith (service : nat -> jsstring -> ModelRequest -> RemoteOutcome)
  : World :=
  mkWorld (fun n => 1700000000000 + 10 * Z.of_nat n) service
    (mkAgentConfig [] (js "gemini-2.5-flash") None)
    (fun name => inr (js "You are a cook."))
    (fun template => mkParts [] template)
    (fun template _ => template)
    (fun _ => js "SyntaxError: Unexpected token")
    (js "k3v9x2a")
    creativeBriefSchema zod_flatten
    taskMapSchema onePagerSchema recipeSchema.

Definition helpfulWorld : World := worldWith helpfulRemote.

Definition tooManyRequests : RemoteOutcome :=
  Rejected (newError (js "[429 Too Many Requests] Resource has been exhausted")).

(** The specialist is always refused with a rate-limit error. *)
Definition busyWorld : World :=
  worldWith (fun n agent req =>
    if jseqb agent (js "boulanger") then tooManyRequests
    else helpfulRemote n agent req).


(** A listener that fails on every event. *)
Definition brokenListener : Listener :=
  fun e => Throws (newError (js "listener failed")) (body e).

(** A listener that takes every event and touches nothing. *)
Definition patientListener : Listener := fun e => Returns (body e).


(** A listener that returns from every event, after it has emptied the
    list of specialists of the task map it is shown. *)
Definition meddlingListener : Listener :=
  fun e =>
    match body e with
    | DataParsed agent dataType (DataTaskMap taskMap) valid =>
        Returns (DataParsed agent dataType
                   (DataTaskMap (mkTaskMap [] (estimatedComplexity taskMap))) valid)
    | event => Returns event
    end.

(** ** Reasoning about runs *)

(** The listener, if there is one, returns from every event and leaves
    the objects of the event as they are. *)
Definition quiet (debugEmitter : option Listener) : Prop :=
  match debugEmitter with
  | Some listener => forall e, listener e = Returns (body e)
  | None => True
  end.

(** The log that one of the two final events refers to. *)
Definition final_log (event : EventBody) : option ExecutionLog :=
  match event with
  | RecipeComplete _ l | RecipeError _ l => Some l
  | _ => None
  end.

(** The events that report progress; the other two end the stream of a
    run. *)
Definition progress (event : EventBody) : Prop :=
  match event with
  | RecipeComplete _ _ | RecipeError _ _ => False
  | _ => True
  end.

(** An [Error] object that carries no log yet. *)
Definition fresh (t : Thrown) : Prop := exists e, t = ThrownError e None.

(** [s'] has the log and the banners of [s]. *)
Definition same (s s' : St) : Prop := log s' = log s /\ banners s' = banners s.

(** A computation started where [P] holds ends in [Q] when it returns, in
    [E] when it throws and in [N] when it never settles. *)
Definition triple {A} (P : St -> Prop) (m : M A) (Q : A -> St -> Prop)
  (E : Thrown -> St -> Prop) (N : St -> Prop) : Prop :=
  forall s, P s ->
    match m s with
    | (Ok a, s') => Q a s'
    | (Throw t, s') => E t s'
    | (Pending, s') => N s'
    end.

(** [m] returns a value in [R] and leaves the log and the banners. *)
Definition silent {A} (R : A -> Prop) (m : M A) : Prop :=
  forall s, triple (eq s) m (fun a s' => R a /\ same s s')
              (fun _ _ => False) (fun _ => False).

(** [m] leaves the log and the banners; it returns a value in [R], throws
    a fresh error, or never settles, and then [H] holds. *)
Definition tame {A} (R : A -> Prop) (H : Prop) (m : M A) : Prop :=
  forall s, triple (eq s) m (fun a s' => R a /\ same s s')
              (fun t s' => fresh t /\ same s s') (fun s' => H /\ same s s').

(** [m] leaves the log and the banners and does not throw. *)
Definition settles {A} (R : A -> Prop) (H : Prop) (m : M A) : Prop :=
  forall s, triple (eq s) m (fun a s' => R a /\ same s s')
              (fun _ _ => False) (fun s' => H /\ same s s').

(** Some call of [callGemini] for [agent] returns, or never settles. *)
Definition responds (w : World) (agent : jsstring) : Prop :=
  exists prompt options s g s',
    callGemini w agent prompt options s = (Ok g, s').

Definition can_hang (w : World) (agent : jsstring) : Prop :=
  exists prompt options s s',
    callGemini w agent prompt options s = (Pending, s').

(** A predicate that only looks at the log and the banners. *)
Definition stable (P : St -> Prop) : Prop :=
  forall s s', same s s' -> P s -> P s'.

Definition any {A} : A -> Prop := fun _ => True.

(** *** The steps a run logs *)

Definition planning_step (p : ExecutionStep) : Prop :=
  step_agent p = js "sous_chef" /\ step_action p = js "planning" /\
  step_success p = true /\ step_error p = None.

Definition synthesis_step (p : ExecutionStep) : Prop :=
  step_agent p = js "sous_chef" /\ step_action p = js "synthesis" /\
  step_success p = true /\ step_error p = None.

(** The step of the [catch] clause of [generateRecipe], for the message of
    the error caught. *)
Definition error_step (message : jsstring) (p : ExecutionStep) : Prop :=
  step_agent p = js "orchestrator" /\ step_action p = js "error" /\
  step_success p = false /\ step_error p = Some message /\ step_durationMs p = 0.

(** The step of a specialist: a success, after a call of the model that
    returned, or a failure with its message. *)
Definition specialist_step (w : World) (spec : SpecialistAssignment)
  (p : ExecutionStep) : Prop :=
  step_agent p = spec_name spec /\
  step_action p = js "specialist_contribution" /\
  (step_success p = true /\ step_error p = None /\ responds w (spec_name spec) \/
   step_success p = false /\ exists message, step_error p = Some message).

(** What the task of a specialist returns: a one-pager with a successful
    step, or none with a failed step. *)
Definition task_post (w : World) (spec : SpecialistAssignment)
  (r : option SpecialistOnePager * ExecutionStep) : Prop :=
  specialist_step w spec (snd r) /\
  step_success (snd r) = match fst r with Some _ => true | None => false end.

Definition fulfilled (w : World) (spec : SpecialistAssignment)
  (r : Settled (option SpecialistOnePager * ExecutionStep)) : Prop :=
  exists a, r = Fulfilled a /\ task_post w spec a.

Definition settled_or_not (w : World) (spec : SpecialistAssignment)
  (r : Settled (option SpecialistOnePager * ExecutionStep)) : Prop :=
  r = Unsettled /\ can_hang w (spec_name spec) \/ fulfilled w spec r.

(** The call of some specialist of the list can fail to settle. *)
Definition some_can_hang (w : World) (specs : list SpecialistAssignment) : Prop :=
  exists spec, In spec specs /\ can_hang w (spec_name spec).

Definition add_steps (l : ExecutionLog) (new : list ExecutionStep) : ExecutionLog :=
  mkLog (steps l ++ new) (startTime l) (endTime l) (totalDurationMs l).

(** [endTime] and [totalDurationMs] are set. *)
Definition finalized (l : ExecutionLog) : Prop :=
  (exists t, endTime l = Some t) /\ (exists d, totalDurationMs l = Some d).

(** The error raised when no specialist succeeded. *)
Definition all_failed_error (taskMap : TaskMap) (t : Thrown) : Prop :=
  exists stamp,
    t = ThrownError
          (AppErr (mkAppError (js "AppError") all_failed_message true (Some 500)
                     (Some [(js "attemptedSpecialists",
                             JArr (map (fun s => JStr (spec_name s))
                                     (specialists taskMap)))])
                     stamp))
          None.

(** *** The course of a run *)

(** The identifiers and the state with which the [try] block starts. *)
Definition run_ids (w : World) (s : St) : RunIds :=
  mkIds (now w (S (ticks s)))
    (js "req_" ++ string_of_Z (now w (S (S (ticks s)))) ++ js "_" ++ random w).

Definition start_state (w : World) (s : St) : St :=
  st_tick (st_tick (set_log (mkLog [] (now w (ticks s)) None None) (st_tick s))).

Section Course.

Variable w : World.
Variable brief : CreativeBrief.
Variable debugEmitter : option Listener.
Variable s : St.

Let out := generateRecipe w brief debugEmitter s.

(** The run fails with the error [t] of a phase: the [catch] clause adds
    its step to the steps [prior] logged so far, finalizes the log, and
    throws [t] with the log attached. *)
Definition fails_with (t : Thrown) (prior : list ExecutionStep) (phases : list Phase)
  : Prop :=
  exists e err,
    t = ThrownError e None /\
    fst out = Throw (ThrownError e (Some (log (snd out)))) /\
    steps (log (snd out)) = prior ++ [err] /\
    error_step (message_of e) err /\
    finalized (log (snd out)) /\
    banners (snd out) = banners s ++ phases.

(** The run never settles, with the steps [prior] logged so far. *)
Definition hangs (prior : list ExecutionStep) (phases : list Phase) : Prop :=
  fst out = Pending /\
  steps (log (snd out)) = prior /\
  endTime (log (snd out)) = None /\ totalDurationMs (log (snd out)) = None /\
  banners (snd out) = banners s ++ phases.

(** The seven courses a run can take. *)
Inductive Course : Prop :=
| PlanningHangs s1
    (Hplan : planning w debugEmitter brief (run_ids w s) (start_state w s) = (Pending, s1))
    (Hout : hangs [] [PlanningPhase])
| PlanningFails t s1
    (Hplan : planning w debugEmitter brief (run_ids w s) (start_state w s) = (Throw t, s1))
    (Hout : fails_with t [] [PlanningPhase])
| SpecialistsHang taskMap d s1 p
    (Hplan : planning w debugEmitter brief (run_ids w s) (start_state w s)
             = (Ok (taskMap, d), s1))
    (Hp : planning_step p)
    (Hhang : some_can_hang w (specialists taskMap))
    (Hout : hangs [p] [PlanningPhase; SpecialistsPhase])
| AllSpecialistsFail taskMap d s1 p spec_steps t
    (Hplan : planning w debugEmitter brief (run_ids w s) (start_state w s)
             = (Ok (taskMap, d), s1))
    (Hp : planning_step p)
    (Hsteps : Forall2 (specialist_step w) (specialists taskMap) spec_steps)
    (Hnone : existsb step_success spec_steps = false)
    (Hall : all_failed_error taskMap t)
    (Hout : fails_with t (p :: spec_steps) [PlanningPhase; SpecialistsPhase])
| SynthesisHangs taskMap d s1 p spec_steps
    (Hplan : planning w debugEmitter brief (run_ids w s) (start_state w s)
             = (Ok (taskMap, d), s1))
    (Hp : planning_step p)
    (Hsteps : Forall2 (specialist_step w) (specialists taskMap) spec_steps)
    (Hsome : existsb step_success spec_steps = true)
    (Hout : hangs (p :: spec_steps) [PlanningPhase; SpecialistsPhase; SynthesisPhase])
| SynthesisFails taskMap d s1 p spec_steps t
    (Hplan : planning w debugEmitter brief (run_ids w s) (start_state w s)
             = (Ok (taskMap, d), s1))
    (Hp : planning_step p)
    (Hsteps : Forall2 (specialist_step w) (specialists taskMap) spec_steps)
    (Hsome : existsb step_success spec_steps = true)
    (Hout : fails_with t (p :: spec_steps)
              [PlanningPhase; SpecialistsPhase; SynthesisPhase])
| Completes taskMap d s1 p spec_steps y result
    (Hplan : planning w debugEmitter brief (run_ids w s) (start_state w s)
             = (Ok (taskMap, d), s1))
    (Hp : planning_step p)
    (Hsteps : Forall2 (specialist_step w) (specialists taskMap) spec_steps)
    (Hsome : existsb step_success spec_steps = true)
    (Hy : synthesis_step y)
    (Hres : fst out = Ok result)
    (Hlog : result_log result = log (snd out))
    (Hall : steps (log (snd out)) = p :: spec_steps ++ [y])
    (Hfin : finalized (log (snd out)))
    (Hban : banners (snd out) =
            banners s ++ [PlanningPhase; SpecialistsPhase; SynthesisPhase]).

End Course.

(** Every request made for [agent] is rejected with a retryable error. *)
Definition always_refused (w : World) (agent : jsstring) : Prop :=
  forall n req, exists t,
    remote w n agent req = Rejected t /\ isRetryableError t = true.

(** ** What a run does for each specialist *)

(** The request that the task of [spec] sends, given its template (lines
    121 to 143). *)
Definition specialist_request (w : World) (brief : CreativeBrief)
  (spec : SpecialistAssignment) (template : jsstring) : ModelRequest :=
  let parts := extractSystemInstruction w template in
  build_request w (spec_name spec)
    (renderPrompt w (taskPrompt parts)
       (mkVars brief (Some (responsibilities spec)) None))
    (json_mode (systemInstruction parts)).


(** The message of the [LLMError] with which a call for [agent] gives up
    on [error]. *)
Definition llm_message (agent : jsstring) (error : Thrown) : jsstring :=
  js "LLM agent '" ++ agent ++ js "' failed: " ++ describe error.

(** What the run did for one assignment: the requests it sent and the
    delays it awaited for it, the one-pager it obtained and the step it
    logged. *)
Record Invocation := mkInvocation {
  inv_requests : list (jsstring * ModelRequest);
  inv_delays : list Z;
  inv_onePager : option SpecialistOnePager;
  inv_step : ExecutionStep
}.

Definition failed_step (p : ExecutionStep) (message : jsstring) : Prop :=
  step_success p = false /\ step_error p = Some message /\ step_tokenUsage p = None.

(** The invocation of [spec] by a task that settled, when [sent] requests
    had been sent before it.  Without a prompt no request is made.  With
    one, the task calls the model once: [n] requests, of which all but the
    last failed with a retryable error; the last one decides.  The step is
    a success exactly when the last request was answered with a normal
    response from which the one-pager could be extracted. *)
Definition invoked (w : World) (brief : CreativeBrief) (sent : nat)
  (spec : SpecialistAssignment) (inv : Invocation) : Prop :=
  let name := spec_name spec in
  let p := inv_step inv in
  step_agent p = name /\ step_action p = js "specialist_contribution" /\
  match loadPrompt w name with
  | inl e =>
      inv_requests inv = [] /\ inv_delays inv = [] /\ inv_onePager inv = None /\
      failed_step p (message_of e)
  | inr template =>
      let request := specialist_request w brief spec template in
      let outcome j := remote w (sent + (j - 1)) name request in
      exists n,
        (1 <= n <= 3)%nat /\
        inv_requests inv = repeat (name, request) n /\
        inv_delays inv = map backoff (attempts_from 1 (n - 1)) /\
        (forall j, (1 <= j < n)%nat ->
           exists error, caught (outcome j) = Some error /\
                         isRetryableError error = true) /\
        let gave_up error :=
          (isRetryableError error = false \/ n = 3%nat) /\
          inv_onePager inv = None /\ failed_step p (llm_message name error) in
        match outcome n with
        | Resolved r =>
            match response_error r with
            | Some error => gave_up error
            | None =>
                match extractJSON (response_text r)
                        (WithSchema (SpecialistOnePagerSchema w)) with
                | inr onePager =>
                    inv_onePager inv = Some onePager /\
                    step_success p = true /\ step_error p = None /\
                    step_tokenUsage p = Some (token_usage_of r)
                | inl e =>
                    inv_onePager inv = None /\ failed_step p (extract_message w e)
                end
            end
        | Rejected error => gave_up error
        | NeverSettles => False
        end
  end.

(** The invocations of a list of assignments, one after the other. *)
Inductive invocations (w : World) (brief : CreativeBrief)
  : nat -> list SpecialistAssignment -> list Invocation -> Prop :=
| invocations_nil sent : invocations w brief sent [] []
| invocations_cons sent spec specs inv invs :
    invoked w brief sent spec inv ->
    invocations w brief (sent + List.length (inv_requests inv)) specs invs ->
    invocations w brief sent (spec :: specs) (inv :: invs).

(** The one-pagers obtained, in the order of the assignments. *)
Definition pagers (invs : list Invocation) : list SpecialistOnePager :=
  flat_map (fun inv => match inv_onePager inv with
                       | Some p => [p]
                       | None => []
                       end) invs.

(** A request for [spec], made when [sent] requests had been sent, is never
    answered. *)
Definition unanswered (w : World) (brief : CreativeBrief) (sent : nat)
  (spec : SpecialistAssignment) : Prop :=
  exists template n,
    loadPrompt w (spec_name spec) = inr template /\
    remote w (sent + (n - 1)) (spec_name spec)
      (specialist_request w brief spec template) = NeverSettles.

(** What the task of a specialist comes to, started after [sent]
    requests. *)
Definition task_outcome (w : World) (brief : CreativeBrief)
  (spec : SpecialistAssignment) (s : St)
  (out : Res (option SpecialistOnePager * ExecutionStep) * St) : Prop :=
  log (snd out) = log s /\ banners (snd out) = banners s /\
  match fst out with
  | Ok (onePager, p) =>
      exists inv, inv_onePager inv = onePager /\ inv_step inv = p /\
        invoked w brief (List.length (requests s)) spec inv /\
        requests (snd out) = requests s ++ inv_requests inv /\
        slept (snd out) = slept s ++ inv_delays inv
  | Throw _ => False
  | Pending => unanswered w brief (List.length (requests s)) spec
  end.

(** Some request for one of the specialists, made after [sent] requests or
    more, is never answered. *)
Definition some_unanswered (w : World) (brief : CreativeBrief) (sent : nat)
  (specs : list SpecialistAssignment) : Prop :=
  exists spec later, In spec specs /\ unanswered w brief (sent + later) spec.

(** ** What a caller can tell of a run, time stamps and durations aside *)

Record StepView := mkStepView {
  sv_agent : jsstring;
  sv_action : jsstring;
  sv_success : bool;
  sv_error : option jsstring;
  sv_tokenUsage : option TokenUsage
}.

Definition step_view (p : ExecutionStep) : StepView :=
  mkStepView (step_agent p) (step_action p) (step_success p) (step_error p)
    (step_tokenUsage p).

Definition is_set {A} (o : option A) : bool :=
  match o with Some _ => true | None => false end.

Record LogView := mkLogView {
  lv_steps : list StepView;
  lv_ended : bool;
  lv_total : bool
}.

Definition log_view (l : ExecutionLog) : LogView :=
  mkLogView (map step_view (steps l)) (is_set (endTime l)) (is_set (totalDurationMs l)).

(** The context of an error, the duration of the failed call aside. *)
Definition context_view (ctx : list (jsstring * Json)) : list (jsstring * Json) :=
  map (fun kv => if jseqb (fst kv) (js "duration") then (fst kv, JNull) else kv) ctx.

Inductive ErrorView :=
| PlainView (message : jsstring)
| AppView (name message : jsstring) (operational : bool) (code : option Z)
    (ctx : option (list (jsstring * Json))).

Definition error_view (e : ErrorObject) : ErrorView :=
  match e with
  | PlainError m => PlainView m
  | AppErr a =>
      AppView (err_name a) (err_message a) (isOperational a) (httpCode a)
        (option_map context_view (context a))
  end.

Inductive ThrownView :=
| ErrorSeen (e : ErrorView) (attached : option LogView)
| ValueSeen (text : jsstring).

Definition thrown_view (t : Thrown) : ThrownView :=
  match t with
  | ThrownError e l => ErrorSeen (error_view e) (option_map log_view l)
  | ThrownValue v => ValueSeen v
  end.



(** Two states that differ in the clock and in the events delivered, and
    in the time stamps and durations of the log, at most. *)
Definition sim (s1 s2 : St) : Prop :=
  requests s1 = requests s2 /\ slept s1 = slept s2 /\
  banners s1 = banners s2 /\ log_view (log s1) = log_view (log s2).

(** Two computations that, started in such states, end alike in such
    states, with results related by [R]. *)
Definition rel {A} (R : A -> A -> Prop) (m1 m2 : M A) : Prop :=
  forall s1 s2, sim s1 s2 ->
    match m1 s1, m2 s2 with
    | (Ok a1, s1'), (Ok a2, s2') => R a1 a2 /\ sim s1' s2'
    | (Throw t1, s1'), (Throw t2, s2') => thrown_view t1 = thrown_view t2 /\ sim s1' s2'
    | (Pending, s1'), (Pending, s2') => sim s1' s2'
    | _, _ => False
    end.

Definition whatever {A} : A -> A -> Prop := fun _ _ => True.


(** The results of two tasks of a specialist: the same one-pager, and
    steps that differ in time at most. *)
Definition alike_task (a1 a2 : option SpecialistOnePager * ExecutionStep) : Prop :=
  fst a1 = fst a2 /\ step_view (snd a1) = step_view (snd a2).

Definition alike_result (r1 r2 : RecipeResult) : Prop :=
  recipe r1 = recipe r2 /\ log_view (result_log r1) = log_view (result_log r2).

(** ** [src/prompts/prompt-loader.ts] *)

Module PromptLoader.

(** [template.match(/\n(?=MARKER)/)]: the index of the first line feed that
    the marker follows. *)
Fixpoint match_index (marker template : jsstring) : option nat :=
  match template with
  | [] => None
  | c :: rest =>
      if N.eqb c 10 && startsWith marker rest then Some 0%nat
      else option_map S (match_index marker rest)
  end.

(** The markers of [splitPatterns], in the order of the array. *)
Definition splitPatterns : list jsstring :=
  [js "RECIPE REQUEST:"; js "CREATIVE BRIEF:"; js "AVAILABLE SPECIALISTS:"].

(** The [for] loop of lines 62 to 70.  A match at index 0 fails the test
    [match && match.index], and the next pattern is tried. *)
Fixpoint split_at (patterns : list jsstring) (template : jsstring)
  : option PromptParts :=
  match patterns with
  | [] => None
  | marker :: rest =>
      match match_index marker template with
      | Some (S i) =>
          Some (mkParts (trim (firstn (S i) template)) (trim (skipn (S i) template)))
      | _ => split_at rest template
      end
  end.

Definition extractSystemInstruction (template : jsstring) : PromptParts :=
  match split_at splitPatterns template with
  | Some parts => parts
  | None => mkParts [] (trim template)
  end.

(** The value of a variable: a string, or any other value, given by what
    [JSON.stringify(value, null, 2)] returns for it ([None] is
    [undefined], which [replace] turns into text). *)
Inductive Value :=
| VString (s : jsstring)
| VOther (stringified : option jsstring).

Definition replacement_of (value : Value) : jsstring :=
  match value with
  | VString s => s
  | VOther (Some s) => s
  | VOther None => js "undefined"
  end.

Definition placeholder (key : jsstring) : jsstring := js "{{" ++ key ++ js "}}".

Definition is_digit (c : N) : bool := N.leb 48 c && N.leb c 57.

Definition is_word (c : N) : bool :=
  is_digit c || (N.leb 65 c && N.leb c 90) || N.eqb c 95 ||
  (N.leb 97 c && N.leb c 122).

(** [new RegExp(placeholder, 'g')] reads the placeholder as a pattern.
    For a key of letters, digits and underscores that is not a number,
    every character of [{{key}}] stands for itself (a brace that opens no
    quantifier is a literal), and the pattern matches the placeholder
    alone. *)
Definition literal_key (key : jsstring) : bool :=
  forallb is_word key && negb (forallb is_digit key).

(** The replacement text for one match of a pattern without groups:
    [$$] is a dollar sign, [$&] the match, [$`] the text before it and
    [$'] the text behind it; any other dollar sign stands for itself. *)
Fixpoint expand (before matched behind replacement : jsstring) : jsstring :=
  match replacement with
  | [] => []
  | c :: rest =>
      if N.eqb c 36 then
        match rest with
        | d :: rest' =>
            if N.eqb d 36 then 36%N :: expand before matched behind rest'
            else if N.eqb d 38 then matched ++ expand before matched behind rest'
            else if N.eqb d 96 then before ++ expand before matched behind rest'
            else if N.eqb d 39 then behind ++ expand before matched behind rest'
            else c :: expand before matched behind rest
        | [] => [c]
        end
      else c :: expand before matched behind rest
  end.

(** [str.replace(pattern, replacement)] for the global pattern of a literal
    [lit] that is not empty, from the position behind [before] (kept last
    unit first) on.  [fuel] bounds the steps; one more than the length of
    [s] is enough. *)
Fixpoint replace_from (fuel : nat) (lit replacement before s : jsstring) : jsstring :=
  match fuel with
  | O => s
  | S f =>
      if startsWith lit s then
        let behind := skipn (List.length lit) s in
        expand (rev before) lit behind replacement ++
        replace_from f lit replacement (rev lit ++ before) behind
      else
        match s with
        | [] => []
        | c :: s' => c :: replace_from f lit replacement (c :: before) s'
        end
  end.

Definition replace_all (lit replacement s : jsstring) : jsstring :=
  replace_from (S (List.length s)) lit replacement [] s.

(** [renderPrompt(template, variables)], the variables in the order of
    [Object.entries].  [None] stands for a key whose pattern is not a
    literal one. *)
Fixpoint renderPrompt (template : jsstring) (variables : list (jsstring * Value))
  : option jsstring :=
  match variables with
  | [] => Some template
  | (key, value) :: rest =>
      if literal_key key then
        renderPrompt (replace_all (placeholder key) (replacement_of value) template) rest
      else None
  end.

End PromptLoader.

(** ** Trimmed strings *)

(** A string that neither starts nor ends with white space. *)
Definition tight (s : jsstring) : Prop :=
  trimStart s = s /\ trimEnd s = s.


(** ** Texts and outcomes of the extractor *)

(** The text between the fences: no backtick, no comment mark and no comma
    before a closing bracket. *)
Definition plain_block (body : jsstring) : Prop :=
  ~ In 96%N body /\
  includes body (js "//") = false /\
  includes body (js "/*") = false /\
  has_trailing_comma body = false.

(** The extraction of [text] finds the value [parsed]: it is returned as
    it is without a schema, and judged by the schema otherwise. *)
Definition extracted_as (text : jsstring) (parsed : Json) : Prop :=
  extractJSON text NoSchema = inr parsed /\
  forall T (schema : ZodSchema T),
    extractJSON text (WithSchema schema) =
    match schema parsed with
    | ZodOk v => inr v
    | ZodError issues => inl (ValidationFailed issues)
    end.


(** The outermost value the parser is reading is an object. *)
Fixpoint bottom_object (stack : list Frame) : bool :=
  match stack with
  | [] => false
  | frame :: rest =>
      match rest with
      | [] => match frame with InObject _ _ => true | InArray _ => false end
      | _ :: _ => bottom_object rest
      end
  end.

(** The states of the parser on a text that starts with an opening brace:
    inside the outermost object, or behind it. *)
Definition objectish (m : Machine) : Prop :=
  match m with
  | (_, MError) => True
  | ([], MObjectStart) | ([], MKey _) | ([], MKeyString _ _ _) | ([], MColon _ _) => True
  | ([], MAfter (JObj _)) => True
  | (stack, _) => bottom_object stack = true
  end.

(** ** What a run spends, emits and throws *)

Definition total (delays : list Z) : Z := fold_right Z.add 0 delays.

(** From [s] to [s'] requests and delays were added, and no more than
    three requests and 3000 ms of delay for each of [calls] calls of
    [callGemini]. *)
Definition within (calls : nat) (s s' : St) : Prop :=
  exists reqs delays,
    requests s' = requests s ++ reqs /\ slept s' = slept s ++ delays /\
    (List.length reqs <= 3 * calls)%nat /\ total delays <= 3000 * Z.of_nat calls.

(** From [s] to [s'] events were delivered that report progress and carry
    the identifier of the run. *)
Definition heard (ids : RunIds) (s s' : St) : Prop :=
  exists events,
    delivered s' = delivered s ++ events /\
    Forall (fun e => progress (body e) /\ requestId e = runRequestId ids) events.


(** A computation that changes the state within [G], graded by the calls
    of the model, and throws within [C]. *)
Definition obeys (G : nat -> St -> St -> Prop) (C : Thrown -> Prop) {A}
  (calls : nat) (m : M A) : Prop :=
  forall s, G calls s (snd (m s)) /\ forall t, fst (m s) = Throw t -> C t.

(** Whatever it returns, [m] adds events of progress only. *)
Definition chats (ids : RunIds) {A} (m : M A) : Prop :=
  forall s, heard ids s (snd (m s)).

(** The stream of a run that returned [result], from [s0] on: events of
    progress, and [recipe:complete] with the result as the last event. *)
Definition stream_completed (ids : RunIds) (s0 : St) (result : RecipeResult) (s' : St)
  : Prop :=
  exists before last,
    delivered s' = delivered s0 ++ before ++ [last] /\
    Forall (fun e => progress (body e) /\ requestId e = runRequestId ids) before /\
    body last = RecipeComplete (recipe result) (result_log result) /\
    requestId last = runRequestId ids.

(** The stream of a run that threw [t]: events of progress, and
    [recipe:error] with the message of [t] and the log as the last event. *)
Definition stream_failed (ids : RunIds) (s0 : St) (t : Thrown) (s' : St) : Prop :=
  exists before last,
    delivered s' = delivered s0 ++ before ++ [last] /\
    Forall (fun e => progress (body e) /\ requestId e = runRequestId ids) before /\
    body last = RecipeError (describe t) (log s') /\
    requestId last = runRequestId ids.

(** ** More worlds for the examples *)

Definition emptyPlanText : jsstring :=
  jsq "{'specialists':[],'estimatedComplexity':'simple'}".

(** The planner names no specialist. *)
Definition idleWorld : World := worldWith (fun _ _ _ => respond emptyPlanText).

(** The service answers as in [helpfulWorld], and 100 seconds pass from
    one reading of the clock to the next. *)
Definition slowWorld : World :=
  mkWorld (fun n => 1700000000000 + 100000 * Z.of_nat n) (remote helpfulWorld)
    (agentConfig helpfulWorld) (loadPrompt helpfulWorld)
    (extractSystemInstruction helpfulWorld) (renderPrompt helpfulWorld)
    (syntaxError helpfulWorld) (random helpfulWorld)
    (CreativeBriefSchema helpfulWorld) (flatten helpfulWorld)
    (TaskMapSchema helpfulWorld) (SpecialistOnePagerSchema helpfulWorld)
    (RecipeSchema helpfulWorld).

Definition promptNotFound : ErrorObject :=
  AppErr (mkAppError (js "ConfigurationError") (js "Prompt file not found: boulanger.txt")
            false (Some 500) None 0).

(** The prompt of the specialist is missing. *)
Definition promptlessWorld : World :=
  mkWorld (now helpfulWorld) (remote helpfulWorld) (agentConfig helpfulWorld)
    (fun name => if jseqb name (js "boulanger") then inl promptNotFound
                 else inr (js "You are a cook."))
    (extractSystemInstruction helpfulWorld) (renderPrompt helpfulWorld)
    (syntaxError helpfulWorld) (random helpfulWorld)
    (CreativeBriefSchema helpfulWorld) (flatten helpfulWorld)
    (TaskMapSchema helpfulWorld) (SpecialistOnePagerSchema helpfulWorld)
    (RecipeSchema helpfulWorld).

(** * Properties *)

(** ** Strings *)

Lemma startsWith_app p s : startsWith p (p ++ s) = true.
Proof.
  induction p as [|c p IH]; cbn; [reflexivity|].
  now rewrite N.eqb_refl, IH.
Qed.

Lemma includes_here p s : startsWith p s = true -> includes s p = true.
Proof. intros H. destruct s; cbn in *; now rewrite H. Qed.

Lemma includes_app_r pre s p : includes s p = true -> includes (pre ++ s) p = true.
Proof.
  intros H. induction pre as [|c pre IH]; [exact H|].
  cbn [app includes]. rewrite IH. apply orb_true_r.
Qed.

Lemma includes_middle pre p post : includes (pre ++ p ++ post) p = true.
Proof. apply includes_app_r, includes_here, startsWith_app. Qed.

(** ** The model invoker *)

Section GeminiFacts.

Variable w : World.
Variables (agent prompt : jsstring) (options : GeminiCallOptions).

Let request := build_request w agent prompt options.
Local Abbreviation outcome := (attempt_outcome w agent prompt options).
Local Abbreviation after := (after_attempt w agent prompt options).
Local Abbreviation spec := (call_spec w agent prompt options).
Local Abbreviation ends := (ends_as w agent prompt options).

(** One iteration of the loop of [callGemini]. *)
Lemma callGemini_from_S k attempt s :
  callGemini_from w (S k) attempt agent prompt options s =
  match remote w (List.length (requests s)) agent request with
  | Resolved r =>
      match response_error r with
      | None =>
          (Ok (mkGeminiResponse (response_text r) (token_usage_of r)), after s)
      | Some error => on_failure w agent prompt options k attempt s error
      end
  | Rejected error => on_failure w agent prompt options k attempt s error
  | NeverSettles => (Pending, st_request agent request (st_tick s))
  end.
Proof.
  cbn [callGemini_from]. unfold bind at 1. unfold clock at 1.
  unfold try_catch, bind at 1. unfold generateContent. cbn [requests st_tick].
  fold request. unfold on_failure.
  destruct (remote w (List.length (requests s)) agent request) as [r|t|].
  - unfold bind at 1. unfold validate_response.
    destruct (response_error r) as [e|]; [|reflexivity].
    unfold throw at 1. unfold bind at 1, clock at 1.
    destruct ((attempt <? maxRetries) && isRetryableError e); reflexivity.
  - unfold bind at 1, clock at 1.
    destruct ((attempt <? maxRetries) && isRetryableError t); reflexivity.
  - reflexivity.
Qed.

Lemma gives_up_LLMError s error :
  is_LLMError agent (describe error) (gives_up w agent s error).
Proof. unfold is_LLMError, gives_up. eexists _, _. reflexivity. Qed.

Lemma single_attempt k attempt s res s' :
  requests s' = requests s ++ [(agent, request)] ->
  slept s' = slept s ->
  banners s' = banners s -> delivered s' = delivered s -> log s' = log s ->
  ends s attempt 1 res ->
  spec k attempt s (res, s').
Proof.
  intros Hr Hs Hb Hd Hl He. exists 1%nat. cbn [fst snd].
  split; [lia|]. split; [exact Hr|]. split; [cbn; now rewrite app_nil_r|].
  split; [intros j Hj; lia | auto].
Qed.

Lemma first_outcome s :
  outcome s 1%nat = remote w (List.length (requests s)) agent request.
Proof. unfold attempt_outcome. f_equal. lia. Qed.

Lemma later_outcome s d j :
  (1 <= j)%nat ->
  outcome (st_sleep d (after s)) j = outcome s (S j).
Proof.
  intros Hj. unfold attempt_outcome.
  cbn [requests st_sleep after_attempt st_tick st_request].
  rewrite length_app. cbn [List.length]. f_equal. lia.
Qed.

Lemma ends_later s d attempt n res :
  (1 <= n)%nat ->
  ends (st_sleep d (after s)) (attempt + 1) n res ->
  ends s attempt (S n) res.
Proof.
  intros Hn. unfold ends_as. rewrite later_outcome by exact Hn.
  destruct res as [g|t|]; auto.
  intros (error & Hc & Hor & Hllm). exists error. repeat split; auto.
  destruct Hor; [now left | right; lia].
Qed.

Lemma retry_step k attempt s error out :
  caught (outcome s 1%nat) = Some error ->
  isRetryableError error = true ->
  spec k (attempt + 1) (st_sleep (backoff attempt) (after s)) out ->
  spec (S k) attempt s out.
Proof.
  intros Hc Hr (n & Hn & Hreq & Hsl & Hprev & Hend & Hb & Hd & Hl).
  exists (S n). split; [lia|].
  split.
  { rewrite Hreq. cbn [requests st_sleep after_attempt st_tick st_request repeat].
    now rewrite <- app_assoc. }
  split.
  { rewrite Hsl. cbn [slept st_sleep after_attempt st_tick st_request].
    rewrite <- app_assoc. f_equal.
    replace (S n - 1)%nat with (S (n - 1)) by lia.
    unfold attempts_from. cbn [seq map]. rewrite Z.add_0_r. cbn [app]. f_equal.
    rewrite <- seq_shift, !map_map. apply map_ext.
    intros i. f_equal. lia. }
  split.
  { intros j Hj. destruct (Nat.eq_dec j 1) as [->|Hne].
    - exists error. auto.
    - destruct j as [|j]; [lia|].
      rewrite <- (later_outcome s (backoff attempt)) by lia. apply Hprev. lia. }
  split; [apply (ends_later s (backoff attempt)); [lia | exact Hend]|].
  rewrite Hb, Hd, Hl. auto.
Qed.

(** The loop, by induction on the iterations left. *)
Lemma callGemini_from_spec k :
  forall attempt s, 1 <= attempt -> attempt + Z.of_nat k = maxRetries ->
  spec k attempt s (callGemini_from w (S k) attempt agent prompt options s).
Proof.
  induction k as [|k IH]; intros attempt s Ha Hk; rewrite callGemini_from_S;
    pose proof (first_outcome s) as Hout.
  - assert (Hlt : (attempt <? maxRetries) = false) by (apply Z.ltb_ge; lia).
    destruct (remote w (List.length (requests s)) agent request) as [r|t|] eqn:Hrem.
    + destruct (response_error r) as [e|] eqn:He.
      * unfold on_failure. rewrite Hlt. cbn [andb].
        apply single_attempt; [reflexivity..|].
        exists e. rewrite Hout. cbn [caught]. split; [exact He|].
        split; [right; lia | apply gives_up_LLMError].
      * apply single_attempt; [reflexivity..|]. exists r. rewrite Hout. auto.
    + unfold on_failure. rewrite Hlt. cbn [andb].
      apply single_attempt; [reflexivity..|].
      exists t. rewrite Hout. cbn [caught]. split; [reflexivity|].
      split; [right; lia | apply gives_up_LLMError].
    + apply single_attempt; [reflexivity..|]. exact Hout.
  - assert (Hlt : (attempt <? maxRetries) = true) by (apply Z.ltb_lt; lia).
    assert (Hfail : forall error,
               caught (outcome s 1%nat) = Some error ->
               spec (S k) attempt s (on_failure w agent prompt options (S k) attempt s error)).
    { intros error Hc. unfold on_failure. rewrite Hlt. cbn [andb].
      destruct (isRetryableError error) eqn:Hre.
      - apply (@retry_step k attempt s error); auto.
        apply IH; lia.
      - apply single_attempt; [reflexivity..|].
        exists error. split; [exact Hc|]. split; [now left | apply gives_up_LLMError]. }
    destruct (remote w (List.length (requests s)) agent request) as [r|t|] eqn:Hrem.
    + destruct (response_error r) as [e|] eqn:He.
      * apply Hfail. rewrite Hout. exact He.
      * apply single_attempt; [reflexivity..|]. exists r. rewrite Hout. auto.
    + apply Hfail. rewrite Hout. reflexivity.
    + apply single_attempt; [reflexivity..|]. exact Hout.
Qed.

Lemma callGemini_spec s :
  spec 2%nat 1 s (callGemini w agent prompt options s).
Proof. apply (callGemini_from_spec 2); [lia | reflexivity]. Qed.

End GeminiFacts.

Lemma attempts_made_repeat (s s' : St) (x : jsstring * ModelRequest) (n : nat) :
  requests s' = requests s ++ repeat x n -> attempts_made s s' = n.
Proof.
  intros H. unfold attempts_made. rewrite H, length_app, repeat_length. lia.
Qed.

Lemma backoff_delays (n : nat) :
  (1 <= n <= 3)%nat ->
  map backoff (attempts_from 1 (n - 1)) = firstn (n - 1) [1000; 2000].
Proof.
  intros Hn.
  assert (Hc : n = 1%nat \/ n = 2%nat \/ n = 3%nat) by lia.
  destruct Hc as [->|[->| ->]]; reflexivity.
Qed.

Lemma isRetryableError_markers (error : Thrown) :
  isRetryableError error = true <->
  exists e l marker,
    error = ThrownError e l /\ In marker retryMarkers /\
    includes (toLowerCase (message_of e)) marker = true.
Proof.
  split.
  - destruct error as [e l|v]; cbn [isRetryableError]; [|discriminate].
    intros H. exists e, l.
    repeat (apply orb_true_iff in H; destruct H as [H|H]);
      (eexists; split; [reflexivity|]; split; [|exact H]);
      unfold retryMarkers; cbn [In]; tauto.
  - intros (e & l & marker & -> & Hin & Hinc). cbn [isRetryableError].
    unfold retryMarkers in Hin. cbn [In] in Hin.
    repeat (destruct Hin as [<-|Hin]; [rewrite Hinc; repeat rewrite orb_true_r; reflexivity|]).
    contradiction.
Qed.

(** C2.  [callGemini] makes between one and three attempts.  Every attempt
    but the last failed with a retryable error (an [Error] whose message,
    in lower case, contains one of the seven markers) and was followed by a
    delay of [baseDelay * 2^(attempt-1)]: 1000 ms, then 2000 ms.  The last
    attempt decides: its response is returned, or its failure, which is not
    retryable or is the third one, is raised as an [LLMError] that names
    the agent, with no delay after it. *)
Theorem callGemini_retry_policy
  (w : World) (agent prompt : jsstring) (options : GeminiCallOptions) (s : St) :
  let out := callGemini w agent prompt options s in
  let outcome := attempt_outcome w agent prompt options s in
  exists n : nat,
    (1 <= n <= 3)%nat /\
    attempts_made s (snd out) = n /\
    (forall j, (1 <= j < n)%nat ->
       exists error, caught (outcome j) = Some error /\ isRetryableError error = true) /\
    slept (snd out) = slept s ++ map backoff (attempts_from 1 (n - 1)) /\
    map backoff (attempts_from 1 (n - 1)) = firstn (n - 1) [1000; 2000] /\
    match fst out with
    | Ok g =>
        exists r, outcome n = Resolved r /\ response_error r = None /\
                  g = mkGeminiResponse (response_text r) (token_usage_of r)
    | Throw t =>
        exists error, caught (outcome n) = Some error /\
                      (isRetryableError error = false \/ n = 3%nat) /\
                      is_LLMError agent (describe error) t
    | Pending => outcome n = NeverSettles
    end /\
    (forall error,
       isRetryableError error = true <->
       exists e l marker,
         error = ThrownError e l /\ In marker retryMarkers /\
         includes (toLowerCase (message_of e)) marker = true).
Proof.
  intros out outcome.
  destruct (callGemini_spec w agent prompt options s)
    as (n & Hn & Hreq & Hsl & Hprev & Hend & _).
  fold out in Hreq, Hsl, Hend. exists n.
  split; [exact Hn|].
  split; [eapply attempts_made_repeat; exact Hreq|].
  split; [exact Hprev|].
  split; [exact Hsl|].
  split; [apply backoff_delays; exact Hn|].
  split; [|exact isRetryableError_markers].
  unfold ends_as in Hend. fold outcome in Hend.
  destruct (fst out) as [g|t|]; auto.
  destruct Hend as (error & Hc & Hor & Hllm). exists error.
  repeat split; auto. unfold maxRetries in Hor. destruct Hor; [now left | right; lia].
Qed.

(** *** The finish reason *)

Lemma jseqb_eq a : forall b, jseqb a b = true <-> a = b.
Proof.
  induction a as [|x a IH]; intros [|y b]; cbn; split; try discriminate; auto.
  - intros H. apply andb_true_iff in H. destruct H as [H1 H2].
    apply N.eqb_eq in H1. apply IH in H2. congruence.
  - intros [= -> ->]. rewrite N.eqb_refl. now apply IH.
Qed.

(** A pattern that does not hold the unit [h] matches in front of [h] only
    what it matches without it. *)
Lemma startsWith_stop h post m : ~ In h m ->
  forall y, startsWith m (y ++ h :: post) = startsWith m y.
Proof.
  induction m as [|a m IH]; intros Hin y; [reflexivity|].
  assert (Ha : N.eqb a h = false) by (apply N.eqb_neq; intros ->; apply Hin; now left).
  assert (Hm : ~ In h m) by (intros H; apply Hin; now right).
  destruct y as [|b y]; cbn [app startsWith]; [now rewrite Ha|].
  now rewrite (IH Hm).
Qed.

Lemma includes_stop h post m : ~ In h m ->
  includes (h :: post) m = false ->
  forall x, includes (x ++ h :: post) m = includes x m.
Proof.
  intros Hin Hpost x. induction x as [|c x IH].
  - cbn [app]. rewrite Hpost. pose proof (@startsWith_stop h post m Hin []) as H.
    cbn [app] in H. cbn [includes]. rewrite <- H.
    cbn [includes] in Hpost. apply orb_false_iff in Hpost. rewrite (proj1 Hpost).
    reflexivity.
  - cbn [app includes]. rewrite IH.
    change (c :: x ++ h :: post) with ((c :: x) ++ h :: post).
    now rewrite (@startsWith_stop h post m Hin).
Qed.

(** The text around the reason neither holds a marker nor completes one. *)
Lemma marker_in_message (reason marker : jsstring) :
  In marker retryMarkers ->
  includes (toLowerCase (stopped_message reason)) marker =
  includes (toLowerCase reason) marker.
Proof.
  intros Hin. unfold stopped_message, toLowerCase. rewrite !map_app.
  set (r := map lower_unit reason).
  assert (Hback : includes
                    (r ++ map lower_unit
                            (js ". This may indicate content policy violation or other issue."))
                    marker = includes r marker).
  { unfold retryMarkers in Hin. cbn [In] in Hin.
    repeat (destruct Hin as [<-|Hin];
            [apply includes_stop;
             [cbn; intros H; repeat (destruct H as [H|H]; [discriminate H|]); exact H
             | vm_compute; reflexivity]|]).
    contradiction. }
  unfold retryMarkers in Hin. cbn [In] in Hin.
  repeat (destruct Hin as [<-|Hin]; [cbn -[includes]; cbn [includes startsWith app N.eqb Pos.eqb andb orb] |]).
  all: try contradiction.
  all: exact Hback.
Qed.

Lemma stopped_retryable (reason : jsstring) :
  isRetryableError (newError (stopped_message reason)) = names_marker reason.
Proof.
  unfold isRetryableError, newError, names_marker, retryMarkers.
  cbn [message_of existsb].
  rewrite !marker_in_message by (unfold retryMarkers; cbn [In]; tauto).
  now rewrite orb_false_r, !orb_assoc.
Qed.

Lemma abnormal_error (r : GenerateContentResponse) :
  abnormal r ->
  exists error, response_error r = Some error /\
    (candidates r = [] ->
     error = newError (js "No response candidate returned") /\
     isRetryableError error = false) /\
    (forall c rest reason,
       candidates r = c :: rest -> finishReason c = Some reason ->
       error = newError (stopped_message reason) /\
       isRetryableError error = names_marker reason).
Proof.
  unfold abnormal, response_error.
  intros [Hnil | (c & rest & reason & Hc & Hf & Hne & Hstop)].
  - rewrite Hnil. eexists. split; [reflexivity|].
    split; [intros _; split; reflexivity | discriminate].
  - rewrite Hc, Hf. destruct reason as [|x reason]; [congruence|]. cbn [truthy].
    destruct (jseqb (x :: reason) STOP) eqn:E; [apply jseqb_eq in E; congruence|].
    eexists. split; [reflexivity|]. split; [discriminate|].
    intros c' rest' reason' [= <- <-] Hf'. rewrite Hf in Hf'. injection Hf' as <-.
    split; [reflexivity | apply stopped_retryable].
Qed.

(** C7, as stated, fails.  The reason is a string of the service, and the
    error that reports it is judged by its message: a reason that holds a
    marker of a retryable error, such as [DEADLINE_TIMEOUT], is retried.
    The call makes all three attempts, with both delays, before it throws. *)
Lemma marked_reason_is_retried :
  let reason := js "DEADLINE_TIMEOUT" in
  let r := mkResponse [mkCandidate (Some reason)] [] None in
  let w := worldWith (fun _ _ _ => Resolved r) in
  let out := callGemini w (js "boulanger") (js "Bake.") (json_mode []) initial in
  abnormal r /\
  isRetryableError (newError (stopped_message reason)) = true /\
  attempts_made initial (snd out) = 3%nat /\
  slept (snd out) = [1000; 2000] /\
  exists t, fst out = Throw t /\ is_LLMError (js "boulanger") (stopped_message reason) t.
Proof.
  cbv zeta. split.
  { right. eexists _, _, _. repeat split; try reflexivity; discriminate. }
  repeat split; try (vm_compute; reflexivity).
  eexists. split; [vm_compute; reflexivity|]. eexists _, _. vm_compute. reflexivity.
Qed.

(** C7, amended.  [callGemini] returns only the response of an attempt
    whose first candidate exists and states [STOP] or no reason (none, or
    the empty string).  A response without a candidate ends the call at
    once with an [LLMError].  A candidate that states another reason makes
    the attempt fail with an error whose message holds the reason, and this
    error is retryable exactly when the reason holds, in whatever case, one
    of the markers: when it holds none (as is the case of every member of
    the enumeration of the SDK), or at the third attempt, the call ends
    with an [LLMError] whose message holds the reason; otherwise another
    attempt follows. *)
Theorem abnormal_response_policy
  (w : World) (agent prompt : jsstring) (options : GeminiCallOptions) (s : St) :
  let out := callGemini w agent prompt options s in
  let outcome := attempt_outcome w agent prompt options s in
  let n := attempts_made s (snd out) in
  (forall g, fst out = Ok g ->
     exists r c rest,
       outcome n = Resolved r /\ candidates r = c :: rest /\
       (finishReason c = None \/ finishReason c = Some [] \/
        finishReason c = Some STOP) /\
       text g = response_text r) /\
  (forall j r, (1 <= j <= n)%nat -> outcome j = Resolved r -> candidates r = [] ->
     j = n /\
     exists t, fst out = Throw t /\
               is_LLMError agent (js "No response candidate returned") t) /\
  (forall j r c rest reason,
     (1 <= j <= n)%nat -> outcome j = Resolved r ->
     candidates r = c :: rest -> finishReason c = Some reason ->
     reason <> [] -> reason <> STOP ->
     response_error r = Some (newError (stopped_message reason)) /\
     isRetryableError (newError (stopped_message reason)) = names_marker reason /\
     (names_marker reason = false \/ j = 3%nat ->
      j = n /\
      exists t, fst out = Throw t /\
                is_LLMError agent (stopped_message reason) t /\
                includes (describe t) reason = true) /\
     (names_marker reason = true -> (j < 3)%nat -> (j < n)%nat)) /\
  Forall (fun reason => names_marker reason = false) finishReasons.
Proof.
  intros out outcome n.
  destruct (callGemini_spec w agent prompt options s)
    as (m & Hm & Hreq & _ & Hprev & Hend & _).
  fold out in Hreq, Hend.
  assert (Hn : n = m) by (eapply attempts_made_repeat; exact Hreq).
  unfold ends_as in Hend. fold outcome in Hend, Hprev. rewrite <- Hn in *.
  assert (Hlast : forall j r error,
             (1 <= j <= n)%nat -> outcome j = Resolved r ->
             response_error r = Some error ->
             isRetryableError error = false \/ j = 3%nat ->
             j = n /\ exists t, fst out = Throw t /\ is_LLMError agent (describe error) t).
  { intros j r error Hj Hout Herr Hgive.
    assert (Hjn : j = n).
    { destruct (Nat.eq_dec j n) as [|Hne]; [assumption|].
      destruct Hgive as [Hno|H3]; [|lia].
      destruct (Hprev j ltac:(lia)) as (e & Hc & Hre).
      rewrite Hout in Hc. cbn [caught] in Hc. congruence. }
    split; [exact Hjn|]. subst j. rewrite Hout in Hend. cbn [caught] in Hend.
    destruct (fst out) as [g|t|].
    - destruct Hend as (r' & Hr' & Hnone & _). congruence.
    - destruct Hend as (e & He & _ & Hllm).
      assert (e = error) by congruence. subst e. exists t. auto.
    - discriminate. }
  split; [|split; [|split]].
  - intros g Hg. rewrite Hg in Hend. destruct Hend as (r & Hout & Herr & ->).
    unfold response_error in Herr.
    destruct (candidates r) as [|c rest] eqn:Hc; [discriminate|].
    exists r, c, rest. repeat split; auto.
    destruct (finishReason c) as [[|x reason]|]; auto. cbn [truthy] in Herr.
    destruct (jseqb (x :: reason) STOP) eqn:E; [|discriminate].
    apply jseqb_eq in E. rewrite E. auto.
  - intros j r Hj Hout Hnil.
    destruct (@abnormal_error r (or_introl Hnil)) as (error & Herr & Hno & _).
    destruct (Hno Hnil) as [-> Hre].
    apply (Hlast j r _ Hj Hout Herr). now left.
  - intros j r c rest reason Hj Hout Hc Hf Hne Hstop.
    assert (Hab : abnormal r) by (right; exists c, rest, reason; auto).
    destruct (@abnormal_error r Hab) as (error & Herr & _ & Hsome).
    destruct (Hsome c rest reason Hc Hf) as [-> Hre].
    split; [exact Herr|]. split; [exact Hre|]. split.
    + intros Hgive.
      destruct (Hlast j r _ Hj Hout Herr) as (Hjn & t & Ht & Hllm).
      { destruct Hgive as [Hno|H3]; [left; congruence | now right]. }
      split; [exact Hjn|]. exists t. split; [exact Ht|]. split; [exact Hllm|].
      destruct Hllm as (ctx & stamp & ->). unfold newError, stopped_message.
      cbn [describe message_of err_message].
      apply includes_app_r, includes_app_r, includes_app_r, includes_app_r.
      apply includes_here, startsWith_app.
    + intros Hmark Hlt.
      destruct (Nat.eq_dec j n) as [Hjn|Hdiff]; [|lia]. exfalso. subst j.
      rewrite Hout in Hend. cbn [caught] in Hend.
      destruct (fst out) as [g|t|].
      * destruct Hend as (r' & Hr' & Hnone & _). congruence.
      * destruct Hend as (e & He & [Hno|H3] & _).
        -- assert (e = newError (stopped_message reason)) by congruence. subst e.
           congruence.
        -- unfold maxRetries in H3. lia.
      * discriminate.
  - unfold finishReasons. repeat constructor.
Qed.

Lemma abnormal_response_policy_witness :
  let reason := js "SAFETY" in
  let r := mkResponse [mkCandidate (Some reason)] [] None in
  let w := worldWith (fun _ _ _ => Resolved r) in
  let out := callGemini w (js "boulanger") (js "Bake.") (json_mode []) initial in
  names_marker reason = false /\
  attempts_made initial (snd out) = 1%nat /\
  exists t, fst out = Throw t /\
            is_LLMError (js "boulanger") (stopped_message reason) t /\
            includes (describe t) reason = true.
Proof.
  intros reason r w out.
  destruct (abnormal_response_policy w (js "boulanger") (js "Bake.") (json_mode []) initial)
    as (_ & _ & H & _).
  assert (Hn : attempts_made initial (snd out) = 1%nat) by (vm_compute; reflexivity).
  destruct (H 1%nat r (mkCandidate (Some reason)) [] reason) as (_ & _ & Hend & _).
  - fold out. rewrite Hn. lia.
  - vm_compute; reflexivity.
  - reflexivity.
  - reflexivity.
  - discriminate.
  - discriminate.
  - split; [vm_compute; reflexivity|]. split; [exact Hn|].
    apply Hend. left. vm_compute; reflexivity.
Defined.

(** ** [JSON.parse] and white space *)

Lemma classify_ws c : is_json_ws c = true -> classify c = CWs.
Proof. intros H. unfold classify. now rewrite H. Qed.

Lemma json_ws_is_js_ws c : is_json_ws c = true -> is_js_ws c = true.
Proof.
  unfold is_json_ws, is_js_ws. intros H.
  repeat (apply orb_true_iff in H; destruct H as [H|H]);
    apply N.eqb_eq in H; subst c; reflexivity.
Qed.

(** The white space of JavaScript that JSON does not allow between
    tokens. *)
Lemma js_ws_cases c :
  is_js_ws c = true ->
  is_json_ws c = true \/ (c = 11 \/ c = 12 \/ 160 <= c)%N.
Proof.
  unfold is_js_ws. intros H.
  repeat (apply orb_true_iff in H; destruct H as [H|H]);
    try (apply andb_true_iff in H; destruct H as [H _]; apply N.leb_le in H;
         right; lia);
    apply N.eqb_eq in H; subst c;
    first [ left; reflexivity | right; lia ].
Qed.

Ltac decide_tests :=
  repeat match goal with
         | |- context [N.eqb ?a ?b] =>
             destruct (N.eqb_spec a b); [exfalso; lia|]
         | |- context [N.leb ?a ?b] =>
             destruct (N.leb_spec a b); try (exfalso; lia)
         | |- context [N.ltb ?a ?b] =>
             destruct (N.ltb_spec a b); try (exfalso; lia)
         end; cbn [andb orb].

Lemma classify_exotic c : exotic c -> classify c = COther.
Proof.
  intros H. unfold exotic in H. unfold classify, is_json_ws.
  decide_tests. all: try reflexivity. 
Qed.

Lemma stuck_finish m : stuck m -> finish m = None.
Proof.
  destruct m as [stack mode]. unfold stuck. cbn [snd].
  destruct mode; try contradiction; intros _; destruct stack; reflexivity.
Qed.

Lemma literal_char l pos e :
  nth_error (literal_text l) pos = Some e -> (97 <= e <= 117)%N.
Proof.
  destruct l; do 6 (destruct pos as [|pos]; [cbn; intros [= <-]; lia|]);
    cbn; try discriminate; destruct pos; discriminate.
Qed.

Lemma hex_value_ws c : is_js_ws c = true -> hex_value c = None.
Proof.
  intros H. destruct (js_ws_cases c H) as [Hj|He].
  - unfold is_json_ws in Hj.
    repeat (apply orb_true_iff in Hj; destruct Hj as [Hj|Hj]);
      apply N.eqb_eq in Hj; subst c; reflexivity.
  - unfold exotic in He. unfold hex_value. decide_tests; reflexivity.
Qed.

(** Inside a string, white space never closes the string. *)
Lemma string_step_ws acc esc c :
  is_js_ws c = true ->
  match string_step acc esc c with
  | Some (inr _) => False
  | _ => True
  end.
Proof.
  intros H. destruct esc as [| |count value]; cbn [string_step].
  - destruct (js_ws_cases c H) as [Hj|He].
    + unfold is_json_ws in Hj.
      repeat (apply orb_true_iff in Hj; destruct Hj as [Hj|Hj]);
        apply N.eqb_eq in Hj; subst c; exact I.
    + unfold exotic in He. decide_tests; exact I.
  - destruct (js_ws_cases c H) as [Hj|He].
    + unfold is_json_ws in Hj.
      repeat (apply orb_true_iff in Hj; destruct Hj as [Hj|Hj]);
        apply N.eqb_eq in Hj; subst c; exact I.
    + unfold exotic in He. decide_tests; exact I.
  - rewrite (hex_value_ws c H). exact I.
Qed.

Lemma stuck_step_ws m c : stuck m -> is_js_ws c = true -> stuck (step m c).
Proof.
  destruct m as [stack mode]. unfold stuck. cbn [snd].
  destruct mode; try contradiction; intros _ H; cbn [step].
  - pose proof (string_step_ws acc esc c H) as Hs.
    destruct (string_step acc esc c) as [[[acc' esc']|key]|]; cbn; tauto.
  - pose proof (string_step_ws acc esc c H) as Hs.
    destruct (string_step acc esc c) as [[[acc' esc']|key]|]; cbn; tauto.
  - exact I.
Qed.

Lemma after_value_exotic stack v c : exotic c -> after_value stack v c = failed.
Proof. intros H. unfold after_value. rewrite (classify_exotic H). reflexivity. Qed.

Lemma value_start_exotic stack c : exotic c -> value_start stack c = failed.
Proof.
  intros H. unfold value_start. rewrite (classify_exotic H).
  unfold exotic in H. decide_tests; reflexivity.
Qed.

Lemma step_exotic m c :
  is_js_ws c = true -> is_json_ws c = false -> stuck (step m c).
Proof.
  intros Hws Hj.
  assert (H : exotic c) by (destruct (js_ws_cases c Hws) as [Hj2|He2]; [congruence | exact He2]).
  destruct m as [stack mode].
  destruct mode; cbn [step]; rewrite ?(classify_exotic H),
    ?(value_start_exotic _ H), ?(after_value_exotic _ _ H); try exact I.
  - pose proof (string_step_ws acc esc c Hws) as Hs.
    destruct (string_step acc esc c) as [[[acc' esc']|key]|]; cbn; tauto.
  - pose proof (string_step_ws acc esc c Hws) as Hs.
    destruct (string_step acc esc c) as [[[acc' esc']|key]|]; cbn; tauto.
  - unfold number_step. rewrite (classify_exotic H), (after_value_exotic _ _ H).
    assert (He : is_e c = false)
      by (unfold is_e; unfold exotic in H; decide_tests; reflexivity).
    rewrite He. destruct phase; exact I.
  - destruct (nth_error (literal_text l) pos) as [e|] eqn:Hn; [|exact I].
    apply literal_char in Hn. unfold exotic in H.
    destruct (N.eqb_spec c e); [exfalso; lia | exact I].
Qed.

(** White space that JSON allows does not change what the end of the text
    yields. *)
Lemma finish_step_ws m c : is_json_ws c = true -> finish (step m c) = finish m.
Proof.
  intros H. destruct m as [stack mode].
  destruct mode; cbn [step]; rewrite ?(classify_ws c H); try reflexivity.
  - unfold value_start. rewrite (classify_ws c H). reflexivity.
  - pose proof (string_step_ws acc esc c (json_ws_is_js_ws c H)) as Hs.
    destruct (string_step acc esc c) as [[[acc' esc']|key]|]; try contradiction;
      destruct stack; reflexivity.
  - pose proof (string_step_ws acc esc c (json_ws_is_js_ws c H)) as Hs.
    destruct (string_step acc esc c) as [[[acc' esc']|key]|]; try contradiction;
      destruct stack; reflexivity.
  - unfold number_step, after_value. rewrite (classify_ws c H).
    destruct phase, stack; reflexivity.
  - destruct (nth_error (literal_text l) pos) as [e|] eqn:Hn;
      [|destruct stack; reflexivity].
    apply literal_char in Hn.
    assert (Hlt : (c < 97)%N).
    { unfold is_json_ws in H.
      repeat (apply orb_true_iff in H; destruct H as [H|H]);
        apply N.eqb_eq in H; subst c; lia. }
    destruct (N.eqb_spec c e); [exfalso; lia | destruct stack; reflexivity].
  - unfold after_value. rewrite (classify_ws c H). reflexivity.
  - destruct stack; reflexivity.
Qed.

Lemma run_app m a b : run m (a ++ b) = run (run m a) b.
Proof. apply fold_left_app. Qed.

Lemma run_failed s : run failed s = failed.
Proof. induction s as [|c s IH]; [reflexivity | exact IH]. Qed.

Lemma stuck_run_ws r : forall m,
  forallb is_js_ws r = true -> stuck m -> finish (run m r) = None.
Proof.
  induction r as [|c r IH]; intros m Hr Hm.
  - now apply stuck_finish.
  - cbn in Hr. apply andb_true_iff in Hr. destruct Hr as [Hc Hr].
    apply IH; [exact Hr | now apply stuck_step_ws].
Qed.

(** White space behind a text that parses can be dropped. *)
Lemma trailing_ws r : forall m v,
  forallb is_js_ws r = true -> finish (run m r) = Some v -> finish m = Some v.
Proof.
  induction r as [|c r IH]; intros m v Hr Hf; [exact Hf|].
  cbn in Hr. apply andb_true_iff in Hr. destruct Hr as [Hc Hr].
  destruct (is_json_ws c) eqn:Hj.
  - rewrite <- (finish_step_ws m c Hj). apply (IH _ _ Hr Hf).
  - cbn [run fold_left] in Hf. fold (run (step m c) r) in Hf.
    rewrite (@stuck_run_ws r _ Hr (@step_exotic m c Hc Hj)) in Hf. discriminate.
Qed.

(** So can white space in front of it. *)
Lemma leading_ws l : forall rest v,
  forallb is_js_ws l = true ->
  finish (run ([], MValue) (l ++ rest)) = Some v ->
  finish (run ([], MValue) rest) = Some v.
Proof.
  induction l as [|c l IH]; intros rest v Hl Hf; [exact Hf|].
  cbn in Hl. apply andb_true_iff in Hl. destruct Hl as [Hc Hl].
  cbn [app run fold_left] in Hf. fold (run (step ([], MValue) c) (l ++ rest)) in Hf.
  destruct (is_json_ws c) eqn:Hj.
  - cbn [step] in Hf. unfold value_start in Hf. rewrite (classify_ws c Hj) in Hf.
    apply (IH _ _ Hl Hf).
  - assert (He : exotic c) by (destruct (js_ws_cases c Hc) as [Hj2|He2]; [congruence | exact He2]).
    cbn [step] in Hf. rewrite (value_start_exotic _ He), run_failed in Hf.
    discriminate.
Qed.

Lemma trimStart_split s :
  exists l, forallb is_js_ws l = true /\ s = l ++ trimStart s.
Proof.
  induction s as [|c s (l & Hl & Hs)].
  - exists []. split; reflexivity.
  - cbn [trimStart]. destruct (is_js_ws c) eqn:Hc.
    + exists (c :: l). cbn. rewrite Hc, Hl. split; [reflexivity | now f_equal].
    + exists []. split; reflexivity.
Qed.

Lemma trimEnd_split s :
  exists r, forallb is_js_ws r = true /\ s = trimEnd s ++ r.
Proof.
  destruct (trimStart_split (rev s)) as (l & Hl & Hs).
  exists (rev l). split.
  - rewrite forallb_forall in *. intros x Hx. apply Hl. now apply in_rev.
  - unfold trimEnd. rewrite <- rev_app_distr, <- Hs. now rewrite rev_involutive.
Qed.

(** [JSON.parse(text.trim())] yields what [JSON.parse(text)] yields. *)
Lemma JSON_parse_trim text v :
  JSON_parse text = Some v -> JSON_parse (trim text) = Some v.
Proof.
  unfold JSON_parse, trim. intros H.
  destruct (trimStart_split text) as (l & Hl & Hs).
  rewrite Hs in H. apply (@leading_ws l _ _ Hl) in H.
  destruct (trimEnd_split (trimStart text)) as (r & Hr & Ht).
  rewrite Ht, run_app in H. apply (@trailing_ws r _ _ Hr H).
Qed.

(** ** The extractor *)

Lemma includes_cons c s p : includes (c :: s) p = false ->
  startsWith p (c :: s) = false /\ includes s p = false.
Proof. cbn [includes]. intros H. now apply orb_false_iff in H. Qed.

Lemma includes_nil_false s p : includes s p = false -> startsWith p s = false.
Proof. destruct s; cbn [includes]; intros H; now apply orb_false_iff in H. Qed.

Lemma startsWith_prefix p q s : startsWith (p ++ q) s = true -> startsWith p s = true.
Proof.
  revert s. induction p as [|c p IH]; intros s H; [reflexivity|].
  destruct s as [|x s]; [discriminate|]. cbn in *.
  apply andb_true_iff in H. destruct H as [-> H]. now apply IH.
Qed.

Lemma includes_prefix p q s : includes s p = false -> includes s (p ++ q) = false.
Proof.
  induction s as [|c s IH]; intros H.
  - apply includes_nil_false in H. cbn [includes]. rewrite orb_false_r.
    destruct (startsWith (p ++ q) []) eqn:E; [|reflexivity].
    apply startsWith_prefix in E. congruence.
  - apply includes_cons in H. destruct H as [H1 H2]. cbn [includes].
    rewrite (IH H2), orb_false_r.
    destruct (startsWith (p ++ q) (c :: s)) eqn:E; [|reflexivity].
    apply startsWith_prefix in E. congruence.
Qed.

Lemma remove_marker_absent lit fuel : forall s,
  includes s lit = false -> remove_marker lit fuel s = s.
Proof.
  induction fuel as [|f IH]; intros s H; [reflexivity|].
  cbn [remove_marker]. rewrite (includes_nil_false _ _ H).
  destruct s as [|c s]; [reflexivity|].
  apply includes_cons in H. now rewrite (IH _ (proj2 H)).
Qed.

Lemma remove_fences_absent text :
  includes text (js "```") = false -> remove_fences text = text.
Proof.
  intros H. unfold remove_fences.
  rewrite (remove_marker_absent (js "```json")).
  - now apply remove_marker_absent.
  - exact (includes_prefix (js "```") (js "json") text H).
Qed.

Lemma remove_line_comments_absent fuel : forall s,
  includes s (js "//") = false -> remove_line_comments fuel s = s.
Proof.
  induction fuel as [|f IH]; intros s H; [reflexivity|].
  cbn [remove_line_comments]. rewrite (includes_nil_false _ _ H).
  destruct s as [|c s]; [reflexivity|].
  apply includes_cons in H. now rewrite (IH _ (proj2 H)).
Qed.

Lemma remove_block_comments_absent fuel : forall s,
  includes s (js "/*") = false -> remove_block_comments fuel s = s.
Proof.
  induction fuel as [|f IH]; intros s H; [reflexivity|].
  cbn [remove_block_comments]. destruct s as [|c s]; [reflexivity|].
  rewrite (includes_nil_false _ _ H).
  apply includes_cons in H. now rewrite (IH _ (proj2 H)).
Qed.

Lemma remove_trailing_commas_absent s :
  has_trailing_comma s = false -> remove_trailing_commas s = s.
Proof.
  induction s as [|c s IH]; intros H; [reflexivity|].
  cbn [has_trailing_comma] in H. apply orb_false_iff in H. destruct H as [H1 H2].
  cbn [remove_trailing_commas]. rewrite H1. now rewrite (IH H2).
Qed.

Lemma clean_untouched text : untouched text -> clean text = text.
Proof.
  intros (Hf & Hl & Hb & Hc). unfold clean.
  rewrite (remove_fences_absent _ Hf), (remove_line_comments_absent _ _ Hl),
    (remove_block_comments_absent _ _ Hb).
  now apply remove_trailing_commas_absent.
Qed.

(** An untouched text that parses to a value other than an array is
    handled by the [try] block alone. *)
Lemma extractJSON_untouched T (schema : Schema T) text parsed :
  untouched text -> JSON_parse text = Some parsed -> isArray parsed = false ->
  extractJSON text schema =
  match validated schema parsed with
  | inr v => inr v
  | inl (ZodErr issues) => inl (ValidationFailed issues)
  | inl _ => fallback schema text text
  end.
Proof.
  intros Hu Hp Ha. unfold extractJSON. rewrite (clean_untouched Hu).
  unfold direct_parse. rewrite (JSON_parse_trim _ Hp).
  destruct parsed; try reflexivity. discriminate.
Qed.

(** When the cleaned text parses to an array that is not unwrapped, the
    error of line 29 is thrown inside the [try] block, and its [catch]
    clause goes on to the search for an object. *)
Lemma array_error_leads_to_search T (schema : Schema T) text elems :
  JSON_parse (trim (clean text)) = Some (JArr elems) ->
  List.length elems <> 1%nat ->
  direct_parse schema (clean text) = inl (PlainErr (array_message (List.length elems))) /\
  extractJSON text schema = fallback schema text (clean text).
Proof.
  intros Hp Hn. unfold extractJSON, direct_parse. rewrite Hp.
  destruct elems as [|a [|b rest]]; [| cbn in Hn; congruence |]; split; reflexivity.
Qed.

(** C4.  The text [[1,2]] parses to an array of two elements.  The [try]
    block throws the error that names the count, but [extractJSON] throws
    the error of the generic path, "No valid JSON found in response",
    whose message is another one.  An array of two elements that holds an
    object somewhere is even accepted. *)
Theorem array_error_swallowed :
  let text := jsq "[1,2]" in
  JSON_parse text = Some (JArr [JNum (num_of_Z 1); JNum (num_of_Z 2)]) /\
  direct_parse NoSchema (clean text) = inl (PlainErr (array_message 2)) /\
  extractJSON text NoSchema = inl (NoValidJson text) /\
  (forall w, extract_message w (NoValidJson text) <> array_message 2) /\
  extractJSON (jsq "[[{'a':1}],2]") NoSchema = inr (JObj [(js "a", JNum (num_of_Z 1))]).
Proof.
  cbv zeta. repeat split; try (vm_compute; reflexivity).
  intros w H. vm_compute in H. discriminate.
Qed.

(** The note of a specialist that quotes an address. *)
Lemma linked_page_parses :
  exists parsed,
    JSON_parse (jsq "{'specialist':'boulanger','section':'Sources','notes':'see http://example.org'}")
      = Some parsed /\
    onePagerSchema parsed =
      ZodOk (mkOnePager (js "boulanger") (js "Sources") (js "see http://example.org")).
Proof. eexists. split; vm_compute; reflexivity. Qed.

(** C6, as stated, fails: a serialization of a value that conforms to the
    schema of the one-pagers is not extracted when a string in it holds
    two slashes. *)
Lemma roundtrip_fails_on_slashes :
  ~ (forall (T : Type) (schema : ZodSchema T) (text : jsstring) (parsed : Json) (v : T),
       JSON_parse text = Some parsed -> schema parsed = ZodOk v ->
       extractJSON text (WithSchema schema) = inr v).
Proof.
  intros H. destruct linked_page_parses as (parsed & Hp & Hs).
  specialize (H _ onePagerSchema _ parsed _ Hp Hs).
  vm_compute in H. discriminate.
Qed.

(** C6, amended.  A text that is a JSON serialization of a value other
    than an array, and that holds no code fence, no two slashes, no
    slash-star and no comma before a closing bracket, is extracted to the
    value its schema makes of it, and to the parsed value itself when no
    schema is given. *)
Theorem extract_roundtrip (T : Type) (schema : ZodSchema T) (text : jsstring)
  (parsed : Json) (v : T) :
  JSON_parse text = Some parsed ->
  schema parsed = ZodOk v ->
  isArray parsed = false ->
  untouched text ->
  extractJSON text (WithSchema schema) = inr v /\
  extractJSON text NoSchema = inr parsed.
Proof.
  intros Hp Hs Ha Hu. split.
  - rewrite (extractJSON_untouched (WithSchema schema) Hu Hp Ha).
    cbn [validated]. now rewrite Hs.
  - now rewrite (extractJSON_untouched NoSchema Hu Hp Ha).
Qed.

Lemma extract_roundtrip_witness :
  extractJSON pageText (WithSchema onePagerSchema) =
    inr (mkOnePager (js "boulanger") (js "Dough") (js "Knead well")) /\
  extractJSON pageText NoSchema =
    inr (JObj [(js "specialist", JStr (js "boulanger")); (js "section", JStr (js "Dough"));
               (js "notes", JStr (js "Knead well"))]).
Proof.
  apply (@extract_roundtrip _ onePagerSchema pageText).
  - vm_compute. reflexivity.
  - vm_compute. reflexivity.
  - reflexivity.
  - unfold untouched. repeat split; vm_compute; reflexivity.
Defined.

(** C10.  The rewrites of lines 5 to 12 do not see where a string begins
    and ends.  Of three texts that [JSON.parse] reads as an object with one
    string member: the one with two slashes in the string is not extracted
    at all; the one where a line separator follows the slashes, and the one
    with a code fence in the string, are extracted to another value. *)
Theorem cleaning_ignores_strings :
  (exists text key s,
     JSON_parse text = Some (JObj [(key, JStr s)]) /\
     includes s (js "//") = true /\
     exists e, extractJSON text NoSchema = inl e) /\
  (exists text key s other,
     JSON_parse text = Some (JObj [(key, JStr s)]) /\
     includes s (js "//") = true /\
     extractJSON text NoSchema = inr other /\ other <> JObj [(key, JStr s)]) /\
  (exists text key s other,
     JSON_parse text = Some (JObj [(key, JStr s)]) /\
     includes s (js "```") = true /\
     extractJSON text NoSchema = inr other /\ other <> JObj [(key, JStr s)]).
Proof.
  split; [|split].
  - exists (jsq "{'url':'http://example.org'}"), (js "url"), (js "http://example.org").
    repeat split; try (vm_compute; reflexivity).
    eexists. vm_compute. reflexivity.
  - exists (jsq "{'a':'x//y" ++ [8232%N] ++ jsq "z'}"), (js "a"),
      (js "x//y" ++ [8232%N] ++ js "z"), (JObj [(js "a", JStr (js "x" ++ [8232%N] ++ js "z"))]).
    repeat split; try (vm_compute; reflexivity).
    intros H. vm_compute in H. discriminate.
  - exists (jsq "{'a':'x```y'}"), (js "a"), (js "x```y"), (JObj [(js "a", JStr (js "xy"))]).
    repeat split; try (vm_compute; reflexivity).
    intros H. vm_compute in H. discriminate.
Qed.

(** ** The logic of runs *)

Lemma same_refl s : same s s.
Proof. split; reflexivity. Qed.

Lemma same_trans s1 s2 s3 : same s1 s2 -> same s2 s3 -> same s1 s3.
Proof. intros [H1 H2] [H3 H4]. split; congruence. Qed.

Lemma triple_bind A B (P : St -> Prop) (m : M A) (k : A -> M B) Q1 Q E N :
  triple P m Q1 E N -> (forall a, triple (Q1 a) (k a) Q E N) ->
  triple P (bind m k) Q E N.
Proof.
  intros Hm Hk s Hs. unfold bind. specialize (Hm s Hs).
  destruct (m s) as [[a|t|] s']; auto. apply (Hk a s' Hm).
Qed.

Lemma triple_try A (P : St -> Prop) (m : M A) (h : Thrown -> M A) Q E1 E N :
  triple P m Q E1 N -> (forall t, triple (E1 t) (h t) Q E N) ->
  triple P (try_catch m h) Q E N.
Proof.
  intros Hm Hh s Hs. unfold try_catch. specialize (Hm s Hs).
  destruct (m s) as [[a|t|] s']; auto. apply (Hh t s' Hm).
Qed.

Lemma triple_weaken A (P P' : St -> Prop) (m : M A) (Q Q' : A -> St -> Prop)
  (E E' : Thrown -> St -> Prop) (N N' : St -> Prop) :
  triple P' m Q' E' N' ->
  (forall s, P s -> P' s) -> (forall a s, Q' a s -> Q a s) ->
  (forall t s, E' t s -> E t s) -> (forall s, N' s -> N s) ->
  triple P m Q E N.
Proof.
  intros Hm HP HQ HE HN s Hs. specialize (Hm s (HP s Hs)).
  destruct (m s) as [[a|t|] s']; auto.
Qed.

Lemma triple_ret A (P : St -> Prop) (a : A) (Q : A -> St -> Prop) E N :
  (forall s, P s -> Q a s) -> triple P (ret a) Q E N.
Proof. intros H s Hs. cbn. auto. Qed.

Lemma triple_throw A (P : St -> Prop) (t : Thrown) (Q : A -> St -> Prop) (E : Thrown -> St -> Prop) N :
  (forall s, P s -> E t s) -> triple P (throw t) Q E N.
Proof. intros H s Hs. cbn. auto. Qed.

Lemma triple_modify (P : St -> Prop) (f : St -> St) (Q : unit -> St -> Prop) E N :
  (forall s, P s -> Q tt (f s)) -> triple P (modify f) Q E N.
Proof. intros H s Hs. cbn. auto. Qed.

(** Stepping over a computation that leaves the log and the banners. *)
Lemma step_silent A B (R : A -> Prop) (P : St -> Prop) (m : M A) (k : A -> M B) Q E N :
  silent R m -> stable P -> (forall a, R a -> triple P (k a) Q E N) ->
  triple P (bind m k) Q E N.
Proof.
  intros Hm HP Hk s Hs. unfold bind. specialize (Hm s s eq_refl).
  destruct (m s) as [[a|t|] s']; try contradiction.
  destruct Hm as [Ha Hsame]. apply (Hk a Ha s'). apply (HP s s' Hsame Hs).
Qed.

Lemma step_tame A B (R : A -> Prop) (H : Prop) (P : St -> Prop) (m : M A)
  (k : A -> M B) Q (E : Thrown -> St -> Prop) (N : St -> Prop) :
  tame R H m -> stable P ->
  (forall t s, fresh t -> P s -> E t s) -> (H -> forall s, P s -> N s) ->
  (forall a, R a -> triple P (k a) Q E N) ->
  triple P (bind m k) Q E N.
Proof.
  intros Hm HP HE HN Hk s Hs. unfold bind. specialize (Hm s s eq_refl).
  destruct (m s) as [[a|t|] s'].
  - destruct Hm as [Ha Hsame]. apply (Hk a Ha s'). apply (HP s s' Hsame Hs).
  - destruct Hm as [Hf Hsame]. apply HE; [exact Hf | apply (HP s s' Hsame Hs)].
  - destruct Hm as [HH Hsame]. apply (HN HH). apply (HP s s' Hsame Hs).
Qed.

Lemma step_settles A B (R : A -> Prop) (H : Prop) (P : St -> Prop) (m : M A)
  (k : A -> M B) Q (E : Thrown -> St -> Prop) (N : St -> Prop) :
  settles R H m -> stable P -> (H -> forall s, P s -> N s) ->
  (forall a, R a -> triple P (k a) Q E N) ->
  triple P (bind m k) Q E N.
Proof.
  intros Hm HP HN Hk s Hs. unfold bind. specialize (Hm s s eq_refl).
  destruct (m s) as [[a|t|] s']; try contradiction.
  - destruct Hm as [Ha Hsame]. apply (Hk a Ha s'). apply (HP s s' Hsame Hs).
  - destruct Hm as [HH Hsame]. apply (HN HH). apply (HP s s' Hsame Hs).
Qed.

Lemma silent_weaken A (R R' : A -> Prop) (m : M A) :
  silent R m -> (forall a, R a -> R' a) -> silent R' m.
Proof.
  intros H HR s s0 <-. specialize (H s s eq_refl).
  destruct (m s) as [[a|t|] s']; auto. destruct H. split; auto.
Qed.

Lemma clock_silent w : silent any (clock w).
Proof. intros s s0 <-. cbn. split; [exact I | split; reflexivity]. Qed.

(** What [emit] does with a quiet listener: the event comes back as it
    was, and the log of a final event is the log again. *)
Lemma emit_quiet w em ids event s :
  quiet em ->
  exists s',
    emit w em ids event s = (Ok event, s') /\
    requests s' = requests s /\ slept s' = slept s /\ banners s' = banners s /\
    log s' = match final_log event with
             | Some l => match em with Some _ => l | None => log s end
             | None => log s
             end.
Proof.
  intros Hq. unfold emit. destruct em as [l|]; cbn.
  - rewrite (Hq _). cbn. destruct event; cbn; eexists; repeat split.
  - eexists. repeat split. now destruct (final_log event).
Qed.

(** Whatever the listener does, [emit] sends nothing, awaits nothing and
    prints nothing, and hands one event to the listener. *)
Lemma emit_footprint w em ids event s :
  let s' := snd (emit w em ids event s) in
  requests s' = requests s /\ slept s' = slept s /\ banners s' = banners s /\
  match em with
  | Some _ => exists e, delivered s' = delivered s ++ [e] /\ body e = event /\
                        requestId e = runRequestId ids
  | None => delivered s' = delivered s
  end.
Proof.
  unfold emit. destruct em as [listener|]; [|cbn; auto].
  cbn. destruct (listener _) as [after|t after];
    destruct event, after; cbn; repeat split; eexists; repeat split.
Qed.

(** With a listener that is quiet, an event of progress is delivered and
    nothing else changes but the clock. *)
Lemma emit_heard w (listener : Listener) ids event s :
  (forall e, listener e = Returns (body e)) -> progress event ->
  exists e s',
    emit w (Some listener) ids event s = (Ok event, s') /\
    requests s' = requests s /\ delivered s' = delivered s ++ [e] /\
    body e = event /\ log s' = log s.
Proof.
  intros Hq Hp.
  destruct (@emit_quiet w (Some listener) ids event s Hq) as (s' & He & Hr & _ & _ & Hl).
  pose proof (emit_footprint w (Some listener) ids event s) as (_ & _ & _ & e & Hd & Hb & _).
  rewrite He in Hd. cbn [snd] in Hd. exists e, s'.
  repeat split; auto. rewrite Hl. destruct event; try reflexivity; contradiction.
Qed.

Lemma emit_silent w em ids event :
  quiet em -> progress event -> silent any (emit w em ids event).
Proof.
  intros Hq Hp s s0 <-. destruct (@emit_quiet w em ids event s Hq) as (s' & -> & _ & _ & Hb & Hl).
  split; [exact I|]. split; [|exact Hb].
  rewrite Hl. destruct event; try reflexivity; contradiction.
Qed.

(** Stepping over the emission of a final event, which refers to the log. *)
Lemma step_emit_final B w em ids event (P : St -> Prop) (k : EventBody -> M B) Q E N :
  quiet em -> stable P -> (forall s, P s -> final_log event = Some (log s)) ->
  triple P (k event) Q E N -> triple P (bind (emit w em ids event) k) Q E N.
Proof.
  intros Hq HP Hl Hk s Hs. unfold bind.
  destruct (@emit_quiet w em ids event s Hq) as (s' & -> & _ & _ & Hb & Hlog).
  apply Hk. apply (HP s s'); [|exact Hs]. split; [|exact Hb].
  rewrite Hlog, (Hl s Hs). now destruct em.
Qed.

Lemma get_log_silent : forall s, triple (eq s) get_log (fun l s' => l = log s /\ s' = s)
   (fun _ _ => False) (fun _ => False).
Proof. intros s s0 <-. cbn. auto. Qed.

Lemma load_tame w name : tame any False (load w name).
Proof.
  intros s s0 <-. unfold load. destruct (loadPrompt w name) as [e|t]; cbn.
  - split; [eexists; reflexivity | split; reflexivity].
  - split; [exact I | split; reflexivity].
Qed.

Lemma extract_tame w T text (schema : ZodSchema T) :
  tame any False (extract w text schema).
Proof.
  intros s s0 <-. unfold extract.
  destruct (extractJSON text (WithSchema schema)) as [e|v]; cbn.
  - split; [eexists; reflexivity | split; reflexivity].
  - split; [exact I | split; reflexivity].
Qed.

Lemma callGemini_tame w agent prompt options :
  tame (fun _ => responds w agent) (can_hang w agent)
    (callGemini w agent prompt options).
Proof.
  intros s s0 <-.
  destruct (callGemini_spec w agent prompt options s)
    as (n & _ & _ & _ & _ & Hend & Hb & Hd & Hl).
  destruct (callGemini w agent prompt options s) as [[g|t|] s'] eqn:Hcall;
    cbn [fst snd] in *.
  - split; [|split; assumption]. exists prompt, options, s, g, s'. exact Hcall.
  - split; [|split; assumption].
    destruct Hend as (error & _ & _ & (ctx & stamp & ->)). eexists. reflexivity.
  - split; [|split; assumption]. exists prompt, options, s, s'. exact Hcall.
Qed.

Ltac stable_tac :=
  intros ? ? [? ?] ?;
  repeat match goal with
         | H : _ /\ _ |- _ => destruct H
         end; repeat split; congruence.

Ltac pass :=
  first
    [ apply (@step_silent _ _ any);
      [first [apply clock_silent | apply emit_silent; [assumption | exact I]]
      | stable_tac | intros ? _]
    | eapply step_tame;
      [first [apply load_tame | apply extract_tame | apply callGemini_tame]
      | stable_tac | solve [unfold same; intuition auto]
      | solve [unfold same; intuition auto] | intros ? _] ].

Section PlanningFacts.
Variable w : World.
Variable em : option Listener.
Variable brief : CreativeBrief.
Variable ids : RunIds.
Hypothesis Hq : quiet em.

Lemma planning_effect s0 :
  triple (eq s0) (planning w em brief ids)
    (fun _ s' => banners s' = banners s0 ++ [PlanningPhase] /\
                 exists p, log s' = add_step (log s0) p /\ planning_step p)
    (fun t s' => fresh t /\ log s' = log s0 /\ banners s' = banners s0 ++ [PlanningPhase])
    (fun s' => log s' = log s0 /\ banners s' = banners s0 ++ [PlanningPhase]).
Proof.
  unfold planning.
  apply triple_bind with
    (Q1 := fun _ s' => log s' = log s0 /\ banners s' = banners s0 ++ [PlanningPhase]).
  { apply triple_modify. intros s <-. split; reflexivity. }
  intros _. cbv beta.
  repeat pass.
  match goal with
  | |- triple _ (bind (push_step ?st) _) _ _ _ =>
      apply triple_bind with
        (Q1 := fun _ s' => log s' = add_step (log s0) st /\
                           banners s' = banners s0 ++ [PlanningPhase])
  end.
  { apply triple_modify. intros s [Hl Hb].
    cbn. rewrite Hl. split; [reflexivity | exact Hb]. }
  intros _. pass. apply triple_ret. intros s [Hl Hb]. split; [exact Hb|].
  eexists. split; [exact Hl|]. repeat split.
Qed.
End PlanningFacts.

Section SpecialistFacts.
Variable w : World.
Variable em : option Listener.
Variable brief : CreativeBrief.
Variable ids : RunIds.
Hypothesis Hq : quiet em.

(** The task of a specialist settles in a step of its own and does not
    throw. *)
Lemma specialist_task_settles taskMap spec :
  settles (task_post w spec) (can_hang w (spec_name spec))
    (specialist_task w em brief ids taskMap spec).
Proof.
  intros s0 s <-.
  assert (H : triple (fun s' => log s' = log s0 /\ banners s' = banners s0)
                (specialist_task w em brief ids taskMap spec)
                (fun a s' => task_post w spec a /\ same s0 s')
                (fun _ _ => False)
                (fun s' => can_hang w (spec_name spec) /\ same s0 s')).
  2:{ apply (H s0). split; reflexivity. }
  unfold specialist_task. pass.
  apply triple_try with
    (E1 := fun _ s' => log s' = log s0 /\ banners s' = banners s0).
  - pass. pass.
    eapply step_tame;
      [apply callGemini_tame | stable_tac | solve [intuition auto]
      | solve [unfold same; intuition auto] |].
    intros response Hresponds.
    repeat pass. apply triple_ret. intros s H. split; [|exact H].
    repeat split. left. repeat split. exact Hresponds.
  - intros t. repeat pass. apply triple_ret. intros s H. split; [|exact H].
    repeat split. right. split; [reflexivity | eexists; reflexivity].
Qed.

Lemma settle_silent A (R : A -> Prop) (H : Prop) (task : M A) :
  settles R H task ->
  silent (fun r => match r with
                   | Fulfilled a => R a
                   | RejectedWith _ => False
                   | Unsettled => H
                   end) (settle task).
Proof.
  intros Ht s0 s <-. unfold settle. specialize (Ht s0 s0 eq_refl).
  destruct (task s0) as [[a|t|] s']; cbn; [exact Ht | contradiction | exact Ht].
Qed.

Lemma start_all_silent taskMap specs :
  silent (Forall2 (settled_or_not w) specs)
    (start_all (map (specialist_task w em brief ids taskMap) specs)).
Proof.
  induction specs as [|spec specs IH]; intros s0 s <-.
  - cbn. split; [constructor | split; reflexivity].
  - cbn [map start_all].
    assert (H : triple (fun s' => log s' = log s0 /\ banners s' = banners s0)
                  (r <- settle (specialist_task w em brief ids taskMap spec);;
                   rs <- start_all (map (specialist_task w em brief ids taskMap) specs);;
                   ret (r :: rs))
                  (fun a s' => Forall2 (settled_or_not w) (spec :: specs) a /\ same s0 s')
                  (fun _ _ => False) (fun _ => False)).
    2:{ apply (H s0). split; reflexivity. }
    eapply step_silent;
      [apply settle_silent, specialist_task_settles | stable_tac |].
    intros r Hr.
    eapply step_silent; [apply IH | stable_tac |].
    intros rs Hrs. apply triple_ret. intros s H. split; [|exact H].
    constructor; [|exact Hrs].
    destruct r as [a|t|]; [right; exists a; auto | contradiction | left; auto].
Qed.

Lemma no_unsettled specs results :
  Forall2 (settled_or_not w) specs results ->
  existsb is_unsettled results = false ->
  Forall2 (fulfilled w) specs results.
Proof.
  induction 1 as [|spec r specs results Hr Hrest IH]; intros He; [constructor|].
  cbn in He. apply orb_false_iff in He. destruct He as [H1 H2].
  constructor; [|now apply IH].
  destruct Hr as [[-> _] | Hf]; [discriminate | exact Hf].
Qed.

Lemma some_unsettled specs results :
  Forall2 (settled_or_not w) specs results ->
  existsb is_unsettled results = true ->
  some_can_hang w specs.
Proof.
  induction 1 as [|spec r specs results Hr Hrest IH]; intros He; [discriminate|].
  cbn in He. apply orb_true_iff in He. destruct He as [H1|H2].
  - destruct Hr as [[_ Hh] | (a & -> & _)]; [|discriminate].
    exists spec. split; [now left | exact Hh].
  - destruct (IH H2) as (spec' & Hin & Hh). exists spec'. split; [now right | exact Hh].
Qed.

Lemma allSettled_settles taskMap specs :
  settles (Forall2 (fulfilled w) specs) (some_can_hang w specs)
    (allSettled (map (specialist_task w em brief ids taskMap) specs)).
Proof.
  intros s0 s <-. unfold allSettled, bind.
  pose proof (@start_all_silent taskMap specs s0 s0 eq_refl) as H.
  destruct (start_all (map (specialist_task w em brief ids taskMap) specs) s0)
    as [[results|t|] s']; try contradiction.
  destruct H as [Hr Hsame].
  destruct (existsb is_unsettled results) eqn:He; cbn.
  - split; [now apply (some_unsettled Hr) | exact Hsame].
  - split; [now apply no_unsettled | exact Hsame].
Qed.

(** What [collect] does with results that are all fulfilled. *)
Lemma collect_fulfilled specs : forall results s,
  Forall2 (fulfilled w) specs results ->
  exists onePagers spec_steps,
    collect results s = (Ok onePagers, set_log (add_steps (log s) spec_steps) s) /\
    Forall2 (specialist_step w) specs spec_steps /\
    existsb step_success spec_steps = negb (Nat.eqb (List.length onePagers) 0).
Proof.
  induction specs as [|spec specs IH]; intros results s H; inversion H; subst.
  - exists [], []. cbn. unfold add_steps. rewrite app_nil_r.
    destruct s as [? ? ? ? ? []]; auto.
  - destruct H2 as ((op & st) & -> & Hpost & Hsucc). cbn [fst snd] in *.
    specialize (IH _ (set_log (add_step (log s) st) s) H4).
    destruct IH as (ops & sts & Hc & Hsteps & Hex).
    exists (match op with Some p => p :: ops | None => ops end), (st :: sts).
    split; [|split].
    + cbn [collect]. unfold bind at 1. unfold push_step, modify.
      unfold bind at 1. rewrite Hc. cbn. f_equal. unfold set_log, add_steps, add_step.
      cbn. now rewrite <- app_assoc.
    + now constructor.
    + cbn [existsb]. rewrite Hsucc, Hex. destruct op; cbn; [reflexivity|].
      reflexivity.
Qed.

Lemma triple_exists A X (P : X -> St -> Prop) (m : M A) Q E N :
  (forall x, triple (P x) m Q E N) -> triple (fun s => exists x, P x s) m Q E N.
Proof. intros H s [x Hx]. apply (H x s Hx). Qed.

Lemma triple_pure A (F : Prop) (P : St -> Prop) (m : M A) Q E N :
  (F -> triple P m Q E N) -> triple (fun s => F /\ P s) m Q E N.
Proof. intros H s [HF Hs]. apply (H HF s Hs). Qed.

Lemma specialists_effect taskMap d s0 :
  triple (eq s0) (specialists_phase w em brief ids taskMap d)
    (fun _ s' =>
       banners s' = banners s0 ++ [SpecialistsPhase] /\
       exists spec_steps,
         log s' = add_steps (log s0) spec_steps /\
         Forall2 (specialist_step w) (specialists taskMap) spec_steps /\
         existsb step_success spec_steps = true)
    (fun t s' =>
       banners s' = banners s0 ++ [SpecialistsPhase] /\
       exists spec_steps,
         log s' = add_steps (log s0) spec_steps /\
         Forall2 (specialist_step w) (specialists taskMap) spec_steps /\
         existsb step_success spec_steps = false /\
         all_failed_error taskMap t)
    (fun s' => some_can_hang w (specialists taskMap) /\
               log s' = log s0 /\ banners s' = banners s0 ++ [SpecialistsPhase]).
Proof.
  unfold specialists_phase.
  apply triple_bind with
    (Q1 := fun _ s' => log s' = log s0 /\ banners s' = banners s0 ++ [SpecialistsPhase]).
  { apply triple_modify. intros s <-. split; reflexivity. }
  intros _. pass.
  eapply step_settles; [apply allSettled_settles | stable_tac | solve [intuition auto] |].
  intros results Hres.
  apply triple_bind with
    (Q1 := fun onePagers s' =>
             exists spec_steps,
               (Forall2 (specialist_step w) (specialists taskMap) spec_steps /\
                existsb step_success spec_steps =
                  negb (Nat.eqb (List.length onePagers) 0)) /\
               log s' = add_steps (log s0) spec_steps /\
               banners s' = banners s0 ++ [SpecialistsPhase]).
  { intros s [Hl Hb].
    destruct (collect_fulfilled s Hres) as (ops & sts & Hc & Hsteps & Hex).
    rewrite Hc. exists sts. cbn. rewrite Hl. auto. }
  intros onePagers. apply triple_exists. intros spec_steps.
  apply triple_pure. intros [Hsteps Hex].
  destruct onePagers as [|p rest].
  - intros s (Hl & Hb). cbn.
    split; [exact Hb|]. exists spec_steps. repeat split; auto.
    eexists. reflexivity.
  - repeat pass. apply triple_ret. intros s [Hl Hb]. split; [exact Hb|].
    exists spec_steps. auto.
Qed.

Lemma step_get_log B (P : St -> Prop) (k : ExecutionLog -> M B) Q E N :
  (forall l, triple (fun s => l = log s /\ P s) (k l) Q E N) ->
  triple P (bind get_log k) Q E N.
Proof. intros H s Hs. unfold bind, get_log. apply (H (log s) s). auto. Qed.

(** Lines 310 and 311, 326 and 327. *)
Lemma finalize_effect (L : ExecutionLog) (Bs : list Phase) E N :
  triple (fun s => log s = L /\ banners s = Bs) (finalize_log w)
    (fun _ s' => exists ended total,
                   log s' = mkLog (steps L) (startTime L) (Some ended) (Some total) /\
                   banners s' = Bs)
    E N.
Proof.
  intros s [Hl Hb]. cbn. rewrite Hl. eexists _, _. split; [reflexivity | exact Hb].
Qed.

Lemma synthesis_effect onePagers s0 :
  triple (eq s0) (synthesis w em brief ids onePagers)
    (fun r s' =>
       banners s' = banners s0 ++ [SynthesisPhase] /\
       result_log r = log s' /\
       exists y ended total,
         log s' = mkLog (steps (log s0) ++ [y]) (startTime (log s0))
                    (Some ended) (Some total) /\
         synthesis_step y)
    (fun t s' => fresh t /\ log s' = log s0 /\ banners s' = banners s0 ++ [SynthesisPhase])
    (fun s' => log s' = log s0 /\ banners s' = banners s0 ++ [SynthesisPhase]).
Proof.
  unfold synthesis.
  apply triple_bind with
    (Q1 := fun _ s' => log s' = log s0 /\ banners s' = banners s0 ++ [SynthesisPhase]).
  { apply triple_modify. intros s <-. split; reflexivity. }
  intros _. cbv beta. repeat pass.
  match goal with
  | |- triple _ (bind (push_step ?st) _) _ _ _ =>
      apply triple_bind with
        (Q1 := fun _ s' => log s' = add_step (log s0) st /\
                           banners s' = banners s0 ++ [SynthesisPhase])
  end.
  { apply triple_modify. intros s [Hl Hb].
    cbn. rewrite Hl. split; [reflexivity | exact Hb]. }
  intros _. pass.
  eapply triple_bind; [apply finalize_effect|].
  intros ?. cbv beta. apply triple_exists. intros ended. apply triple_exists. intros total.
  apply step_get_log. intros l.
  apply step_emit_final;
    [assumption | stable_tac | intros s (Hl & _); cbn; now rewrite Hl |].
  apply step_get_log. intros l'. apply triple_ret.
  intros s (Hl' & _ & Hl & Hb). split; [exact Hb|]. split; [exact Hl'|].
  eexists _, ended, total. split; [exact Hl|]. repeat split.
Qed.

(** Lines 324 to 353: the [catch] clause logs its step, finalizes the log
    and throws the error with the log attached. *)
Lemma catch_effect e s0 :
  triple (eq s0) (catch_block w em ids (ThrownError e None))
    (fun _ _ => False)
    (fun t s' =>
       t = ThrownError e (Some (log s')) /\
       banners s' = banners s0 /\
       exists err ended total,
         log s' = mkLog (steps (log s0) ++ [err]) (startTime (log s0))
                    (Some ended) (Some total) /\
         error_step (message_of e) err)
    (fun _ => False).
Proof.
  unfold catch_block.
  apply triple_bind with
    (Q1 := fun _ s' => exists ended total,
             log s' = mkLog (steps (log s0)) (startTime (log s0)) (Some ended) (Some total) /\
             banners s' = banners s0).
  { intros s <-. apply (@finalize_effect (log s0) (banners s0)). auto. }
  intros _. apply triple_exists. intros ended. apply triple_exists. intros total.
  pass.
  match goal with
  | |- triple _ (bind (push_step ?st) _) _ _ _ =>
      apply triple_bind with
        (Q1 := fun _ s' =>
                 log s' = mkLog (steps (log s0) ++ [st]) (startTime (log s0))
                            (Some ended) (Some total) /\
                 banners s' = banners s0)
  end.
  { apply triple_modify. intros s [Hl Hb]. cbn. rewrite Hl. auto. }
  intros _. apply step_get_log. intros l.
  apply step_emit_final;
    [assumption | stable_tac | intros s (Hl & _); cbn; now rewrite Hl |].
  apply step_get_log. intros l'. apply triple_throw.
  intros s (Hl' & _ & Hl & Hb). cbn [attach]. rewrite Hl'.
  split; [reflexivity|]. split; [exact Hb|].
  eexists _, ended, total. split; [exact Hl|]. repeat split.
Qed.
End SpecialistFacts.

Lemma generateRecipe_start w brief em s :
  generateRecipe w brief em s =
  try_catch (try_block w em brief (run_ids w s)) (catch_block w em (run_ids w s))
    (start_state w s).
Proof. reflexivity. Qed.

(** Every run with a quiet listener takes one of the seven courses. *)
Lemma run_course w brief em s : quiet em -> Course w brief em s.
Proof.
  intros Hq.
  pose proof (generateRecipe_start w brief em s) as Hrun.
  set (ids := run_ids w s) in *. set (s0 := start_state w s) in *.
  assert (Hl0 : log s0 = mkLog [] (now w (ticks s)) None None) by reflexivity.
  assert (Hb0 : banners s0 = banners s) by reflexivity.
  assert (Hcatch : forall e s2 prior phases,
             steps (log s2) = prior -> banners s2 = banners s ++ phases ->
             generateRecipe w brief em s = catch_block w em ids (ThrownError e None) s2 ->
             fails_with w brief em s (ThrownError e None) prior phases).
  { intros e s2 prior phases Hst Hbn Heq.
    pose proof (@catch_effect w em ids Hq e s2 s2 eq_refl) as Hc.
    rewrite <- Heq in Hc. unfold fails_with.
    destruct (generateRecipe w brief em s) as [[r|t|] s3]; try contradiction.
    destruct Hc as (-> & Hb & err & ended & total & Hl & Herr).
    exists e, err. cbn [fst snd].
    split; [reflexivity|]. split; [reflexivity|].
    split; [rewrite Hl; cbn; now rewrite Hst|].
    split; [exact Herr|].
    split; [rewrite Hl; split; eexists; reflexivity | congruence]. }
  pose proof (@planning_effect w em brief ids Hq s0 s0 eq_refl) as Hp.
  unfold try_catch, try_block in Hrun. unfold bind at 1 in Hrun.
  destruct (planning w em brief ids s0) as [[[taskMap d]|t|] s1] eqn:Hplan.
  - destruct Hp as (Hb1 & p & Hl1 & Hpstep).
    assert (Hs1 : steps (log s1) = [p]) by (rewrite Hl1, Hl0; reflexivity).
    pose proof (@specialists_effect w em brief ids Hq taskMap d s1 s1 eq_refl) as Hsp.
    unfold bind at 1 in Hrun.
    destruct (specialists_phase w em brief ids taskMap d s1) as [[ops|t|] s2] eqn:Hspec.
    + destruct Hsp as (Hb2 & spec_steps & Hl2 & Hsteps & Hsome).
      assert (Hs2 : steps (log s2) = p :: spec_steps)
        by (rewrite Hl2; cbn; rewrite Hs1; reflexivity).
      assert (Hbn2 : banners s2 = banners s ++ [PlanningPhase; SpecialistsPhase])
        by (rewrite Hb2, Hb1, Hb0, <- app_assoc; reflexivity).
      pose proof (@synthesis_effect w em brief ids Hq ops s2 s2 eq_refl) as Hsy.
      destruct (synthesis w em brief ids ops s2) as [[r|t|] s3] eqn:Hsyn.
      * destruct Hsy as (Hb3 & Hr & y & ended & total & Hl3 & Hy).
        apply Completes with (taskMap := taskMap) (d := d) (s1 := s1) (p := p)
          (spec_steps := spec_steps) (y := y) (result := r); auto;
          rewrite Hrun; cbn [fst snd]; auto.
        -- rewrite Hl3. cbn. rewrite Hs2. reflexivity.
        -- rewrite Hl3. split; eexists; reflexivity.
        -- rewrite Hb3, Hbn2, <- app_assoc. reflexivity.
      * destruct Hsy as ((e & ->) & Hl3 & Hb3).
        apply SynthesisFails with (taskMap := taskMap) (d := d) (s1 := s1) (p := p)
          (spec_steps := spec_steps) (t := ThrownError e None); auto.
        apply (Hcatch e s3); [congruence | | exact Hrun].
        rewrite Hb3, Hbn2, <- app_assoc. reflexivity.
      * destruct Hsy as (Hl3 & Hb3).
        apply SynthesisHangs with (taskMap := taskMap) (d := d) (s1 := s1) (p := p)
          (spec_steps := spec_steps); auto.
        unfold hangs. rewrite Hrun. cbn [fst snd]. rewrite Hl3, Hl2, Hl1, Hl0.
        repeat split; auto; rewrite Hb3, Hbn2, <- app_assoc; reflexivity.
    + destruct Hsp as (Hb2 & spec_steps & Hl2 & Hsteps & Hnone & Hall).
      pose proof Hall as (stamp & ->).
      apply AllSpecialistsFail with (taskMap := taskMap) (d := d) (s1 := s1) (p := p)
        (spec_steps := spec_steps) (t := ThrownError
          (AppErr (mkAppError (js "AppError") all_failed_message true (Some 500)
                     (Some [(js "attemptedSpecialists",
                             JArr (map (fun s => JStr (spec_name s))
                                     (specialists taskMap)))])
                     stamp)) None); auto.
      apply Hcatch with (s2 := s2); [| | exact Hrun].
      * rewrite Hl2. cbn. rewrite Hs1. reflexivity.
      * rewrite Hb2, Hb1, Hb0, <- app_assoc. reflexivity.
    + destruct Hsp as (Hhang & Hl2 & Hb2).
      apply SpecialistsHang with (taskMap := taskMap) (d := d) (s1 := s1) (p := p); auto.
      unfold hangs. rewrite Hrun. cbn [fst snd]. rewrite Hl2, Hl1, Hl0.
      repeat split; auto; rewrite Hb2, Hb1, Hb0, <- app_assoc; reflexivity.
  - destruct Hp as ((e & ->) & Hl1 & Hb1).
    apply PlanningFails with (t := ThrownError e None) (s1 := s1); auto.
    apply Hcatch with (s2 := s1); [rewrite Hl1, Hl0; reflexivity | | exact Hrun].
    rewrite Hb1, Hb0. reflexivity.
  - destruct Hp as (Hl1 & Hb1).
    apply PlanningHangs with (s1 := s1); auto.
    unfold hangs. rewrite Hrun. cbn [fst snd]. rewrite Hl1, Hl0.
    repeat split; auto; rewrite Hb1, Hb0; reflexivity.
Qed.

(** ** The claims about a run *)

Lemma Forall2_length_eq A B (R : A -> B -> Prop) l l' :
  Forall2 R l l' -> List.length l' = List.length l.
Proof. induction 1; cbn; congruence. Qed.

(** C3, as stated, fails.  The [catch] clause emits [recipe:error] before
    it attaches the log (line 340, then line 350): a listener that throws
    there takes the place of the error, and what the caller catches carries
    no log, although the log of the run was finalized. *)
Lemma error_without_log :
  let out := generateRecipe helpfulWorld exampleBrief (Some brokenListener) initial in
  fst out = Throw (ThrownError (PlainError (js "listener failed")) None) /\
  finalized (log (snd out)) /\
  ~ (exists e l, fst out = Throw (ThrownError e (Some l))).
Proof.
  cbv zeta. split; [vm_compute; reflexivity|]. split.
  - split; eexists; vm_compute; reflexivity.
  - intros (e & l & H). vm_compute in H. discriminate.
Qed.

(** C3, amended.  Without a listener, or with one that returns from every
    event and leaves the objects of the event as they are, a run that
    returns hands over its log with [endTime] and [totalDurationMs] set; a
    run that fails has set both as well and throws an [Error] object that
    carries that log. *)
Theorem log_finalized_and_attached (w : World) (brief : CreativeBrief)
  (em : option Listener) (s : St) :
  quiet em ->
  match generateRecipe w brief em s with
  | (Ok result, s') => result_log result = log s' /\ finalized (log s')
  | (Throw t, s') => finalized (log s') /\ exists e, t = ThrownError e (Some (log s'))
  | (Pending, _) => True
  end.
Proof.
  intros Hq.
  assert (Hfail : forall t prior phases,
             fails_with w brief em s t prior phases ->
             match generateRecipe w brief em s with
             | (Ok result, s') => result_log result = log s' /\ finalized (log s')
             | (Throw t, s') =>
                 finalized (log s') /\ exists e, t = ThrownError e (Some (log s'))
             | (Pending, _) => True
             end).
  { intros t prior phases (e & err & _ & Hthrow & _ & _ & Hfin & _).
    destruct (generateRecipe w brief em s) as [[r|t'|] s']; cbn [fst snd] in *;
      try discriminate.
    injection Hthrow as ->. split; [exact Hfin | eexists; reflexivity]. }
  assert (Hhang : forall prior phases,
             hangs w brief em s prior phases ->
             match generateRecipe w brief em s with
             | (Ok result, s') => result_log result = log s' /\ finalized (log s')
             | (Throw t, s') =>
                 finalized (log s') /\ exists e, t = ThrownError e (Some (log s'))
             | (Pending, _) => True
             end).
  { intros prior phases (Hpend & _).
    destruct (generateRecipe w brief em s) as [[r|t'|] s']; cbn [fst] in *;
      try discriminate. exact I. }
  destruct (@run_course w brief em s Hq)
    as [s1' Hp Hout | t s1' Hp Hout | tm d' s1' p Hp Hpl Hh Hout
       | tm d' s1' p spec_steps t Hp Hpl Hsteps Hnone Hall Hout
       | tm d' s1' p spec_steps Hp Hpl Hsteps Hsome Hout
       | tm d' s1' p spec_steps t Hp Hpl Hsteps Hsome Hout
       | tm d' s1' p spec_steps y result Hp Hpl Hsteps Hsome Hy Hres Hlog Hall Hfin Hban].
  - apply (Hhang _ _ Hout).
  - apply (Hfail _ _ _ Hout).
  - apply (Hhang _ _ Hout).
  - apply (Hfail _ _ _ Hout).
  - apply (Hhang _ _ Hout).
  - apply (Hfail _ _ _ Hout).
  - destruct (generateRecipe w brief em s) as [[r|t'|] s']; cbn [fst snd] in *;
      try discriminate.
    injection Hres as ->. auto.
Qed.

Lemma log_finalized_and_attached_witness :
  match generateRecipe busyWorld exampleBrief None initial with
  | (Ok result, s') => result_log result = log s' /\ finalized (log s')
  | (Throw t, s') => finalized (log s') /\ exists e, t = ThrownError e (Some (log s'))
  | (Pending, _) => True
  end.
Proof.
  apply (@log_finalized_and_attached busyWorld exampleBrief None initial). exact I.
Defined.

(** A call for an agent that is always refused makes three attempts and
    throws. *)
Lemma refused_call w agent prompt options s :
  always_refused w agent ->
  attempts_made s (snd (callGemini w agent prompt options s)) = 3%nat /\
  slept (snd (callGemini w agent prompt options s)) = slept s ++ [1000; 2000] /\
  exists t, fst (callGemini w agent prompt options s) = Throw t.
Proof.
  intros Href.
  destruct (callGemini_spec w agent prompt options s)
    as (n & Hn & Hreq & Hsl & _ & Hend & _).
  unfold ends_as, attempt_outcome in Hend.
  destruct (Href (List.length (requests s) + (n - 1))%nat
              (build_request w agent prompt options)) as (t & Hrem & Hretry).
  rewrite Hrem in Hend. cbn [caught] in Hend.
  destruct (fst (callGemini w agent prompt options s)) as [g|t'|].
  - destruct Hend as (r & Hr & _). discriminate.
  - destruct Hend as (error & [= <-] & [Hno|Hthree] & _); [congruence|].
    assert (n = 3%nat) by (unfold maxRetries in Hthree; lia). subst n.
    split; [eapply attempts_made_repeat; exact Hreq|].
    split; [exact Hsl | eexists; reflexivity].
  - discriminate.
Qed.

Lemma refused_never_responds w agent : always_refused w agent -> ~ responds w agent.
Proof.
  intros Href (prompt & options & s & g & s' & Hcall).
  destruct (@refused_call w agent prompt options s Href) as (_ & _ & t & Ht).
  rewrite Hcall in Ht. discriminate.
Qed.

Lemma refused_never_hangs w agent : always_refused w agent -> ~ can_hang w agent.
Proof.
  intros Href (prompt & options & s & s' & Hcall).
  destruct (@refused_call w agent prompt options s Href) as (_ & _ & t & Ht).
  rewrite Hcall in Ht. discriminate.
Qed.




(** ** Runs that differ in their listener *)

Lemma rel_bind A B (RA : A -> A -> Prop) (RB : B -> B -> Prop)
  (m1 m2 : M A) (k1 k2 : A -> M B) :
  rel RA m1 m2 -> (forall a1 a2, RA a1 a2 -> rel RB (k1 a1) (k2 a2)) ->
  rel RB (bind m1 k1) (bind m2 k2).
Proof.
  intros Hm Hk s1 s2 Hs. unfold bind. specialize (Hm s1 s2 Hs).
  destruct (m1 s1) as [[a1|t1|] s1'], (m2 s2) as [[a2|t2|] s2']; try contradiction; auto.
  destruct Hm as [Ha Hs']. apply (Hk a1 a2 Ha s1' s2' Hs').
Qed.

Lemma rel_try A (RA : A -> A -> Prop) (m1 m2 : M A) (h1 h2 : Thrown -> M A) :
  rel RA m1 m2 ->
  (forall t1 t2, thrown_view t1 = thrown_view t2 -> rel RA (h1 t1) (h2 t2)) ->
  rel RA (try_catch m1 h1) (try_catch m2 h2).
Proof.
  intros Hm Hh s1 s2 Hs. unfold try_catch. specialize (Hm s1 s2 Hs).
  destruct (m1 s1) as [[a1|t1|] s1'], (m2 s2) as [[a2|t2|] s2']; try contradiction; auto.
  destruct Hm as [Ht Hs']. apply (Hh t1 t2 Ht s1' s2' Hs').
Qed.

Lemma rel_ret A (RA : A -> A -> Prop) (a1 a2 : A) : RA a1 a2 -> rel RA (ret a1) (ret a2).
Proof. intros H s1 s2 Hs. cbn. auto. Qed.

Lemma rel_throw A (RA : A -> A -> Prop) (t1 t2 : Thrown) :
  thrown_view t1 = thrown_view t2 -> rel RA (throw t1) (throw t2).
Proof. intros H s1 s2 Hs. cbn. auto. Qed.

Lemma rel_clock w : rel whatever (clock w) (clock w).
Proof. intros s1 s2 Hs. cbn. split; [exact I | exact Hs]. Qed.

(** With quiet listeners, two events of progress come back as they were. *)
Lemma rel_emit w em1 em2 ids1 ids2 e1 e2 :
  quiet em1 -> quiet em2 -> progress e1 -> progress e2 ->
  rel (fun a b => a = e1 /\ b = e2) (emit w em1 ids1 e1) (emit w em2 ids2 e2).
Proof.
  intros H1 H2 Hp1 Hp2 s1 s2 (Hr & Hsl & Hb & Hl).
  destruct (@emit_quiet w em1 ids1 e1 s1 H1) as (s1' & -> & Hr1 & Hs1 & Hb1 & Hl1).
  destruct (@emit_quiet w em2 ids2 e2 s2 H2) as (s2' & -> & Hr2 & Hs2 & Hb2 & Hl2).
  split; [split; reflexivity|].
  assert (E1 : final_log e1 = None) by (destruct e1; try reflexivity; contradiction).
  assert (E2 : final_log e2 = None) by (destruct e2; try reflexivity; contradiction).
  rewrite E1 in Hl1. rewrite E2 in Hl2.
  repeat split; congruence.
Qed.

(** A final event refers to the log of the run, which is read just before. *)
Lemma rel_emit_final B (R : B -> B -> Prop) w em1 em2 ids1 ids2
  (mk1 mk2 : ExecutionLog -> EventBody) (k1 k2 : EventBody -> M B) :
  quiet em1 -> quiet em2 ->
  (forall l, final_log (mk1 l) = Some l) -> (forall l, final_log (mk2 l) = Some l) ->
  (forall l1 l2, log_view l1 = log_view l2 -> rel R (k1 (mk1 l1)) (k2 (mk2 l2))) ->
  rel R (l <- get_log ;; bind (emit w em1 ids1 (mk1 l)) k1)
        (l <- get_log ;; bind (emit w em2 ids2 (mk2 l)) k2).
Proof.
  intros H1 H2 Hm1 Hm2 Hk s1 s2 (Hr & Hsl & Hb & Hl). unfold bind, get_log.
  destruct (@emit_quiet w em1 ids1 (mk1 (log s1)) s1 H1) as (s1' & -> & Hr1 & Hs1 & Hb1 & Hl1).
  destruct (@emit_quiet w em2 ids2 (mk2 (log s2)) s2 H2) as (s2' & -> & Hr2 & Hs2 & Hb2 & Hl2).
  apply (Hk (log s1) (log s2) Hl).
  rewrite Hm1 in Hl1. rewrite Hm2 in Hl2.
  assert (E1 : log s1' = log s1) by (rewrite Hl1; now destruct em1).
  assert (E2 : log s2' = log s2) by (rewrite Hl2; now destruct em2).
  repeat split; congruence.
Qed.

Lemma rel_load w name : rel eq (load w name) (load w name).
Proof.
  intros s1 s2 Hs. unfold load. destruct (loadPrompt w name); cbn; auto.
Qed.

Lemma rel_extract w T text (schema : ZodSchema T) :
  rel eq (extract w text schema) (extract w text schema).
Proof.
  intros s1 s2 Hs. unfold extract.
  destruct (extractJSON text (WithSchema schema)); cbn; auto.
Qed.

Lemma rel_banner p : rel whatever (banner p) (banner p).
Proof.
  intros s1 s2 (Hr & Hsl & Hb & Hl). cbn. split; [exact I|].
  repeat split; cbn; congruence.
Qed.

Lemma log_view_add l1 l2 p1 p2 :
  log_view l1 = log_view l2 -> step_view p1 = step_view p2 ->
  log_view (add_step l1 p1) = log_view (add_step l2 p2).
Proof.
  unfold log_view, add_step. cbn. intros [= Hs He Ht] Hp.
  rewrite !map_app. cbn. now rewrite Hs, He, Ht, Hp.
Qed.

Lemma rel_push_step p1 p2 :
  step_view p1 = step_view p2 -> rel whatever (push_step p1) (push_step p2).
Proof.
  intros Hp s1 s2 (Hr & Hsl & Hb & Hl). cbn. split; [exact I|].
  repeat split; cbn; try congruence. now apply log_view_add.
Qed.

Lemma rel_get_log : rel (fun l1 l2 => log_view l1 = log_view l2) get_log get_log.
Proof. intros s1 s2 Hs. cbn. split; [apply Hs | exact Hs]. Qed.

Lemma rel_finalize w : rel whatever (finalize_log w) (finalize_log w).
Proof.
  intros s1 s2 (Hr & Hsl & Hb & Hl). cbn. split; [exact I|].
  repeat split; cbn; try congruence.
  unfold log_view in *. cbn. injection Hl as Hs _ _. now rewrite Hs.
Qed.


Lemma describe_view t1 t2 : thrown_view t1 = thrown_view t2 -> describe t1 = describe t2.
Proof.
  destruct t1 as [[m1|a1] l1|v1], t2 as [[m2|a2] l2|v2]; cbn; intros H;
    try discriminate; injection H; intros; congruence.
Qed.

Lemma attach_view t1 t2 l1 l2 :
  thrown_view t1 = thrown_view t2 -> log_view l1 = log_view l2 ->
  thrown_view (attach t1 l1) = thrown_view (attach t2 l2).
Proof.
  destruct t1 as [e1 a1|v1], t2 as [e2 a2|v2]; cbn; intros H Hl;
    try discriminate; [|exact H].
  injection H as He _. now rewrite He, Hl.
Qed.

Lemma sim_after_attempt w agent prompt options s1 s2 :
  sim s1 s2 ->
  sim (after_attempt w agent prompt options s1) (after_attempt w agent prompt options s2).
Proof.
  intros (Hr & Hsl & Hb & Hl). repeat split; cbn; congruence.
Qed.

Lemma sim_pending_attempt agent req s1 s2 :
  sim s1 s2 -> sim (st_request agent req (st_tick s1)) (st_request agent req (st_tick s2)).
Proof. intros (Hr & Hsl & Hb & Hl). repeat split; cbn; congruence. Qed.

Lemma sim_sleep d s1 s2 : sim s1 s2 -> sim (st_sleep d s1) (st_sleep d s2).
Proof. intros (Hr & Hsl & Hb & Hl). repeat split; cbn; congruence. Qed.

Lemma sim_tick s1 s2 : sim s1 s2 -> sim (st_tick s1) (st_tick s2).
Proof. intros (Hr & Hsl & Hb & Hl). repeat split; cbn; congruence. Qed.

Lemma gives_up_view w agent s1 s2 error :
  thrown_view (gives_up w agent s1 error) = thrown_view (gives_up w agent s2 error).
Proof. reflexivity. Qed.

(** A call of the model does not depend on the clock. *)
Lemma rel_callGemini_from w agent prompt options k : forall attempt,
  rel eq (callGemini_from w k attempt agent prompt options)
         (callGemini_from w k attempt agent prompt options).
Proof.
  induction k as [|k IH]; intros attempt s1 s2 Hs.
  - cbn. split; [reflexivity | now apply sim_tick].
  - rewrite !callGemini_from_S.
    assert (Hlen : List.length (requests s1) = List.length (requests s2))
      by (destruct Hs as (Hr & _); now rewrite Hr).
    rewrite Hlen.
    assert (Hfail : forall error,
               match on_failure w agent prompt options k attempt s1 error,
                     on_failure w agent prompt options k attempt s2 error with
               | (Ok a1, s1'), (Ok a2, s2') => a1 = a2 /\ sim s1' s2'
               | (Throw t1, s1'), (Throw t2, s2') =>
                   thrown_view t1 = thrown_view t2 /\ sim s1' s2'
               | (Pending, s1'), (Pending, s2') => sim s1' s2'
               | _, _ => False
               end).
    { intros error. unfold on_failure.
      destruct ((attempt <? maxRetries) && isRetryableError error).
      - apply IH. now apply sim_sleep, sim_after_attempt.
      - split; [apply gives_up_view | now apply sim_tick, sim_after_attempt]. }
    destruct (remote w (List.length (requests s2)) agent
                (build_request w agent prompt options)) as [r|t|].
    + destruct (response_error r) as [error|]; [apply Hfail|].
      split; [reflexivity | now apply sim_after_attempt].
    + apply Hfail.
    + now apply sim_pending_attempt.
Qed.

Lemma rel_callGemini w agent prompt options :
  rel eq (callGemini w agent prompt options) (callGemini w agent prompt options).
Proof. apply rel_callGemini_from. Qed.

Ltac rpass :=
  eapply rel_bind;
  [ first [ apply rel_clock | apply rel_emit; [assumption | assumption | exact I | exact I]
          | apply rel_load | apply rel_extract | apply rel_callGemini | apply rel_banner
          | apply rel_finalize | apply rel_push_step; reflexivity ]
  | let a := fresh "a" in let b := fresh "b" in let H := fresh "H" in
    intros a b H; cbv beta in H;
    try match type of H with _ = _ /\ _ = _ => destruct H as [-> ->] end;
    try subst b ].

Section ListenerFacts.

Variable w : World.
Variable brief : CreativeBrief.
Variables em1 em2 : option Listener.
Variables ids1 ids2 : RunIds.
Hypothesis Hq1 : quiet em1.
Hypothesis Hq2 : quiet em2.


Lemma rel_specialist_task taskMap spec :
  rel alike_task (specialist_task w em1 brief ids1 taskMap spec)
                 (specialist_task w em2 brief ids2 taskMap spec).
Proof.
  unfold specialist_task. rpass. apply rel_try.
  - repeat rpass. apply rel_ret. split; reflexivity.
  - intros t1 t2 Ht. repeat rpass. apply rel_ret.
    split; [reflexivity|]. unfold step_view. cbn. now rewrite (describe_view _ _ Ht).
Qed.









Lemma rel_catch_block t1 t2 :
  thrown_view t1 = thrown_view t2 ->
  rel alike_result (catch_block w em1 ids1 t1) (catch_block w em2 ids2 t2).
Proof.
  intros Ht. unfold catch_block. rpass. rpass.
  eapply rel_bind;
    [apply rel_push_step; unfold step_view; cbn; now rewrite (describe_view _ _ Ht)|].
  intros _ _ _.
  apply rel_emit_final; try assumption; try reflexivity.
  intros l1 l2 Hl. eapply rel_bind; [apply rel_get_log|].
  intros l1' l2' Hl'. apply rel_throw. now apply attach_view.
Qed.

End ListenerFacts.

Lemma sim_refl s : sim s s.
Proof. repeat split. Qed.


(** ** The listener and the result of a run *)


(** A listener need not throw to change a run.  The event [data:parsed] of
    the planning refers to the task map of the run itself (line 86): a
    listener that empties its list of specialists and returns leaves the
    run without specialists, and the run fails with "All specialists
    failed" after the request of the planning alone. *)
Lemma meddling_listener_changes_run :
  let alone := generateRecipe helpfulWorld exampleBrief None initial in
  let heard := generateRecipe helpfulWorld exampleBrief (Some meddlingListener) initial in
  (forall e, exists after, meddlingListener e = Returns after) /\
  (exists result, fst alone = Ok result) /\
  List.length (requests (snd alone)) = 3%nat /\
  (exists a l, fst heard = Throw (ThrownError (AppErr a) (Some l)) /\
               err_message a = all_failed_message /\
               context a = Some [(js "attemptedSpecialists", JArr [])]) /\
  List.length (requests (snd heard)) = 1%nat.
Proof.
  cbv zeta. split.
  { intros e. unfold meddlingListener. destruct (body e); try (eexists; reflexivity).
    destruct data; eexists; reflexivity. }
  split; [eexists; vm_compute; reflexivity|].
  split; [vm_compute; reflexivity|].
  split; [|vm_compute; reflexivity].
  eexists _, _. split; [vm_compute; reflexivity|]. split; vm_compute; reflexivity.
Qed.



(** ** The prompt loader *)

Lemma trimStart_ws_app l s :
  forallb is_js_ws l = true -> trimStart (l ++ s) = trimStart s.
Proof.
  induction l as [|c l IH]; intros H; [reflexivity|].
  cbn in H. apply andb_true_iff in H. destruct H as [Hc Hl].
  cbn [app trimStart]. rewrite Hc. now apply IH.
Qed.

Lemma trimStart_head s c t : trimStart s = c :: t -> is_js_ws c = false.
Proof.
  induction s as [|x s IH]; cbn [trimStart]; [discriminate|].
  destruct (is_js_ws x) eqn:Hx; [exact IH|]. intros H. now injection H as <- _.
Qed.

Lemma trimStart_fixed c t : is_js_ws c = false -> trimStart (c :: t) = c :: t.
Proof. intros H. cbn [trimStart]. now rewrite H. Qed.

Lemma trimStart_all_ws l : forallb is_js_ws l = true -> trimStart l = [].
Proof.
  intros H. rewrite <- (app_nil_r l). now rewrite trimStart_ws_app.
Qed.

Lemma trimStart_app a b :
  trimStart (a ++ b) = if forallb is_js_ws a then trimStart b else trimStart a ++ b.
Proof.
  induction a as [|c a IH]; [reflexivity|].
  cbn [app trimStart forallb]. destruct (is_js_ws c); [exact IH | reflexivity].
Qed.

Lemma forallb_rev (f : N -> bool) l : forallb f (rev l) = forallb f l.
Proof.
  induction l as [|c l IH]; [reflexivity|].
  cbn [rev forallb]. rewrite forallb_app, IH. cbn. rewrite andb_true_r.
  apply andb_comm.
Qed.

Lemma trimEnd_app a b :
  trimEnd (a ++ b) = if forallb is_js_ws b then trimEnd a else a ++ trimEnd b.
Proof.
  unfold trimEnd. rewrite rev_app_distr, trimStart_app, forallb_rev.
  destruct (forallb is_js_ws b); [reflexivity|].
  now rewrite rev_app_distr, rev_involutive.
Qed.

Lemma trimEnd_all_ws l : forallb is_js_ws l = true -> trimEnd l = [].
Proof.
  intros H. unfold trimEnd. rewrite trimStart_all_ws; [reflexivity|].
  now rewrite forallb_rev.
Qed.

Lemma tight_nil : tight [].
Proof. split; reflexivity. Qed.

Lemma trimStart_idem s : trimStart (trimStart s) = trimStart s.
Proof.
  destruct (trimStart s) as [|c t] eqn:E; [reflexivity|].
  apply trimStart_fixed. exact (trimStart_head _ E).
Qed.

Lemma trimEnd_idem s : trimEnd (trimEnd s) = trimEnd s.
Proof. unfold trimEnd. now rewrite rev_involutive, trimStart_idem. Qed.

Lemma all_ws_dec l : forallb is_js_ws l = true \/ forallb is_js_ws l = false.
Proof. destruct (forallb is_js_ws l); auto. Qed.

Lemma trimStart_nil_ws s : trimStart s = [] -> forallb is_js_ws s = true.
Proof.
  induction s as [|c s IH]; [reflexivity|]. cbn [trimStart forallb].
  destruct (is_js_ws c); [exact IH | discriminate].
Qed.

Lemma trimEnd_nil_ws s : trimEnd s = [] -> forallb is_js_ws s = true.
Proof.
  unfold trimEnd. intros H. rewrite <- forallb_rev. apply trimStart_nil_ws.
  apply (f_equal (@rev N)) in H. now rewrite rev_involutive in H.
Qed.

(** Trimming the start leaves the end as it is. *)
Lemma trimStart_trimEnd s : trimStart (trimEnd s) = trimEnd (trimStart s).
Proof.
  destruct (trimStart_split s) as (l & Hl & Hs).
  destruct (all_ws_dec (trimStart s)) as [Hw|Hw].
  - assert (Hall : forallb is_js_ws s = true).
    { rewrite Hs, forallb_app, Hl, Hw. reflexivity. }
    rewrite (trimEnd_all_ws _ Hall), (trimEnd_all_ws _ Hw). reflexivity.
  - rewrite Hs at 1. rewrite trimEnd_app, Hw, trimStart_app, Hl.
    destruct (trimStart_split (trimEnd (trimStart s))) as (l' & Hl' & Hs').
    destruct (trimStart s) as [|c t] eqn:E; [discriminate|].
    assert (Hc := trimStart_head _ E).
    destruct (trimEnd_split (c :: t)) as (r & Hr & Ht).
    destruct (trimEnd (c :: t)) as [|c' t'] eqn:E'.
    + apply trimEnd_nil_ws in E'. congruence.
    + cbn in Ht. injection Ht as <- _. now apply trimStart_fixed.
Qed.

Lemma trim_tight s : tight (trim s).
Proof.
  unfold tight, trim. split.
  - now rewrite trimStart_trimEnd, trimStart_idem.
  - apply trimEnd_idem.
Qed.

Lemma trim_idem s : trim (trim s) = trim s.
Proof.
  destruct (trim_tight s) as [H1 H2]. unfold trim at 1. now rewrite H1, H2.
Qed.

Lemma trim_all_ws l : forallb is_js_ws l = true -> trim l = [].
Proof. intros H. unfold trim. now rewrite (trimStart_all_ws _ H). Qed.

Lemma trim_split s :
  exists l r, forallb is_js_ws l = true /\ forallb is_js_ws r = true /\
              s = l ++ trim s ++ r.
Proof.
  destruct (trimStart_split s) as (l & Hl & Hs).
  destruct (trimEnd_split (trimStart s)) as (r & Hr & Ht).
  exists l, r. repeat split; auto. unfold trim. now rewrite <- Ht.
Qed.

(** White space around a tight string is what [trim] removes. *)
Lemma trim_around l m r :
  forallb is_js_ws l = true -> forallb is_js_ws r = true -> tight m ->
  trim (l ++ m ++ r) = m.
Proof.
  intros Hl Hr [Hs He]. unfold trim.
  rewrite trimStart_ws_app by exact Hl.
  rewrite <- trimStart_trimEnd, trimEnd_app, Hr, He. exact Hs.
Qed.

Ltac app_norm :=
  repeat first [rewrite <- app_assoc | progress cbn [app]]; reflexivity.

Lemma tight_join m1 gap m2 :
  tight m1 -> tight m2 -> m1 <> [] -> m2 <> [] -> tight (m1 ++ gap ++ m2).
Proof.
  intros [H1 _] [H3 H4] Hn1 Hn2. split.
  - destruct m1 as [|c t]; [congruence|]. cbn [app]. apply trimStart_fixed.
    exact (trimStart_head _ H1).
  - rewrite !app_assoc, trimEnd_app.
    assert (Hw : forallb is_js_ws m2 = false).
    { destruct (forallb is_js_ws m2) eqn:E; [|reflexivity].
      apply trimStart_all_ws in E. rewrite H3 in E. congruence. }
    rewrite Hw, H4. reflexivity.
Qed.

(** The two parts of a text, trimmed, are the trimmed text but for white
    space between them. *)
Lemma trim_parts a b :
  exists gap, forallb is_js_ws gap = true /\ trim (a ++ b) = trim a ++ gap ++ trim b.
Proof.
  destruct (trim_split a) as (la & ra & Hla & Hra & Ha).
  destruct (trim_split b) as (lb & rb & Hlb & Hrb & Hb).
  assert (Ta := trim_tight a). assert (Tb := trim_tight b).
  set (ma := trim a) in *. set (mb := trim b) in *. clearbody ma mb. subst a b.
  destruct ma as [|ca ta].
  - exists []. split; [reflexivity|].
    transitivity (trim ((la ++ ra ++ lb) ++ mb ++ rb)).
    { f_equal. app_norm. }
    cbn [app]. apply trim_around; auto. now rewrite !forallb_app, Hla, Hra, Hlb.
  - destruct mb as [|cb tb].
    + exists []. split; [reflexivity|].
      transitivity (trim (la ++ (ca :: ta) ++ (ra ++ lb ++ rb))).
      { f_equal. app_norm. }
      rewrite !app_nil_r.
      apply trim_around; auto. now rewrite !forallb_app, Hra, Hlb, Hrb.
    + exists (ra ++ lb). split; [now rewrite forallb_app, Hra, Hlb|].
      transitivity (trim (la ++ ((ca :: ta) ++ (ra ++ lb) ++ (cb :: tb)) ++ rb)).
      { f_equal. app_norm. }
      apply trim_around; auto. apply tight_join; auto; discriminate.
Qed.

Lemma startsWith_split p : forall s, startsWith p s = true -> s = p ++ skipn (List.length p) s.
Proof.
  induction p as [|c p IH]; intros s H; [reflexivity|].
  destruct s as [|x s]; [discriminate|]. cbn in H.
  apply andb_true_iff in H. destruct H as [Hc Hp]. apply N.eqb_eq in Hc. subst x.
  cbn. f_equal. now apply IH.
Qed.

Lemma split_at_shape patterns template parts :
  PromptLoader.split_at patterns template = Some parts ->
  exists marker i,
    In marker patterns /\
    PromptLoader.match_index marker template = Some (S i) /\
    parts = mkParts (trim (firstn (S i) template)) (trim (skipn (S i) template)).
Proof.
  induction patterns as [|marker rest IH]; cbn [PromptLoader.split_at]; [discriminate|].
  destruct (PromptLoader.match_index marker template) as [[|i]|] eqn:E.
  - intros H. destruct (IH H) as (m & j & Hin & Hm & Hp). exists m, j. cbn; auto.
  - intros H. injection H as <-. exists marker, i. cbn; auto.
  - intros H. destruct (IH H) as (m & j & Hin & Hm & Hp). exists m, j. cbn; auto.
Qed.

Lemma match_index_found marker : forall template n,
  PromptLoader.match_index marker template = Some n ->
  exists rest, skipn n template = 10%N :: rest /\ startsWith marker rest = true.
Proof.
  induction template as [|c t IH]; intros n; cbn [PromptLoader.match_index];
    [discriminate|].
  destruct (N.eqb c 10 && startsWith marker t) eqn:E.
  - intros H. injection H as <-. apply andb_true_iff in E. destruct E as [Hc Hs].
    apply N.eqb_eq in Hc. subst c. exists t. split; [reflexivity | exact Hs].
  - destruct (PromptLoader.match_index marker t) as [k|]; [|discriminate].
    cbn. intros H. injection H as <-. cbn [skipn]. now apply IH.
Qed.

Lemma match_index_absent marker : forall template,
  includes template (10%N :: marker) = false ->
  PromptLoader.match_index marker template = None.
Proof.
  induction template as [|c t IH]; intros H; [reflexivity|].
  apply includes_cons in H. destruct H as [H1 H2].
  cbn [PromptLoader.match_index]. cbn [startsWith] in H1. rewrite N.eqb_sym, H1.
  now rewrite (IH H2).
Qed.

(** A text that starts with a marker still does once it is trimmed. *)
Lemma marker_survives_trim marker rest :
  In marker PromptLoader.splitPatterns -> startsWith marker rest = true ->
  startsWith marker (trim (10%N :: rest)) = true.
Proof.
  intros Hin Hs.
  assert (Hm : exists c m, marker = c :: m /\ is_js_ws c = false /\ trimEnd marker = marker).
  { cbn in Hin. destruct Hin as [<-|[<-|[<-|[]]]]; eexists _, _;
      (split; [reflexivity|]); split; vm_compute; reflexivity. }
  destruct Hm as (c & m & -> & Hc & He).
  rewrite (startsWith_split _ _ Hs). set (t := skipn _ rest).
  unfold trim. cbn [trimStart]. change (is_js_ws 10) with true. cbn iota.
  change ((c :: m) ++ t) with (c :: (m ++ t)). rewrite (@trimStart_fixed c _ Hc).
  change (c :: m ++ t) with ((c :: m) ++ t). rewrite trimEnd_app.
  destruct (forallb is_js_ws t).
  - rewrite He. rewrite <- (app_nil_r (c :: m)) at 2. apply startsWith_app.
  - apply startsWith_app.
Qed.

(** X1.  [extractSystemInstruction] loses nothing but white space: both
    parts are trimmed, and the system instruction, some white space and the
    task prompt, in this order, are the trimmed template. *)
Theorem split_keeps_the_text (template : jsstring) :
  let parts := PromptLoader.extractSystemInstruction template in
  trim (systemInstruction parts) = systemInstruction parts /\
  trim (taskPrompt parts) = taskPrompt parts /\
  exists gap,
    forallb is_js_ws gap = true /\
    trim template = systemInstruction parts ++ gap ++ taskPrompt parts.
Proof.
  unfold PromptLoader.extractSystemInstruction.
  destruct (PromptLoader.split_at PromptLoader.splitPatterns template) as [parts|] eqn:E.
  - destruct (split_at_shape _ _ E) as (marker & i & _ & _ & ->). cbn [systemInstruction taskPrompt].
    split; [apply trim_idem|]. split; [apply trim_idem|].
    destruct (trim_parts (firstn (S i) template) (skipn (S i) template)) as (gap & Hg & Ht).
    rewrite firstn_skipn in Ht. exists gap. split; assumption.
  - cbn [systemInstruction taskPrompt]. split; [reflexivity|]. split; [apply trim_idem|].
    exists []. split; reflexivity.
Qed.

(** X2.  When the system instruction is not empty, the template was split
    at a line feed followed by one of the three markers, and the task
    prompt starts with that marker. *)
Theorem task_prompt_starts_with_marker (template : jsstring) :
  let parts := PromptLoader.extractSystemInstruction template in
  systemInstruction parts <> [] ->
  exists marker,
    In marker PromptLoader.splitPatterns /\
    includes template (10%N :: marker) = true /\
    startsWith marker (taskPrompt parts) = true.
Proof.
  unfold PromptLoader.extractSystemInstruction.
  destruct (PromptLoader.split_at PromptLoader.splitPatterns template) as [parts|] eqn:E;
    cbn zeta; [|cbn; congruence].
  intros _. destruct (split_at_shape _ _ E) as (marker & i & Hin & Hm & ->).
  destruct (match_index_found _ _ Hm) as (rest & Hrest & Hs).
  exists marker. split; [exact Hin|]. split.
  - destruct (includes template (10%N :: marker)) eqn:Hinc; [reflexivity|].
    rewrite (match_index_absent _ _ Hinc) in Hm. discriminate.
  - cbn [taskPrompt]. rewrite Hrest. now apply marker_survives_trim.
Qed.

Lemma task_prompt_starts_with_marker_witness :
  let template := js "You are a chef." ++ [10%N] ++ js "RECIPE REQUEST:" ++ [10%N] ++ js "{{creativeBrief}}" in
  let parts := PromptLoader.extractSystemInstruction template in
  systemInstruction parts = js "You are a chef." /\
  exists marker,
    In marker PromptLoader.splitPatterns /\
    includes template (10%N :: marker) = true /\
    startsWith marker (taskPrompt parts) = true.
Proof.
  cbv zeta. split; [vm_compute; reflexivity|].
  apply (@task_prompt_starts_with_marker
           (js "You are a chef." ++ [10%N] ++ js "RECIPE REQUEST:" ++ [10%N] ++ js "{{creativeBrief}}")).
  vm_compute. discriminate.
Defined.

(** X3.  A template in which no marker follows a line feed is a task
    prompt as a whole: the system instruction is empty, and the request
    [callGemini] builds with it carries no system instruction. *)
Theorem template_without_marker (template : jsstring) :
  (forall marker, In marker PromptLoader.splitPatterns ->
     includes template (10%N :: marker) = false) ->
  PromptLoader.extractSystemInstruction template = mkParts [] (trim template) /\
  forall w agent prompt,
    req_systemInstruction
      (build_request w agent prompt
         (json_mode (systemInstruction (PromptLoader.extractSystemInstruction template))))
    = None.
Proof.
  intros H.
  assert (E : PromptLoader.extractSystemInstruction template = mkParts [] (trim template)).
  { unfold PromptLoader.extractSystemInstruction, PromptLoader.splitPatterns,
      PromptLoader.split_at.
    rewrite !match_index_absent; [reflexivity| | |]; apply H; cbn; auto. }
  split; [exact E|]. intros w agent prompt. rewrite E. reflexivity.
Qed.

Lemma template_without_marker_witness :
  PromptLoader.extractSystemInstruction (js " You are a cook. ") =
    mkParts [] (js "You are a cook.") /\
  forall w agent prompt,
    req_systemInstruction
      (build_request w agent prompt
         (json_mode (systemInstruction
            (PromptLoader.extractSystemInstruction (js " You are a cook. ")))))
    = None.
Proof.
  apply (@template_without_marker (js " You are a cook. ")).
  intros marker Hin. cbn in Hin.
  destruct Hin as [<-|[<-|[<-|[]]]]; vm_compute; reflexivity.
Defined.

(** *** [renderPrompt] *)

Lemma expand_plain_app before matched behind x r :
  ~ In 36%N x ->
  PromptLoader.expand before matched behind (x ++ r) =
  x ++ PromptLoader.expand before matched behind r.
Proof.
  induction x as [|c x IH]; intros H; [reflexivity|].
  cbn [app PromptLoader.expand].
  destruct (N.eqb c 36) eqn:E.
  - apply N.eqb_eq in E. subst c. exfalso. apply H. now left.
  - f_equal. apply IH. intros Hin. apply H. now right.
Qed.

Lemma expand_plain before matched behind r :
  ~ In 36%N r -> PromptLoader.expand before matched behind r = r.
Proof.
  intros H. rewrite <- (app_nil_r r) at 1.
  rewrite expand_plain_app by exact H. cbn. apply app_nil_r.
Qed.

Lemma replace_from_absent lit r fuel : forall before s,
  includes s lit = false -> PromptLoader.replace_from fuel lit r before s = s.
Proof.
  induction fuel as [|f IH]; intros before s H; [reflexivity|].
  cbn [PromptLoader.replace_from]. rewrite (includes_nil_false _ _ H).
  destruct s as [|c s]; [reflexivity|].
  apply includes_cons in H. now rewrite (IH _ _ (proj2 H)).
Qed.

Lemma skipn_length_le (l : jsstring) n : (List.length (skipn n l) <= List.length l)%nat.
Proof. rewrite length_skipn. lia. Qed.

(** More fuel than the text is long changes nothing. *)
Lemma replace_from_fuel lit r : lit <> [] -> forall f1 f2 before s,
  (List.length s < f1)%nat -> (List.length s < f2)%nat ->
  PromptLoader.replace_from f1 lit r before s =
  PromptLoader.replace_from f2 lit r before s.
Proof.
  intros Hlit. induction f1 as [|f1 IH]; intros f2 before s H1 H2; [lia|].
  destruct f2 as [|f2]; [lia|]. cbn [PromptLoader.replace_from].
  destruct (startsWith lit s) eqn:E.
  - f_equal. apply IH.
    + rewrite length_skipn. destruct lit; [congruence|]. destruct s; [discriminate|].
      cbn [List.length] in *. lia.
    + rewrite length_skipn. destruct lit; [congruence|]. destruct s; [discriminate|].
      cbn [List.length] in *. lia.
  - destruct s as [|c s]; [reflexivity|]. f_equal. apply IH; cbn [List.length] in *; lia.
Qed.

(** A replacement without a dollar sign does not look at the text before
    the match. *)
Lemma replace_from_plain lit r fuel : ~ In 36%N r -> forall b1 b2 s,
  PromptLoader.replace_from fuel lit r b1 s = PromptLoader.replace_from fuel lit r b2 s.
Proof.
  intros Hr. induction fuel as [|f IH]; intros b1 b2 s; [reflexivity|].
  cbn [PromptLoader.replace_from]. destruct (startsWith lit s).
  - rewrite !(@expand_plain _ _ _ _ Hr). f_equal. apply IH.
  - destruct s as [|c s]; [reflexivity|]. f_equal. apply IH.
Qed.

Lemma skipn_app_length (p s : jsstring) : skipn (List.length p) (p ++ s) = s.
Proof. induction p; [reflexivity | exact IHp]. Qed.

(** The scan up to the first occurrence: [a] is copied, provided no
    occurrence starts inside it. *)
Lemma replace_from_first lit r : forall a fuel before b,
  (forall u1 u2, a = u1 ++ u2 -> u2 <> [] -> startsWith lit (u2 ++ lit ++ b) = false) ->
  (List.length a < fuel)%nat ->
  PromptLoader.replace_from fuel lit r before (a ++ lit ++ b) =
  a ++ PromptLoader.expand (rev (rev a ++ before)) lit b r ++
  PromptLoader.replace_from (fuel - List.length a - 1) lit r
    (rev lit ++ rev a ++ before) b.
Proof.
  induction a as [|c a IH]; intros fuel before b Hno Hf.
  - destruct fuel as [|f]; [cbn in Hf; lia|].
    cbn [app PromptLoader.replace_from rev List.length].
    rewrite startsWith_app, skipn_app_length.
    replace (S f - 0 - 1)%nat with f by lia. reflexivity.
  - destruct fuel as [|f]; [cbn in Hf; lia|].
    cbn [app PromptLoader.replace_from].
    assert (E : startsWith lit (c :: a ++ lit ++ b) = false).
    { apply (Hno [] (c :: a)); [reflexivity | discriminate]. }
    rewrite E. cbn [app]. f_equal.
    rewrite IH.
    + cbn [rev List.length]. rewrite <- !app_assoc. cbn [app].
      replace (S f - S (List.length a) - 1)%nat with (f - List.length a - 1)%nat by lia.
      reflexivity.
    + intros u1 u2 Hu Hn. apply (Hno (c :: u1) u2); [cbn; now f_equal | exact Hn].
    + cbn [List.length] in Hf. lia.
Qed.

(** A text [q] without an opening brace that starts a text does not reach
    the first opening brace of that text. *)
Lemma startsWith_before_brace q : forall u t,
  ~ In 123%N q -> startsWith q (u ++ 123%N :: t) = true -> startsWith q u = true.
Proof.
  induction q as [|c q IH]; intros u t Hq H; [reflexivity|].
  destruct u as [|z u]; cbn [app startsWith] in *.
  - apply andb_true_iff in H. destruct H as [Hc _]. apply N.eqb_eq in Hc.
    exfalso. apply Hq. left. now symmetry.
  - apply andb_true_iff in H. destruct H as [Hc H]. rewrite Hc. cbn.
    apply (IH u t); [|exact H]. intros Hin. apply Hq. now right.
Qed.

Lemma word_not_brace key : forallb PromptLoader.is_word key = true -> ~ In 123%N key.
Proof.
  intros H Hin. rewrite forallb_forall in H. specialize (H _ Hin). discriminate.
Qed.

Lemma literal_key_word key :
  PromptLoader.literal_key key = true ->
  forallb PromptLoader.is_word key = true /\ key <> [].
Proof.
  unfold PromptLoader.literal_key. intros H. apply andb_true_iff in H.
  destruct H as [Hw Hd]. split; [exact Hw|]. intros ->. discriminate.
Qed.

(** The placeholder of a literal key does not overlap itself: where a text
    does not contain it, no occurrence starts. *)
Lemma placeholder_first key a b :
  PromptLoader.literal_key key = true ->
  includes a (PromptLoader.placeholder key) = false ->
  forall u1 u2, a = u1 ++ u2 -> u2 <> [] ->
    startsWith (PromptLoader.placeholder key) (u2 ++ PromptLoader.placeholder key ++ b) = false.
Proof.
  intros Hk Ha u1 u2 -> Hn.
  destruct (literal_key_word _ Hk) as [Hw Hne].
  destruct (startsWith (PromptLoader.placeholder key)
              (u2 ++ PromptLoader.placeholder key ++ b)) eqn:E; [|reflexivity].
  exfalso.
  assert (Hu : startsWith (PromptLoader.placeholder key) u2 = true).
  { unfold PromptLoader.placeholder in *.
    change (js "{{" ++ key ++ js "}}") with (123%N :: 123%N :: key ++ js "}}") in *.
    destruct u2 as [|x u2]; [congruence|].
    cbn [app startsWith] in E. apply andb_true_iff in E. destruct E as [Hx E].
    destruct u2 as [|y u2].
    - cbn [app startsWith] in E. apply andb_true_iff in E. destruct E as [_ E].
      destruct key as [|k key]; [congruence|].
      cbn [app startsWith] in E. apply andb_true_iff in E. destruct E as [Hk0 _].
      apply N.eqb_eq in Hk0. subst k. cbn in Hw. discriminate.
    - cbn [app startsWith] in E. apply andb_true_iff in E. destruct E as [Hy E].
      cbn [startsWith]. rewrite Hx, Hy. cbn.
      apply (@startsWith_before_brace (key ++ js "}}") u2 (123%N :: key ++ js "}}" ++ b)).
      + intros Hin. apply in_app_or in Hin. destruct Hin as [Hin|Hin].
        * exact (word_not_brace _ Hw Hin).
        * cbn in Hin. destruct Hin as [Hin|[Hin|[]]]; discriminate.
      + rewrite <- app_assoc in E. exact E. }
  apply includes_here in Hu. apply (includes_app_r u1) in Hu. congruence.
Qed.

Lemma placeholder_not_nil key : PromptLoader.placeholder key <> [].
Proof. discriminate. Qed.

(** One variable, one occurrence: the text up to the first placeholder is
    copied, the expanded replacement follows, and the rest is scanned. *)
Lemma replace_all_first key r a b :
  PromptLoader.literal_key key = true ->
  includes a (PromptLoader.placeholder key) = false ->
  PromptLoader.replace_all (PromptLoader.placeholder key) r
    (a ++ PromptLoader.placeholder key ++ b) =
  a ++ PromptLoader.expand a (PromptLoader.placeholder key) b r ++
  PromptLoader.replace_from (S (List.length b)) (PromptLoader.placeholder key) r
    (rev (a ++ PromptLoader.placeholder key)) b.
Proof.
  intros Hk Ha. unfold PromptLoader.replace_all.
  rewrite replace_from_first.
  - rewrite app_nil_r, rev_involutive. f_equal. f_equal.
    rewrite rev_app_distr.
    assert (Hp : (0 < List.length (PromptLoader.placeholder key))%nat)
      by (unfold PromptLoader.placeholder; cbn; lia).
    apply replace_from_fuel; [apply placeholder_not_nil | | lia].
    rewrite !length_app. lia.
  - now apply placeholder_first.
  - rewrite length_app. lia.
Qed.

Lemma replace_all_absent lit r s :
  includes s lit = false -> PromptLoader.replace_all lit r s = s.
Proof. apply replace_from_absent. Qed.

(** X4.  A template that holds the placeholder of none of the variables
    is returned as it is, whatever the values. *)
Theorem render_without_placeholder (template : jsstring)
  (variables : list (jsstring * PromptLoader.Value)) :
  (forall key value, In (key, value) variables ->
     PromptLoader.literal_key key = true /\
     includes template (PromptLoader.placeholder key) = false) ->
  PromptLoader.renderPrompt template variables = Some template.
Proof.
  induction variables as [|[key value] rest IH]; intros H; [reflexivity|].
  cbn [PromptLoader.renderPrompt].
  destruct (H key value (or_introl eq_refl)) as [Hk Hi].
  rewrite Hk, (@replace_all_absent _ _ _ Hi). apply IH.
  intros k v Hin. apply (H k v). now right.
Qed.

Lemma render_without_placeholder_witness :
  PromptLoader.renderPrompt (js "Plan the {{menu}}.")
    [(js "creativeBrief", PromptLoader.VString (js "$&"))] =
  Some (js "Plan the {{menu}}.").
Proof.
  apply (@render_without_placeholder (js "Plan the {{menu}}.")
           [(js "creativeBrief", PromptLoader.VString (js "$&"))]).
  intros key value [H|[]]. injection H as <- <-.
  split; vm_compute; reflexivity.
Defined.

(** X5.  A value without a dollar sign is inserted as it is at every
    placeholder of its key: the text before the first placeholder is kept,
    the value follows, and the text behind is rendered in the same way. *)
Theorem render_inserts_value (key : jsstring) (value : PromptLoader.Value)
  (a b : jsstring) :
  PromptLoader.literal_key key = true ->
  ~ In 36%N (PromptLoader.replacement_of value) ->
  includes a (PromptLoader.placeholder key) = false ->
  exists rest,
    PromptLoader.renderPrompt b [(key, value)] = Some rest /\
    PromptLoader.renderPrompt (a ++ PromptLoader.placeholder key ++ b) [(key, value)] =
      Some (a ++ PromptLoader.replacement_of value ++ rest).
Proof.
  intros Hk Hv Ha. cbn [PromptLoader.renderPrompt]. rewrite Hk.
  eexists. split; [reflexivity|].
  rewrite (@replace_all_first _ _ _ _ Hk Ha), (@expand_plain _ _ _ _ Hv).
  unfold PromptLoader.replace_all.
  now rewrite (@replace_from_plain _ _ _ Hv _ []).
Qed.

Lemma render_inserts_value_witness :
  exists rest,
    PromptLoader.renderPrompt (js " and {{dish}}.")
      [(js "dish", PromptLoader.VString (js "brioche"))] = Some rest /\
    PromptLoader.renderPrompt
      (js "Bake {{bread}} with " ++ PromptLoader.placeholder (js "dish") ++ js " and {{dish}}.")
      [(js "dish", PromptLoader.VString (js "brioche"))] =
      Some (js "Bake {{bread}} with " ++ js "brioche" ++ rest).
Proof.
  apply (@render_inserts_value (js "dish") (PromptLoader.VString (js "brioche"))
           (js "Bake {{bread}} with ") (js " and {{dish}}.")).
  - reflexivity.
  - cbn. intuition discriminate.
  - vm_compute. reflexivity.
Defined.

Lemma replace_all_once key r a b :
  PromptLoader.literal_key key = true ->
  includes a (PromptLoader.placeholder key) = false ->
  includes b (PromptLoader.placeholder key) = false ->
  PromptLoader.replace_all (PromptLoader.placeholder key) r
    (a ++ PromptLoader.placeholder key ++ b) =
  a ++ PromptLoader.expand a (PromptLoader.placeholder key) b r ++ b.
Proof.
  intros Hk Ha Hb. rewrite (@replace_all_first _ _ _ _ Hk Ha).
  now rewrite (@replace_from_absent _ _ _ _ _ Hb).
Qed.

(** X6.  A dollar sign in a value is read as a replacement pattern.  In a
    template with one placeholder, [$$] leaves a single dollar sign, [$&]
    puts the placeholder back, [$`] repeats the text before the placeholder
    and [$'] the text behind it. *)
Theorem render_reads_dollar_patterns (key a b x y : jsstring) :
  PromptLoader.literal_key key = true ->
  includes a (PromptLoader.placeholder key) = false ->
  includes b (PromptLoader.placeholder key) = false ->
  ~ In 36%N x -> ~ In 36%N y ->
  let render v :=
    PromptLoader.renderPrompt (a ++ PromptLoader.placeholder key ++ b)
      [(key, PromptLoader.VString v)] in
  render (x ++ js "$$" ++ y) = Some (a ++ x ++ js "$" ++ y ++ b) /\
  render (x ++ js "$&" ++ y) = Some (a ++ x ++ PromptLoader.placeholder key ++ y ++ b) /\
  render (x ++ js "$`" ++ y) = Some (a ++ x ++ a ++ y ++ b) /\
  render (x ++ js "$'" ++ y) = Some (a ++ x ++ b ++ y ++ b).
Proof.
  intros Hk Ha Hb Hx Hy render. unfold render.
  cbn [PromptLoader.renderPrompt PromptLoader.replacement_of]. rewrite Hk.
  rewrite !(@replace_all_once _ _ _ _ Hk Ha Hb).
  rewrite !(@expand_plain_app _ _ _ _ _ Hx).
  change (js "$$" ++ y) with (36%N :: 36%N :: y).
  change (js "$&" ++ y) with (36%N :: 38%N :: y).
  change (js "$`" ++ y) with (36%N :: 96%N :: y).
  change (js "$'" ++ y) with (36%N :: 39%N :: y).
  cbn [PromptLoader.expand N.eqb Pos.eqb].
  rewrite !(@expand_plain _ _ _ _ Hy).
  repeat split; f_equal; f_equal; app_norm.
Qed.

Lemma render_reads_dollar_patterns_witness :
  let render v :=
    PromptLoader.renderPrompt
      (js "Brief: " ++ PromptLoader.placeholder (js "creativeBrief") ++ js " End.")
      [(js "creativeBrief", PromptLoader.VString v)] in
  render (js "Cost " ++ js "$$" ++ js "5") =
    Some (js "Brief: " ++ js "Cost " ++ js "$" ++ js "5" ++ js " End.") /\
  render (js "Cost " ++ js "$&" ++ js "5") =
    Some (js "Brief: " ++ js "Cost " ++ PromptLoader.placeholder (js "creativeBrief") ++
          js "5" ++ js " End.") /\
  render (js "Cost " ++ js "$`" ++ js "5") =
    Some (js "Brief: " ++ js "Cost " ++ js "Brief: " ++ js "5" ++ js " End.") /\
  render (js "Cost " ++ js "$'" ++ js "5") =
    Some (js "Brief: " ++ js "Cost " ++ js " End." ++ js "5" ++ js " End.").
Proof.
  apply (@render_reads_dollar_patterns (js "creativeBrief") (js "Brief: ") (js " End.")
           (js "Cost ") (js "5")).
  - reflexivity.
  - vm_compute. reflexivity.
  - vm_compute. reflexivity.
  - cbn. intuition discriminate.
  - cbn. intuition discriminate.
Defined.

Lemma placeholder_no_dollar key :
  forallb PromptLoader.is_word key = true -> ~ In 36%N (PromptLoader.placeholder key).
Proof.
  intros Hw Hin. unfold PromptLoader.placeholder in Hin.
  apply in_app_or in Hin. destruct Hin as [Hin|Hin].
  { cbn in Hin. destruct Hin as [Hin|[Hin|[]]]; discriminate. }
  apply in_app_or in Hin. destruct Hin as [Hin|Hin].
  - rewrite forallb_forall in Hw. specialize (Hw _ Hin). discriminate.
  - cbn in Hin. destruct Hin as [Hin|[Hin|[]]]; discriminate.
Qed.

(** X7.  The variables are substituted one after the other, in the order
    of the entries: a placeholder that comes in with the value of one
    variable is replaced by the variables behind it, and by no other. *)
Theorem render_is_sequential (k1 k2 : jsstring) (v2 : PromptLoader.Value)
  (a b x y : jsstring) :
  PromptLoader.literal_key k1 = true -> PromptLoader.literal_key k2 = true ->
  includes a (PromptLoader.placeholder k1) = false ->
  includes b (PromptLoader.placeholder k1) = false ->
  includes (a ++ PromptLoader.placeholder k1 ++ b) (PromptLoader.placeholder k2) = false ->
  includes (a ++ x) (PromptLoader.placeholder k2) = false ->
  includes (y ++ b) (PromptLoader.placeholder k2) = false ->
  ~ In 36%N x -> ~ In 36%N y -> ~ In 36%N (PromptLoader.replacement_of v2) ->
  let template := a ++ PromptLoader.placeholder k1 ++ b in
  let v1 := PromptLoader.VString (x ++ PromptLoader.placeholder k2 ++ y) in
  PromptLoader.renderPrompt template [(k1, v1); (k2, v2)] =
    Some (a ++ x ++ PromptLoader.replacement_of v2 ++ y ++ b) /\
  PromptLoader.renderPrompt template [(k2, v2); (k1, v1)] =
    Some (a ++ x ++ PromptLoader.placeholder k2 ++ y ++ b).
Proof.
  intros Hk1 Hk2 Ha Hb Hab Hax Hyb Hx Hy Hv template v1. unfold template, v1.
  assert (Hv1 : ~ In 36%N (x ++ PromptLoader.placeholder k2 ++ y)).
  { intros Hin. apply in_app_or in Hin. destruct Hin as [Hin|Hin]; [auto|].
    apply in_app_or in Hin. destruct Hin as [Hin|Hin]; [|auto].
    exact (@placeholder_no_dollar k2 (proj1 (@literal_key_word k2 Hk2)) Hin). }
  cbn [PromptLoader.renderPrompt PromptLoader.replacement_of]. rewrite Hk1, Hk2.
  split.
  - rewrite (@replace_all_once _ _ _ _ Hk1 Ha Hb), (@expand_plain _ _ _ _ Hv1).
    replace (a ++ (x ++ PromptLoader.placeholder k2 ++ y) ++ b)
      with ((a ++ x) ++ PromptLoader.placeholder k2 ++ (y ++ b)) by app_norm.
    rewrite (@replace_all_once _ _ _ _ Hk2 Hax Hyb), (@expand_plain _ _ _ _ Hv).
    f_equal. app_norm.
  - rewrite (@replace_all_absent _ _ _ Hab).
    rewrite (@replace_all_once _ _ _ _ Hk1 Ha Hb), (@expand_plain _ _ _ _ Hv1).
    f_equal. app_norm.
Qed.

Lemma render_is_sequential_witness :
  let template := js "Brief: " ++ PromptLoader.placeholder (js "creativeBrief") ++ js " End." in
  let v1 := PromptLoader.VString
              (js "Brioche " ++ PromptLoader.placeholder (js "responsibilities") ++ js "!") in
  let v2 := PromptLoader.VOther (Some (js "[]")) in
  PromptLoader.renderPrompt template [(js "creativeBrief", v1); (js "responsibilities", v2)] =
    Some (js "Brief: " ++ js "Brioche " ++ js "[]" ++ js "!" ++ js " End.") /\
  PromptLoader.renderPrompt template [(js "responsibilities", v2); (js "creativeBrief", v1)] =
    Some (js "Brief: " ++ js "Brioche " ++ PromptLoader.placeholder (js "responsibilities") ++
          js "!" ++ js " End.").
Proof.
  apply (@render_is_sequential (js "creativeBrief") (js "responsibilities")
           (PromptLoader.VOther (Some (js "[]")))
           (js "Brief: ") (js " End.") (js "Brioche ") (js "!"));
    try (vm_compute; reflexivity); cbn; intuition discriminate.
Defined.

(** ** More on the extractor *)

Lemma includes_suffix l s p : includes (l ++ s) p = false -> includes s p = false.
Proof.
  intros H. destruct (includes s p) eqn:E; [|reflexivity].
  apply (includes_app_r l) in E. congruence.
Qed.

(** A text [q] without white space that starts a text does not reach the
    white space behind it. *)
Lemma startsWith_before_ws q : forall u w,
  forallb (fun c => negb (is_js_ws c)) q = true -> forallb is_js_ws w = true ->
  startsWith q (u ++ w) = true -> startsWith q u = true.
Proof.
  induction q as [|c q IH]; intros u w Hq Hw H; [reflexivity|].
  cbn [forallb] in Hq. apply andb_true_iff in Hq. destruct Hq as [Hc Hq].
  destruct u as [|z u]; cbn [app startsWith] in *.
  - destruct w as [|x w]; [discriminate|]. cbn [startsWith forallb] in *.
    apply andb_true_iff in H. destruct H as [Hx _]. apply N.eqb_eq in Hx. subst x.
    apply andb_true_iff in Hw. destruct Hw as [Hw _]. rewrite Hw in Hc. discriminate.
  - apply andb_true_iff in H. destruct H as [Hz H]. rewrite Hz. cbn.
    now apply (IH u w).
Qed.

Lemma includes_ws_tail s p w :
  p <> [] -> forallb (fun c => negb (is_js_ws c)) p = true ->
  forallb is_js_ws w = true ->
  includes s p = false -> includes (s ++ w) p = false.
Proof.
  intros Hp Hq Hw. induction s as [|c s IH]; intros H.
  - cbn [app]. clear H. induction w as [|x w IHw].
    + destruct p; [congruence | reflexivity].
    + cbn [forallb] in Hw. apply andb_true_iff in Hw. destruct Hw as [Hx Hw].
      cbn [includes]. rewrite (IHw Hw), orb_false_r.
      destruct p as [|c p]; [congruence|]. cbn [startsWith forallb] in *.
      apply andb_true_iff in Hq. destruct Hq as [Hc _].
      destruct (N.eqb c x) eqn:E; [|reflexivity].
      apply N.eqb_eq in E. subst x. rewrite Hx in Hc. discriminate.
  - apply includes_cons in H. destruct H as [H1 H2].
    cbn [app includes]. rewrite (IH H2), orb_false_r.
    destruct (startsWith p (c :: s ++ w)) eqn:E; [|reflexivity].
    apply (@startsWith_before_ws p (c :: s) w Hq Hw) in E. congruence.
Qed.

Lemma closes_ws_tail s w :
  forallb is_js_ws w = true -> closes (s ++ w) = closes s.
Proof.
  intros Hw. unfold closes. rewrite trimStart_app.
  destruct (forallb is_js_ws s) eqn:E.
  - rewrite (@trimStart_all_ws _ Hw), (@trimStart_all_ws _ E). reflexivity.
  - destruct (trimStart s) as [|c t] eqn:Et; [|reflexivity].
    apply trimStart_nil_ws in Et. congruence.
Qed.

Lemma has_trailing_comma_suffix l s :
  has_trailing_comma (l ++ s) = false -> has_trailing_comma s = false.
Proof.
  induction l as [|c l IH]; intros H; [exact H|].
  cbn [app has_trailing_comma] in H. apply orb_false_iff in H. now apply IH.
Qed.

Lemma has_trailing_comma_ws w :
  forallb is_js_ws w = true -> has_trailing_comma w = false.
Proof.
  induction w as [|c w IH]; intros H; [reflexivity|].
  cbn [forallb] in H. apply andb_true_iff in H. destruct H as [Hc Hw].
  cbn [has_trailing_comma]. rewrite (IH Hw), orb_false_r.
  destruct (N.eqb c 44) eqn:E; [|reflexivity].
  apply N.eqb_eq in E. subst c. discriminate.
Qed.

Lemma has_trailing_comma_ws_tail s w :
  forallb is_js_ws w = true ->
  has_trailing_comma s = false -> has_trailing_comma (s ++ w) = false.
Proof.
  intros Hw. induction s as [|c s IH]; intros H.
  - now apply has_trailing_comma_ws.
  - cbn [has_trailing_comma] in H. apply orb_false_iff in H. destruct H as [H1 H2].
    cbn [app has_trailing_comma]. rewrite (IH H2), orb_false_r.
    now rewrite (@closes_ws_tail s w Hw).
Qed.

(** White space alone is no JSON text. *)
Lemma JSON_parse_ws s : forallb is_js_ws s = true -> JSON_parse s = None.
Proof.
  intros H. destruct (JSON_parse s) as [v|] eqn:E; [|reflexivity].
  unfold JSON_parse in E. rewrite <- (app_nil_r s) in E.
  apply (@leading_ws s [] v H) in E. discriminate.
Qed.

(** The search for a fence passes over a text without a backtick. *)
Lemma remove_marker_pass lit : forall a fuel rest,
  ~ In 96%N a -> (List.length a <= fuel)%nat ->
  remove_marker (96%N :: lit) fuel (a ++ rest) =
  a ++ remove_marker (96%N :: lit) (fuel - List.length a) rest.
Proof.
  induction a as [|c a IH]; intros fuel rest Ha Hf.
  - cbn [app List.length]. now rewrite Nat.sub_0_r.
  - destruct fuel as [|f]; [cbn in Hf; lia|].
    cbn [app remove_marker startsWith].
    assert (E : N.eqb 96 c = false).
    { apply N.eqb_neq. intros <-. apply Ha. now left. }
    rewrite E. cbn [andb]. f_equal. cbn [List.length Nat.sub].
    apply IH; [intros Hin; apply Ha; now right | cbn in Hf; lia].
Qed.

Lemma remove_marker_S lit f s :
  remove_marker lit (S f) s =
  if startsWith lit s then remove_marker lit f (trimStart (skipn (List.length lit) s))
  else match s with
       | [] => []
       | c :: s' => c :: remove_marker lit f s'
       end.
Proof. reflexivity. Qed.

Lemma remove_marker_nil lit fuel : lit <> [] -> remove_marker lit fuel [] = [].
Proof. intros H. destruct fuel, lit; try congruence; reflexivity. Qed.

Lemma ws_no_backtick w : forallb is_js_ws w = true -> ~ In 96%N w.
Proof.
  intros H Hin. rewrite forallb_forall in H. specialize (H _ Hin). discriminate.
Qed.

(** The closing fence with the white space behind it holds no opening
    fence. *)
Lemma closing_fence_plain w :
  forallb is_js_ws w = true -> includes (js "```" ++ w) (js "```json") = false.
Proof.
  intros Hw.
  assert (Hws : forall v, forallb is_js_ws v = true -> includes v (js "```json") = false).
  { induction v as [|c v IHv]; intros Hv; [reflexivity|].
    cbn [forallb] in Hv. apply andb_true_iff in Hv. destruct Hv as [Hc Hv].
    cbn [includes]. rewrite (IHv Hv), orb_false_r.
    change (js "```json") with (96%N :: js "``json"). cbn [startsWith].
    destruct (N.eqb 96 c) eqn:E; [|reflexivity].
    apply N.eqb_eq in E. subst c. discriminate. }
  change (js "```" ++ w) with (96%N :: 96%N :: 96%N :: w).
  cbn [includes]. rewrite (Hws w Hw), !orb_false_r.
  change (js "```json") with (96%N :: 96%N :: 96%N :: 106%N :: js "son").
  destruct w as [|c w]; [reflexivity|].
  cbn [forallb] in Hw. apply andb_true_iff in Hw. destruct Hw as [Hc _].
  assert (E : N.eqb 106 c = false).
  { apply N.eqb_neq. intros <-. discriminate. }
  assert (E2 : N.eqb 96 c = false).
  { apply N.eqb_neq. intros <-. discriminate. }
  cbn [startsWith]. rewrite !N.eqb_refl, E, E2. reflexivity.
Qed.

Lemma fenced_clean ws1 body ws2 ws3 :
  forallb is_js_ws ws1 = true -> forallb is_js_ws ws2 = true ->
  forallb is_js_ws ws3 = true ->
  plain_block body -> forallb is_js_ws body = false ->
  clean (js "```json" ++ ws1 ++ body ++ ws2 ++ js "```" ++ ws3) = trimStart body ++ ws2.
Proof.
  intros H1 H2 H3 (Hb & Hl & Hc & Ht) Hbody.
  destruct (trimStart_split body) as (lb & Hlb & Hsplit).
  set (body0 := trimStart body) in *.
  assert (Hb0 : ~ In 96%N (body0 ++ ws2)).
  { intros Hin. apply in_app_or in Hin. destruct Hin as [Hin|Hin].
    - apply Hb. rewrite Hsplit. apply in_or_app. now right.
    - exact (ws_no_backtick _ H2 Hin). }
  assert (Hfirst : remove_marker (js "```json")
                     (List.length (js "```json" ++ ws1 ++ body ++ ws2 ++ js "```" ++ ws3))
                     (js "```json" ++ ws1 ++ body ++ ws2 ++ js "```" ++ ws3)
                   = body0 ++ ws2 ++ js "```" ++ ws3).
  { rewrite length_app. change (List.length (js "```json")) with 7%nat.
    change (7 + ?n)%nat with (S (6 + n)). rewrite remove_marker_S, startsWith_app.
    change (List.length (js "```json")) with 7%nat.
    change (skipn 7 (js "```json" ++ ws1 ++ body ++ ws2 ++ js "```" ++ ws3))
      with (ws1 ++ body ++ ws2 ++ js "```" ++ ws3).
    rewrite (@trimStart_ws_app ws1 _ H1), trimStart_app, Hbody. fold body0.
    replace (body0 ++ ws2 ++ js "```" ++ ws3) with ((body0 ++ ws2) ++ js "```" ++ ws3)
      by app_norm.
    change (js "```json") with (96%N :: js "``json").
    rewrite (@remove_marker_pass (js "``json") (body0 ++ ws2)); [|exact Hb0 |].
    - f_equal. apply remove_marker_absent. now apply closing_fence_plain.
    - rewrite !length_app. rewrite Hsplit. rewrite !length_app. lia. }
  unfold clean, remove_fences. rewrite Hfirst.
  assert (Hsecond : remove_marker (js "```")
                      (List.length (body0 ++ ws2 ++ js "```" ++ ws3))
                      (body0 ++ ws2 ++ js "```" ++ ws3) = body0 ++ ws2).
  { replace (body0 ++ ws2 ++ js "```" ++ ws3) with ((body0 ++ ws2) ++ js "```" ++ ws3)
      by app_norm.
    change (remove_marker (js "```")) with (remove_marker (96%N :: js "``")).
    rewrite (@remove_marker_pass (js "``") (body0 ++ ws2)); [|exact Hb0 | rewrite !length_app; lia].
    rewrite !length_app. change (List.length (js "```")) with 3%nat.
    replace (List.length body0 + List.length ws2 + (3 + List.length ws3)
             - (List.length body0 + List.length ws2))%nat
      with (S (2 + List.length ws3)) by lia.
    rewrite remove_marker_S. change (96%N :: js "``") with (js "```").
    rewrite startsWith_app. change (List.length (js "```")) with 3%nat.
    change (skipn 3 (js "```" ++ ws3)) with ws3.
    rewrite (@trimStart_all_ws _ H3), remove_marker_nil by discriminate.
    apply app_nil_r. }
  rewrite Hsecond.
  assert (Hl0 : includes (body0 ++ ws2) (js "//") = false).
  { apply includes_ws_tail; [discriminate | reflexivity | exact H2 |].
    rewrite Hsplit in Hl. exact (includes_suffix _ _ _ Hl). }
  assert (Hc0 : includes (body0 ++ ws2) (js "/*") = false).
  { apply includes_ws_tail; [discriminate | reflexivity | exact H2 |].
    rewrite Hsplit in Hc. exact (includes_suffix _ _ _ Hc). }
  rewrite (remove_line_comments_absent _ _ Hl0), (remove_block_comments_absent _ _ Hc0).
  apply remove_trailing_commas_absent. apply has_trailing_comma_ws_tail; [exact H2|].
  rewrite Hsplit in Ht. exact (has_trailing_comma_suffix _ _ Ht).
Qed.

(** [trim] of the cleaned block is [trim] of the block. *)
Lemma trim_block body ws2 :
  forallb is_js_ws ws2 = true -> trim (trimStart body ++ ws2) = trim body.
Proof.
  intros H2. unfold trim. rewrite trimStart_app.
  destruct (forallb is_js_ws (trimStart body)) eqn:E.
  - rewrite (@trimStart_all_ws _ H2), <- (trimStart_idem body), (@trimStart_all_ws _ E).
    reflexivity.
  - rewrite trimStart_idem, trimEnd_app, H2. reflexivity.
Qed.

(** What the [try] block makes of a parsed value that is no array. *)
Lemma direct_parse_value T (schema : Schema T) cleaned parsed :
  JSON_parse (trim cleaned) = Some parsed -> isArray parsed = false ->
  direct_parse schema cleaned = validated schema parsed.
Proof.
  intros Hp Ha. unfold direct_parse. rewrite Hp.
  destruct parsed; try reflexivity. discriminate.
Qed.

Lemma validated_with T (schema : ZodSchema T) parsed :
  validated (WithSchema schema) parsed =
  match schema parsed with
  | ZodOk v => inr v
  | ZodError issues => inl (ZodErr issues)
  end.
Proof. reflexivity. Qed.

Lemma extracted_by_direct_parse text parsed :
  JSON_parse (trim (clean text)) = Some parsed -> isArray parsed = false ->
  extracted_as text parsed.
Proof.
  intros Hp Ha. split.
  - unfold extractJSON. now rewrite (@direct_parse_value _ NoSchema _ _ Hp Ha).
  - intros T schema. unfold extractJSON.
    rewrite (@direct_parse_value _ (WithSchema schema) _ _ Hp Ha), validated_with.
    now destruct (schema parsed).
Qed.

(** X8.  A JSON text between code fences, with white space around it, is
    extracted as the text alone would be: its value, when it is no array,
    is validated and returned. *)
Theorem fenced_block_extracted (ws1 body ws2 ws3 : jsstring) (parsed : Json) :
  forallb is_js_ws ws1 = true -> forallb is_js_ws ws2 = true ->
  forallb is_js_ws ws3 = true ->
  plain_block body -> JSON_parse body = Some parsed -> isArray parsed = false ->
  extracted_as (js "```json" ++ ws1 ++ body ++ ws2 ++ js "```" ++ ws3) parsed.
Proof.
  intros H1 H2 H3 Hb Hp Ha. apply extracted_by_direct_parse; [|exact Ha].
  assert (Hbody : forallb is_js_ws body = false).
  { destruct (forallb is_js_ws body) eqn:E; [|reflexivity].
    rewrite (@JSON_parse_ws _ E) in Hp. discriminate. }
  rewrite (@fenced_clean ws1 body ws2 ws3 H1 H2 H3 Hb Hbody), (@trim_block body ws2 H2).
  now apply JSON_parse_trim.
Qed.

Lemma fenced_block_extracted_witness :
  extracted_as (js "```json" ++ [10%N] ++ pageText ++ [10%N] ++ js "```" ++ [])
    (JObj [(js "specialist", JStr (js "boulanger")); (js "section", JStr (js "Dough"));
           (js "notes", JStr (js "Knead well"))]).
Proof.
  apply (@fenced_block_extracted [10%N] pageText [10%N] []);
    try reflexivity.
  unfold plain_block. split; [|repeat split; vm_compute; reflexivity].
  vm_compute. intuition discriminate.
Defined.

(** X9.  In a text that the cleaning leaves as it is (no code fence, no
    comment mark, no comma before a closing bracket), an array with a
    single element stands for its element: the element, when it is no
    array itself, is validated and returned. *)
Theorem single_element_unwrapped (text : jsstring) (only : Json) :
  untouched text -> JSON_parse text = Some (JArr [only]) -> isArray only = false ->
  extracted_as text only.
Proof.
  intros Hu Hp Ha.
  assert (Hd : forall T (schema : Schema T),
             direct_parse schema (clean text) = validated schema only).
  { intros T schema. unfold direct_parse.
    rewrite (@clean_untouched _ Hu), (@JSON_parse_trim _ _ Hp).
    destruct only; try reflexivity. discriminate. }
  split.
  - unfold extractJSON. now rewrite Hd.
  - intros T schema. unfold extractJSON. rewrite Hd, validated_with.
    now destruct (schema only).
Qed.

Lemma single_element_unwrapped_witness :
  extracted_as (js "[" ++ pageText ++ js "]")
    (JObj [(js "specialist", JStr (js "boulanger")); (js "section", JStr (js "Dough"));
           (js "notes", JStr (js "Knead well"))]).
Proof.
  apply (@single_element_unwrapped (js "[" ++ pageText ++ js "]")).
  - unfold untouched. repeat split; vm_compute; reflexivity.
  - vm_compute. reflexivity.
  - reflexivity.
Defined.

Lemma from_first_skip c pre rest :
  ~ In c pre -> from_first c (pre ++ c :: rest) = Some (c :: rest).
Proof.
  induction pre as [|x pre IH]; intros H; cbn [app from_first].
  - now rewrite N.eqb_refl.
  - assert (E : N.eqb x c = false).
    { apply N.eqb_neq. intros ->. apply H. now left. }
    rewrite E. apply IH. intros Hin. apply H. now right.
Qed.

Lemma through_last_skip c inner post :
  ~ In c post -> through_last c (inner ++ [c] ++ post) = Some (inner ++ [c]).
Proof.
  intros H. unfold through_last.
  rewrite !rev_app_distr. cbn [rev app]. rewrite <- app_assoc. cbn [app].
  rewrite from_first_skip.
  - cbn [rev]. now rewrite rev_involutive.
  - intros Hin. apply H. now apply in_rev.
Qed.

Lemma match_object_found pre inner post :
  ~ In 123%N pre -> ~ In 125%N post ->
  match_object (pre ++ (123%N :: inner ++ [125%N]) ++ post) =
  Some (123%N :: inner ++ [125%N]).
Proof.
  intros Hpre Hpost. unfold match_object.
  cbn [app]. rewrite (@from_first_skip 123%N pre _ Hpre).
  rewrite <- app_assoc, (@through_last_skip 125%N inner post Hpost). reflexivity.
Qed.

(** X10.  In a text that the cleaning leaves as it is (no code fence, no
    comment mark, no comma before a closing bracket), an object in the
    middle of prose is found by the search: when the text as a whole is no
    JSON, what lies between its first opening brace and its last closing
    brace is parsed, validated and returned. *)
Theorem object_in_prose_extracted (pre inner post : jsstring) (parsed : Json) :
  let object := 123%N :: inner ++ [125%N] in
  let text := pre ++ object ++ post in
  untouched text -> ~ In 123%N pre -> ~ In 125%N post ->
  JSON_parse (trim text) = None -> JSON_parse object = Some parsed ->
  extracted_as text parsed.
Proof.
  intros object text Hu Hpre Hpost Hnone Hp.
  assert (Hd : forall T (schema : Schema T),
             extractJSON text schema =
             match validated schema parsed with
             | inr v => inr v
             | inl (ZodErr issues) => inl (ValidationFailed issues)
             | inl _ => inl (ExtractionFailed object text)
             end).
  { intros T schema. unfold extractJSON, direct_parse, fallback.
    rewrite (@clean_untouched _ Hu), Hnone. unfold text, object.
    rewrite (@match_object_found pre inner post Hpre Hpost).
    fold object. rewrite Hp. reflexivity. }
  split.
  - now rewrite Hd.
  - intros T schema. rewrite Hd, validated_with. now destruct (schema parsed).
Qed.

Lemma object_in_prose_extracted_witness :
  extracted_as
    (js "Here is the page: " ++ (123%N :: jsq "'specialist':'boulanger','section':'Dough','notes':'Knead well'" ++ [125%N]) ++ js " Enjoy!")
    (JObj [(js "specialist", JStr (js "boulanger")); (js "section", JStr (js "Dough"));
           (js "notes", JStr (js "Knead well"))]).
Proof.
  apply (@object_in_prose_extracted (js "Here is the page: ")
           (jsq "'specialist':'boulanger','section':'Dough','notes':'Knead well'")
           (js " Enjoy!")).
  - unfold untouched. repeat split; vm_compute; reflexivity.
  - vm_compute. intuition discriminate.
  - vm_compute. intuition discriminate.
  - vm_compute. reflexivity.
  - vm_compute. reflexivity.
Defined.

(** ** The search returns objects *)

Lemma objectish_bottom stack mode : bottom_object stack = true -> objectish (stack, mode).
Proof.
  intros H. destruct stack as [|f rest]; [discriminate|].
  destruct mode; try exact H; try exact I.
Qed.

Lemma objectish_failed : objectish failed.
Proof. exact I. Qed.

Lemma bottom_push f stack : bottom_object stack = true -> bottom_object (f :: stack) = true.
Proof. destruct stack; [discriminate | intros H; exact H]. Qed.

Lemma objectish_pop_after f rest ms :
  bottom_object (f :: rest) = true -> objectish (rest, MAfter (JObj ms)).
Proof.
  destruct rest as [|g rest]; [intros _; exact I|]. intros H. exact H.
Qed.

Lemma objectish_pop_key f rest done :
  bottom_object (f :: rest) = true -> objectish (rest, MKey done).
Proof.
  destruct rest as [|g rest]; [intros _; exact I|]. intros H. exact H.
Qed.

Lemma objectish_after_value stack v c :
  bottom_object stack = true -> objectish (after_value stack v c).
Proof.
  intros H. unfold after_value.
  destruct (classify c), stack as [|[done|done key] [|g rest]];
    cbn in *; try exact I; try discriminate; exact H.
Qed.

Lemma objectish_value_start stack c :
  bottom_object stack = true -> objectish (value_start stack c).
Proof.
  intros H. unfold value_start.
  destruct (classify c); try exact I; try (now apply objectish_bottom).
  destruct (N.eqb c 116); [now apply objectish_bottom|].
  destruct (N.eqb c 102); [now apply objectish_bottom|].
  destruct (N.eqb c 110); [now apply objectish_bottom | exact I].
Qed.

Lemma objectish_number_step stack p a c :
  bottom_object stack = true -> objectish (number_step stack p a c).
Proof.
  intros H. unfold number_step.
  assert (Hf : objectish (if accepting p then after_value stack (number_of a) c else failed)).
  { destruct (accepting p); [now apply objectish_after_value | exact I]. }
  destruct p, (classify c); try exact Hf; try (now apply objectish_bottom);
    destruct (is_e c); try exact Hf; now apply objectish_bottom.
Qed.

Lemma objectish_step m c : objectish m -> objectish (step m c).
Proof.
  destruct m as [stack mode]. intros H.
  destruct stack as [|f rest].
  - destruct mode; cbn [objectish bottom_object] in H; try discriminate; cbn [step];
      try (destruct v; try discriminate; unfold after_value);
      try (destruct (string_step acc esc c) as [[[acc' esc']|key]|]);
      try (destruct (classify c)); try exact I; reflexivity.
  - assert (Hb : mode = MError \/ bottom_object (f :: rest) = true).
    { destruct mode; auto. }
    destruct Hb as [->|Hb]; [exact I|]. clear H.
    destruct mode; cbn [step].
    + now apply objectish_value_start.
    + destruct (classify c); try (now apply objectish_bottom);
        apply objectish_value_start; now apply bottom_push.
    + destruct (classify c); try exact I; now apply objectish_bottom.
    + destruct (classify c); try exact I; now apply objectish_bottom.
    + destruct (string_step acc esc c) as [[[acc' esc']|key]|]; try exact I;
        now apply objectish_bottom.
    + destruct (classify c); try exact I; now apply objectish_bottom.
    + destruct (string_step acc esc c) as [[[acc' esc']|s]|]; try exact I;
        now apply objectish_bottom.
    + now apply objectish_number_step.
    + destruct (nth_error (literal_text l) pos); [|exact I].
      destruct (N.eqb c n); [|exact I].
      destruct (Nat.eqb (S pos) (List.length (literal_text l)));
        now apply objectish_bottom.
    + now apply objectish_after_value.
    + exact I.
Qed.

Lemma objectish_run s : forall m, objectish m -> objectish (run m s).
Proof.
  induction s as [|c s IH]; intros m H; [exact H|].
  cbn [run fold_left]. apply IH. now apply objectish_step.
Qed.

Lemma objectish_finish m v : objectish m -> finish m = Some v -> exists ms, v = JObj ms.
Proof.
  destruct m as [[|f rest] mode]; destruct mode; cbn; try discriminate.
  - destruct v0; try discriminate. intros _ H. injection H as <-. eexists. reflexivity.
Qed.

(** A text that starts with an opening brace parses to an object, if at
    all. *)
Lemma JSON_parse_brace s v :
  JSON_parse (123%N :: s) = Some v -> exists ms, v = JObj ms.
Proof.
  unfold JSON_parse. cbn [run fold_left]. intros H.
  assert (Ho : objectish (run (step ([], MValue) 123) s)).
  { apply objectish_run. exact I. }
  exact (@objectish_finish _ v Ho H).
Qed.

Lemma match_object_brace s m : match_object s = Some m -> exists t, m = 123%N :: t.
Proof.
  unfold match_object.
  assert (Hf : forall x r, from_first 123 x = Some r -> exists t, r = 123%N :: t).
  { induction x as [|c x IH]; cbn [from_first]; [discriminate|].
    destruct (N.eqb c 123) eqn:E; [|exact (IH)].
    intros r H. injection H as <-. apply N.eqb_eq in E. subst c. eexists. reflexivity. }
  destruct (from_first 123 s) as [[|b body]|] eqn:E; try discriminate.
  destruct (Hf _ _ E) as (t & Ht). injection Ht as -> ->.
  destruct (through_last 125 t); [|discriminate].
  intros H. injection H as <-. eexists. reflexivity.
Qed.

(** X11.  Without a schema, [extractJSON] never returns an array: what the
    [try] block returns is no array, and what the search returns is an
    object. *)
Theorem extraction_never_an_array (text : jsstring) (v : Json) :
  extractJSON text NoSchema = inr v ->
  isArray v = false /\
  (direct_parse NoSchema (clean text) <> inr v -> exists ms, v = JObj ms).
Proof.
  unfold extractJSON. intros H.
  destruct (direct_parse NoSchema (clean text)) as [e|v'] eqn:Ed.
  - assert (Hs : fallback NoSchema text (clean text) = inr v).
    { destruct e; [exact H | discriminate | exact H]. }
    clear H. unfold fallback in Hs.
    destruct (match_object (clean text)) as [matched|] eqn:Em; [|discriminate].
    destruct (match_object_brace _ Em) as (t & ->).
    destruct (JSON_parse (123%N :: t)) as [parsed|] eqn:Ep; [|discriminate].
    cbn [validated] in Hs. injection Hs as <-.
    destruct (JSON_parse_brace _ Ep) as (ms & ->).
    split; [reflexivity|]. intros _. eexists. reflexivity.
  - injection H as ->. split; [|congruence].
    unfold direct_parse in Ed.
    destruct (JSON_parse (trim (clean text))) as [parsed|]; [|discriminate].
    destruct parsed as [| | | |[|a [|b l]]|]; cbn [validated] in Ed;
      try discriminate; try (injection Ed as <-; reflexivity).
    destruct a; cbn [validated] in Ed; try discriminate; injection Ed as <-; reflexivity.
Qed.

Lemma extraction_never_an_array_witness :
  isArray (JObj [(js "a", JNum (num_of_Z 1))]) = false /\
  (direct_parse NoSchema (clean (jsq "[[{'a':1}],2]")) <>
     inr (JObj [(js "a", JNum (num_of_Z 1))]) ->
   exists ms, JObj [(js "a", JNum (num_of_Z 1))] = JObj ms).
Proof.
  apply (@extraction_never_an_array (jsq "[[{'a':1}],2]")).
  vm_compute. reflexivity.
Defined.

(** ** Repairs of the extractor *)

Lemma closes_before_comma rest x :
  closes (rest ++ 44%N :: x) = false \/
  closes (rest ++ 44%N :: x) = closes rest /\ forallb is_js_ws rest = false.
Proof.
  unfold closes. rewrite trimStart_app. destruct (forallb is_js_ws rest) eqn:E.
  - left. reflexivity.
  - right. split; [|reflexivity].
    destruct (trimStart rest) as [|c t] eqn:Et; [|reflexivity].
    apply trimStart_nil_ws in Et. congruence.
Qed.

Lemma closes_app_stable rest x y :
  forallb is_js_ws rest = false -> closes (rest ++ x) = closes (rest ++ y).
Proof.
  intros E. unfold closes. rewrite !trimStart_app, E.
  destruct (trimStart rest) as [|c t] eqn:Et; [|reflexivity].
  apply trimStart_nil_ws in Et. congruence.
Qed.

(** The commas of [a] stay when a comma is put behind [a]. *)
Lemma remove_trailing_commas_front a x y :
  has_trailing_comma (a ++ y) = false ->
  remove_trailing_commas (a ++ 44%N :: x) = a ++ remove_trailing_commas (44%N :: x).
Proof.
  induction a as [|c a IH]; intros H; [reflexivity|].
  cbn [app has_trailing_comma] in H. apply orb_false_iff in H. destruct H as [H1 H2].
  cbn [app remove_trailing_commas]. rewrite (IH H2).
  destruct (N.eqb c 44) eqn:Ec; [|reflexivity]. cbn [andb] in *.
  destruct (closes_before_comma a x) as [->|[-> Hw]]; [reflexivity|].
  rewrite (@closes_app_stable a y [] Hw), app_nil_r in H1.
  now rewrite H1.
Qed.

(** X21.  A comma before a closing bracket is forgiven: a text without
    fence and comment mark that becomes a JSON text when one such comma is
    taken out yields the value of that JSON text. *)
Theorem trailing_comma_forgiven (a ws b : jsstring) (c : N) (parsed : Json) :
  let text := a ++ [44%N] ++ ws ++ [c] ++ b in
  let repaired := a ++ ws ++ [c] ++ b in
  (c = 125%N \/ c = 93%N) -> forallb is_js_ws ws = true ->
  includes text (js "```") = false ->
  includes text (js "//") = false ->
  includes text (js "/*") = false ->
  has_trailing_comma repaired = false ->
  JSON_parse repaired = Some parsed -> isArray parsed = false ->
  extracted_as text parsed.
Proof.
  intros text repaired Hc Hws Hf Hl Hb Ht Hp Ha.
  apply extracted_by_direct_parse; [|exact Ha].
  assert (Hclean : clean text = repaired).
  { unfold clean.
    rewrite (remove_fences_absent _ Hf), (remove_line_comments_absent _ _ Hl),
      (remove_block_comments_absent _ _ Hb).
    unfold text, repaired. cbn [app].
    rewrite (@remove_trailing_commas_front a (ws ++ c :: b) (ws ++ c :: b) Ht).
    f_equal. cbn [remove_trailing_commas N.eqb Pos.eqb andb].
    assert (Hcl : closes (ws ++ c :: b) = true).
    { unfold closes. rewrite (@trimStart_ws_app ws _ Hws).
      destruct Hc as [-> | ->]; reflexivity. }
    rewrite Hcl.
    apply remove_trailing_commas_absent.
    exact (has_trailing_comma_suffix a _ Ht). }
  rewrite Hclean. now apply JSON_parse_trim.
Qed.

Lemma trailing_comma_forgiven_witness :
  extracted_as
    (jsq "{'specialist':'boulanger','section':'Dough','notes':'Knead well'" ++ [44%N] ++
     [10%N] ++ [125%N] ++ [])
    (JObj [(js "specialist", JStr (js "boulanger")); (js "section", JStr (js "Dough"));
           (js "notes", JStr (js "Knead well"))]).
Proof.
  apply (@trailing_comma_forgiven
           (jsq "{'specialist':'boulanger','section':'Dough','notes':'Knead well'")
           [10%N] [] 125%N);
    try (vm_compute; reflexivity).
  left. reflexivity.
Defined.

(** No JSON text ends with a slash. *)
Lemma finish_after_slash m : finish (step m 47%N) = None.
Proof.
  destruct m as [stack mode].
  assert (Hav : forall v, finish (after_value stack v 47%N) = None) by reflexivity.
  destruct mode; cbn [step]; try reflexivity.
  - destruct esc, stack; reflexivity.
  - destruct esc, stack; reflexivity.
  - unfold number_step. change (classify 47) with COther. change (is_e 47) with false.
    destruct phase; cbn [accepting]; try apply Hav; reflexivity.
  - destruct (nth_error (literal_text l) pos) as [e|] eqn:E; [|reflexivity].
    destruct (N.eqb 47 e) eqn:E2; [|reflexivity].
    apply N.eqb_eq in E2. subst e. apply literal_char in E. lia.
Qed.

Lemma JSON_parse_slash s : JSON_parse (s ++ [47%N]) = None.
Proof.
  unfold JSON_parse. rewrite run_app. cbn [run fold_left]. apply finish_after_slash.
Qed.

Lemma remove_line_comments_pass : forall a fuel rest,
  (forall u1 u2, a = u1 ++ u2 -> u2 <> [] -> startsWith (js "//") (u2 ++ rest) = false) ->
  (List.length a <= fuel)%nat ->
  remove_line_comments fuel (a ++ rest) =
  a ++ remove_line_comments (fuel - List.length a) rest.
Proof.
  induction a as [|c a IH]; intros fuel rest Hno Hf.
  - cbn [app List.length]. now rewrite Nat.sub_0_r.
  - destruct fuel as [|f]; [cbn in Hf; lia|].
    cbn [remove_line_comments].
    rewrite (Hno [] (c :: a) eq_refl) by discriminate.
    cbn [app]. f_equal. cbn [List.length Nat.sub]. apply IH.
    + intros u1 u2 Hu Hn. apply (Hno (c :: u1) u2); [cbn; now f_equal | exact Hn].
    + cbn in Hf. lia.
Qed.

Lemma rest_of_line_none comment :
  forallb (fun c => negb (is_line_terminator c)) comment = true ->
  rest_of_line comment = [].
Proof.
  induction comment as [|c t IH]; intros H; [reflexivity|].
  cbn [forallb] in H. apply andb_true_iff in H. destruct H as [Hc Ht].
  cbn [rest_of_line]. apply negb_true_iff in Hc. rewrite Hc. now apply IH.
Qed.

Lemma remove_line_comments_nil fuel : remove_line_comments fuel [] = [].
Proof. destruct fuel; reflexivity. Qed.

Lemma remove_line_comments_tail fuel comment :
  forallb (fun c => negb (is_line_terminator c)) comment = true ->
  remove_line_comments (S fuel) (js "//" ++ comment) = [].
Proof.
  intros H.
  change (remove_line_comments (S fuel) (js "//" ++ comment))
    with (if startsWith (js "//") (js "//" ++ comment)
          then remove_line_comments fuel (rest_of_line (skipn 2 (js "//" ++ comment)))
          else 47%N :: remove_line_comments fuel (47%N :: comment)).
  rewrite startsWith_app. change (skipn 2 (js "//" ++ comment)) with comment.
  rewrite (rest_of_line_none _ H). apply remove_line_comments_nil.
Qed.

Lemma no_backtick_no_fence s l : ~ In 96%N s -> includes s (96%N :: l) = false.
Proof.
  induction s as [|c s IH]; intros H; [reflexivity|].
  cbn [includes startsWith].
  assert (E : N.eqb 96 c = false).
  { apply N.eqb_neq. intros <-. apply H. now left. }
  rewrite E. cbn [andb orb]. apply IH. intros Hin. apply H. now right.
Qed.

(** The comment at the end of [body] starts where it is written, when
    [body] holds no comment mark and does not end with a slash. *)
Lemma comment_starts_behind body comment :
  includes body (js "//") = false -> (forall u, body <> u ++ [47%N]) ->
  forall u1 u2, body = u1 ++ u2 -> u2 <> [] ->
    startsWith (js "//") (u2 ++ js "//" ++ comment) = false.
Proof.
  intros Hl Hend u1 u2 -> Hn.
  destruct u2 as [|x [|y u2]]; [congruence| |].
  - change (js "//") with [47%N; 47%N]. cbn [app startsWith].
    destruct (N.eqb 47 x) eqn:E; [|reflexivity].
    apply N.eqb_eq in E. subst x. exfalso. apply (Hend u1). reflexivity.
  - destruct (startsWith (js "//") ((x :: y :: u2) ++ js "//" ++ comment)) eqn:E;
      [|reflexivity].
    assert (Hs : startsWith (js "//") (x :: y :: u2) = true).
    { change (js "//") with [47%N; 47%N] in *. cbn [app startsWith] in *.
      apply andb_true_iff in E. destruct E as [-> E].
      apply andb_true_iff in E. destruct E as [-> _]. reflexivity. }
    apply includes_here in Hs. apply (includes_app_r u1) in Hs. congruence.
Qed.

(** X22.  A line comment behind a JSON text is dropped: the text yields
    its value as if the comment were not there. *)
Theorem trailing_comment_dropped (body comment : jsstring) (parsed : Json) :
  plain_block body -> ~ In 96%N comment ->
  forallb (fun c => negb (is_line_terminator c)) comment = true ->
  JSON_parse body = Some parsed -> isArray parsed = false ->
  extracted_as (body ++ js "//" ++ comment) parsed.
Proof.
  intros (Hb & Hl & Hc & Ht) Hcb Hcl Hp Ha.
  apply extracted_by_direct_parse; [|exact Ha].
  assert (Hclean : clean (body ++ js "//" ++ comment) = body).
  { unfold clean, remove_fences.
    assert (Hall : ~ In 96%N (body ++ js "//" ++ comment)).
    { intros Hin. apply in_app_or in Hin. destruct Hin as [Hin|Hin]; [auto|].
      apply in_app_or in Hin. destruct Hin as [Hin|Hin]; [|auto].
      cbn in Hin. destruct Hin as [Hin|[Hin|[]]]; discriminate. }
    rewrite (remove_marker_absent (js "```json")) by (now apply no_backtick_no_fence).
    rewrite (remove_marker_absent (js "```")) by (now apply no_backtick_no_fence).
    rewrite remove_line_comments_pass.
    - replace (List.length (body ++ js "//" ++ comment) - List.length body)%nat
        with (S (S (List.length comment)))
        by (rewrite !length_app; change (List.length (js "//")) with 2%nat; lia).
      rewrite (@remove_line_comments_tail _ comment Hcl), app_nil_r.
      rewrite (remove_block_comments_absent _ _ Hc).
      now apply remove_trailing_commas_absent.
    - apply comment_starts_behind; [exact Hl|].
      intros u ->. rewrite JSON_parse_slash in Hp. discriminate.
    - rewrite length_app. lia. }
  rewrite Hclean. now apply JSON_parse_trim.
Qed.

Lemma trailing_comment_dropped_witness :
  extracted_as (pageText ++ js "//" ++ js " the page of the baker")
    (JObj [(js "specialist", JStr (js "boulanger")); (js "section", JStr (js "Dough"));
           (js "notes", JStr (js "Knead well"))]).
Proof.
  apply (@trailing_comment_dropped pageText (js " the page of the baker"));
    try reflexivity.
  - unfold plain_block. split; [|repeat split; vm_compute; reflexivity].
    vm_compute. intuition discriminate.
  - vm_compute. intuition discriminate.
Defined.

(** ** What every run observes *)

Section Footprint.

Variable w : World.
Variable em : option Listener.
Variable brief : CreativeBrief.
Variable ids : RunIds.

Variable G : nat -> St -> St -> Prop.
Variable C : Thrown -> Prop.
Variable allowed : EventBody -> Prop.

Hypothesis G_refl : forall s, G 0 s s.
Hypothesis G_trans : forall a b s s' s'', G a s s' -> G b s' s'' -> G (a + b) s s''.
Hypothesis G_le : forall a b s s', (a <= b)%nat -> G a s s' -> G b s s'.
Hypothesis G_tick : forall s, G 0 s (st_tick s).
Hypothesis G_banner : forall p s, G 0 s (st_banner p s).
Hypothesis G_log : forall l s, G 0 s (set_log l s).
Hypothesis G_call : forall agent prompt options s,
  G 1 s (snd (callGemini w agent prompt options s)).
Hypothesis G_emit : forall event s, allowed event -> G 0 s (snd (emit w em ids event s)).
Hypothesis C_load : forall name e, loadPrompt w name = inl e -> C (ThrownError e None).
Hypothesis C_plain : forall message, C (newError message).
Hypothesis C_call : forall agent prompt options s t,
  fst (callGemini w agent prompt options s) = Throw t -> C t.
Hypothesis C_emit : forall event s t, fst (emit w em ids event s) = Throw t -> C t.
Hypothesis C_app : forall a, httpCode a = Some 500 -> C (ThrownError (AppErr a) None).
Hypothesis C_attach : forall t l, C t -> C (attach t l).

Local Abbreviation obey := (obeys G C).

Lemma obeys_ret A (a : A) : obey 0%nat (ret a).
Proof. intros s. split; [apply G_refl | discriminate]. Qed.

Lemma obeys_throw A (t : Thrown) : C t -> obey 0%nat (@throw A t).
Proof.
  intros Ht s. split; [apply G_refl|]. cbn. intros t' H. now injection H as <-.
Qed.

Lemma obeys_bind A B (m : M A) (k : A -> M B) a b :
  obey a m -> (forall x, obey b (k x)) -> obey (a + b)%nat (bind m k).
Proof.
  intros Hm Hk s. unfold bind. destruct (Hm s) as [Hg Hc].
  destruct (m s) as [[x|t|] s'] eqn:E; cbn [fst snd] in *.
  - destruct (Hk x s') as [Hg' Hc']. split; [|exact Hc'].
    apply (G_trans Hg Hg').
  - split; [apply (G_le (a := a)); [lia | exact Hg]|].
    intros t' H. injection H as <-. now apply Hc.
  - split; [|discriminate]. apply (G_le (a := a)); [lia | exact Hg].
Qed.

Lemma obeys_then A B (m : M A) (k : A -> M B) b :
  obey 0%nat m -> (forall x, obey b (k x)) -> obey b (bind m k).
Proof. apply (@obeys_bind A B m k 0 b). Qed.

Lemma obeys_first A B (m : M A) (k : A -> M B) a :
  obey a m -> (forall x, obey 0%nat (k x)) -> obey a (bind m k).
Proof.
  intros Hm Hk. rewrite <- (Nat.add_0_r a). now apply obeys_bind.
Qed.

Lemma obeys_try A (m : M A) (h : Thrown -> M A) a b :
  obey a m -> (forall t, C t -> obey b (h t)) -> obey (a + b)%nat (try_catch m h).
Proof.
  intros Hm Hh s. unfold try_catch. destruct (Hm s) as [Hg Hc].
  destruct (m s) as [[x|t|] s'] eqn:E; cbn [fst snd] in *.
  - split; [|discriminate]. apply (G_le (a := a)); [lia | exact Hg].
  - destruct (Hh t (Hc t eq_refl) s') as [Hg' Hc']. split; [|exact Hc'].
    apply (G_trans Hg Hg').
  - split; [|discriminate]. apply (G_le (a := a)); [lia | exact Hg].
Qed.

Lemma obeys_le A (m : M A) a b : (a <= b)%nat -> obey a m -> obey b m.
Proof.
  intros Hle Hm s. destruct (Hm s) as [Hg Hc]. split; [|exact Hc].
  now apply (G_le (a := a)).
Qed.

Lemma obeys_clock : obey 0%nat (clock w).
Proof. intros s. split; [apply G_tick | discriminate]. Qed.

Lemma obeys_banner p : obey 0%nat (banner p).
Proof. intros s. split; [apply G_banner | discriminate]. Qed.

Lemma obeys_push_step step : obey 0%nat (push_step step).
Proof. intros s. split; [apply G_log | discriminate]. Qed.

Lemma obeys_get_log : obey 0%nat get_log.
Proof. intros s. split; [apply G_refl | discriminate]. Qed.

Lemma obeys_set_log (f : St -> ExecutionLog) :
  obey 0%nat (modify (fun s => set_log (f s) s)).
Proof. intros s. split; [apply G_log | discriminate]. Qed.

Lemma obeys_finalize_log : obey 0%nat (finalize_log w).
Proof.
  unfold finalize_log.
  apply obeys_then; [apply obeys_clock | intros ended].
  apply obeys_then; [apply obeys_set_log | intros _].
  apply obeys_then; [apply obeys_clock | intros t].
  apply obeys_set_log.
Qed.

Lemma obeys_load name : obey 0%nat (load w name).
Proof.
  intros s. unfold load. destruct (loadPrompt w name) as [e|template] eqn:E; cbn.
  - split; [apply G_refl|]. intros t H. injection H as <-. now apply (C_load name).
  - split; [apply G_refl | discriminate].
Qed.

Lemma obeys_extract T text (schema : ZodSchema T) : obey 0%nat (extract w text schema).
Proof.
  intros s. unfold extract. destruct (extractJSON text (WithSchema schema)); cbn.
  - split; [apply G_refl|]. intros t H. injection H as <-. apply C_plain.
  - split; [apply G_refl | discriminate].
Qed.

Lemma obeys_emit event : allowed event -> obey 0%nat (emit w em ids event).
Proof. intros Ha s. split; [now apply G_emit | apply C_emit]. Qed.

Lemma obeys_callGemini agent prompt options :
  obey 1%nat (callGemini w agent prompt options).
Proof. intros s. split; [apply G_call | apply C_call]. Qed.

Lemma obeys_newAppError name message operational code ctx :
  obey 0%nat (newAppError w name message operational code ctx).
Proof.
  unfold newAppError. apply obeys_then; [apply obeys_clock | intros t].
  apply obeys_ret.
Qed.

Lemma newAppError_value name message operational code ctx s :
  exists stamp,
    newAppError w name message operational code ctx s =
    (Ok (ThrownError (AppErr (mkAppError name message operational code ctx stamp)) None),
     st_tick s).
Proof. eexists. reflexivity. Qed.

Lemma obeys_settle A (m : M A) a : obey a m -> obey a (settle m).
Proof.
  intros Hm s. destruct (Hm s) as [Hg _]. unfold settle.
  destruct (m s) as [[x|t|] s']; cbn [fst snd] in *; (split; [exact Hg | discriminate]).
Qed.

Lemma obeys_start_all A (tasks : list (M A)) :
  Forall (obey 1%nat) tasks -> obey (List.length tasks) (start_all tasks).
Proof.
  induction 1 as [|task rest Ht _ IH]; cbn [start_all List.length].
  - apply obeys_ret.
  - change (S (List.length rest)) with (1 + List.length rest)%nat.
    apply obeys_bind; [now apply obeys_settle | intros r].
    apply obeys_first; [exact IH | intros rs]. apply obeys_ret.
Qed.

Lemma obeys_allSettled A (tasks : list (M A)) :
  Forall (obey 1%nat) tasks -> obey (List.length tasks) (allSettled tasks).
Proof.
  intros H. unfold allSettled.
  apply obeys_first; [now apply obeys_start_all | intros results].
  destruct (existsb is_unsettled results); [|apply obeys_ret].
  intros s. split; [apply G_refl | discriminate].
Qed.

Lemma obeys_collect results : obey 0%nat (collect results).
Proof.
  induction results as [|[[onePager step]|t|] rest IH]; cbn [collect];
    [apply obeys_ret | | exact IH | exact IH].
  apply obeys_then; [apply obeys_push_step | intros _].
  apply obeys_then; [exact IH | intros onePagers]. apply obeys_ret.
Qed.

Hypothesis allowed_progress : forall event, progress event -> allowed event.

Ltac free_step :=
  first [ apply obeys_clock | apply obeys_banner | apply obeys_push_step
        | apply obeys_get_log | apply obeys_finalize_log | apply obeys_load
        | apply obeys_extract | apply obeys_ret
        | apply obeys_emit; apply allowed_progress; exact I ].

Ltac free_steps :=
  repeat first [ free_step | apply obeys_then; [free_step | intros ?] ].

Lemma obeys_planning : obey 1%nat (planning w em brief ids).
Proof.
  unfold planning. free_steps.
  apply obeys_first; [apply obeys_callGemini | intros response]. free_steps.
Qed.

Lemma obeys_specialist_task taskMap spec :
  obey 1%nat (specialist_task w em brief ids taskMap spec).
Proof.
  unfold specialist_task.
  apply obeys_then; [apply obeys_clock | intros startTime].
  change 1%nat with (1 + 0)%nat. apply obeys_try.
  - free_steps.
    apply obeys_first; [apply obeys_callGemini | intros response]. free_steps.
  - intros t _. free_steps.
Qed.

Lemma obeys_specialists_phase taskMap d :
  obey (List.length (specialists taskMap)) (specialists_phase w em brief ids taskMap d).
Proof.
  unfold specialists_phase. free_steps.
  apply obeys_first.
  { rewrite <- (length_map (specialist_task w em brief ids taskMap)).
    apply obeys_allSettled. apply Forall_forall. intros task Hin.
    apply in_map_iff in Hin. destruct Hin as (spec & <- & _).
    apply obeys_specialist_task. }
  intros results. apply obeys_then; [apply obeys_collect | intros onePagers].
  destruct onePagers as [|p rest]; [|free_steps].
  intros s. unfold bind.
  destruct (newAppError_value (js "AppError") all_failed_message true (Some 500)
              (Some [(js "attemptedSpecialists",
                      JArr (map (fun x => JStr (spec_name x)) (specialists taskMap)))]) s)
    as (stamp & ->).
  cbn. split; [apply G_tick|]. intros t H. injection H as <-. now apply C_app.
Qed.

Lemma obeys_synthesis onePagers :
  (forall r l, allowed (RecipeComplete r l)) ->
  obey 1%nat (synthesis w em brief ids onePagers).
Proof.
  intros Hall. unfold synthesis. free_steps.
  apply obeys_first; [apply obeys_callGemini | intros response]. free_steps.
  apply obeys_then; [now apply obeys_emit | intros ?]. free_steps.
Qed.

Lemma obeys_catch_block t :
  (forall m l, allowed (RecipeError m l)) -> C t ->
  obey 0%nat (catch_block w em ids t).
Proof.
  intros Hall Ht. unfold catch_block. free_steps.
  apply obeys_then; [now apply obeys_emit | intros ?]. free_steps.
  apply obeys_throw. now apply C_attach.
Qed.

(** A run as a whole: one call for the planning, one for each specialist
    of the plan, and one for the synthesis. *)
Lemma obeys_run s :
  (forall event, allowed event) -> ids = run_ids w s ->
  let out := generateRecipe w brief em s in
  match fst (planning w em brief ids (start_state w s)) with
  | Ok (taskMap, _) => G (List.length (specialists taskMap) + 2) s (snd out)
  | _ => G 1 s (snd out)
  end /\
  forall t, fst out = Throw t -> C t.
Proof.
  intros Hall Hids out.
  assert (Hstart : G 0 s (start_state w s)).
  { unfold start_state. apply (G_le (a := 0 + (0 + (0 + 0)))); [lia|].
    eapply G_trans; [apply G_tick|]. eapply G_trans; [apply G_log|].
    eapply G_trans; [apply G_tick | apply G_tick]. }
  unfold out. rewrite generateRecipe_start, <- Hids.
  unfold try_catch, try_block, bind.
  destruct (obeys_planning (start_state w s)) as [Hg Hc].
  destruct (planning w em brief ids (start_state w s)) as [[[taskMap d]|t|] s1];
    cbn [fst snd] in *.
  - destruct (obeys_specialists_phase taskMap d s1) as [Hg2 Hc2].
    destruct (specialists_phase w em brief ids taskMap d s1) as [[onePagers|t|] s2];
      cbn [fst snd] in *.
    + destruct (obeys_synthesis onePagers (fun r l => Hall _) s2) as [Hg3 Hc3].
      assert (Hto : G (Datatypes.length (specialists taskMap) + 2) s
                      (snd (synthesis w em brief ids onePagers s2))).
      { apply (G_le (a := 0 + (1 + Datatypes.length (specialists taskMap) + 1))); [lia|].
        apply (G_trans Hstart). apply (G_trans (G_trans Hg Hg2) Hg3). }
      destruct (synthesis w em brief ids onePagers s2) as [[r|t|] s3]; cbn [fst snd] in *.
      * split; [exact Hto | discriminate].
      * destruct (obeys_catch_block (fun m l => Hall _) (Hc3 t eq_refl) s3) as [Hg4 Hc4].
        split; [|exact Hc4].
        apply (G_le (a := Datatypes.length (specialists taskMap) + 2 + 0)); [lia|].
        apply (G_trans Hto Hg4).
      * split; [exact Hto | discriminate].
    + destruct (obeys_catch_block (fun m l => Hall _) (Hc2 t eq_refl) s2) as [Hg4 Hc4].
      split; [|exact Hc4].
      apply (G_le (a := 0 + (1 + Datatypes.length (specialists taskMap)) + 0)); [lia|].
      apply (G_trans (G_trans Hstart (G_trans Hg Hg2)) Hg4).
    + split; [|discriminate].
      apply (G_le (a := 0 + (1 + Datatypes.length (specialists taskMap)))); [lia|].
      apply (G_trans Hstart (G_trans Hg Hg2)).
  - destruct (obeys_catch_block (fun m l => Hall _) (Hc t eq_refl) s1) as [Hg4 Hc4].
    split; [|exact Hc4].
    apply (G_le (a := 0 + 1 + 0)); [lia|]. apply (G_trans (G_trans Hstart Hg) Hg4).
  - split; [|discriminate]. apply (G_le (a := 0 + 1)); [lia|]. apply (G_trans Hstart Hg).
Qed.

End Footprint.

(** *** The cost of a run *)

Lemma within_refl s : within 0 s s.
Proof. exists [], []. rewrite !app_nil_r. cbn. repeat split; lia. Qed.

Lemma total_app a b : total (a ++ b) = total a + total b.
Proof.
  unfold total. induction a as [|x a IH]; cbn [app fold_right]; [reflexivity|].
  rewrite IH. lia.
Qed.

Lemma within_trans a b s s' s'' :
  within a s s' -> within b s' s'' -> within (a + b) s s''.
Proof.
  intros (r1 & d1 & Hr1 & Hd1 & Hl1 & Ht1) (r2 & d2 & Hr2 & Hd2 & Hl2 & Ht2).
  exists (r1 ++ r2), (d1 ++ d2).
  rewrite Hr2, Hr1, Hd2, Hd1, <- !app_assoc, length_app, total_app.
  repeat split; lia.
Qed.

Lemma within_le a b s s' : (a <= b)%nat -> within a s s' -> within b s s'.
Proof.
  intros Hle (r & d & Hr & Hd & Hl & Ht). exists r, d. repeat split; auto; lia.
Qed.

Lemma within_keep s s' :
  requests s' = requests s -> slept s' = slept s -> within 0 s s'.
Proof.
  intros Hr Hs. exists [], []. rewrite !app_nil_r. cbn. repeat split; auto; lia.
Qed.

Lemma within_call w agent prompt options s :
  within 1 s (snd (callGemini w agent prompt options s)).
Proof.
  destruct (callGemini_spec w agent prompt options s)
    as (n & Hn & Hreq & Hsl & _).
  eexists _, _. split; [exact Hreq|]. split; [exact Hsl|].
  rewrite repeat_length. split; [lia|].
  rewrite (backoff_delays Hn).
  assert (Hc : n = 1%nat \/ n = 2%nat \/ n = 3%nat) by lia.
  destruct Hc as [->|[->| ->]]; cbn; lia.
Qed.

Lemma within_emit w em ids event s : within 0 s (snd (emit w em ids event s)).
Proof.
  destruct (emit_footprint w em ids event s) as (Hr & Hs & _). now apply within_keep.
Qed.

(** X12.  A run asks the model at most three times for the planning, for
    each specialist of the plan and for the synthesis, and waits at most
    3000 ms between the attempts of each: with a plan of N specialists, at
    most 3 (N + 2) requests and 3000 (N + 2) ms; without a plan, at most 3
    requests and 3000 ms.  Whatever the listener does during the events:
    the plan is the task map as the listener left it when the event that
    handed it over ended. *)
Theorem run_budget (w : World) (brief : CreativeBrief) (em : option Listener) (s : St) :
  let out := generateRecipe w brief em s in
  match fst (planning w em brief (run_ids w s) (start_state w s)) with
  | Ok (taskMap, _) => within (List.length (specialists taskMap) + 2) s (snd out)
  | _ => within 1 s (snd out)
  end.
Proof.
  refine (proj1 (@obeys_run w em brief (run_ids w s) within (fun _ => True) (fun _ => True)
                   within_refl within_trans within_le _ _ _ _ _ _ _ _ _ _ _ _ s _ eq_refl));
    try (intros; exact I).
  - intros s0. now apply within_keep.
  - intros p s0. now apply within_keep.
  - intros l s0. now apply within_keep.
  - intros agent prompt options s0. apply within_call.
  - intros event s0 _. apply within_emit.
Qed.

(** *** The answers of the route *)






(** A run that returns a recipe after the timer has fired: the client has
    been answered with status 504. *)
Lemma late_run_times_out :
  let run := generateRecipe slowWorld exampleBrief None initial in
  let out := generate_recipe_route slowWorld briefBody initial in
  (exists result, fst run = Ok result) /\
  run_time slowWorld initial (snd run) = 2300000 /\
  fst out = Ok timeout_response.
Proof.
  cbv zeta. split; [eexists; vm_compute; reflexivity|].
  split; vm_compute; reflexivity.
Qed.

(** *** The stream of events *)

Lemma heard_refl ids s : heard ids s s.
Proof. exists []. split; [now rewrite app_nil_r | constructor]. Qed.

Lemma heard_trans ids s s' s'' : heard ids s s' -> heard ids s' s'' -> heard ids s s''.
Proof.
  intros (e1 & H1 & F1) (e2 & H2 & F2). exists (e1 ++ e2). split.
  - now rewrite H2, H1, app_assoc.
  - now apply Forall_app.
Qed.

Lemma heard_keep ids s s' : delivered s' = delivered s -> heard ids s s'.
Proof. intros H. exists []. split; [now rewrite app_nil_r | constructor]. Qed.

Lemma heard_call ids w agent prompt options s :
  heard ids s (snd (callGemini w agent prompt options s)).
Proof.
  destruct (callGemini_spec w agent prompt options s) as (n & _ & _ & _ & _ & _ & _ & Hd & _).
  now apply heard_keep.
Qed.

Lemma heard_emit ids w em event s :
  progress event -> heard ids s (snd (emit w em ids event s)).
Proof.
  intros Hp. destruct (emit_footprint w em ids event s) as (_ & _ & _ & Hd).
  destruct em as [listener|]; [|now apply heard_keep].
  destruct Hd as (e & Hd & He & Hid). exists [e]. split; [exact Hd|].
  constructor; [|constructor]. rewrite He. split; [exact Hp | exact Hid].
Qed.

Lemma finalize_log_delivered w s :
  exists s1, finalize_log w s = (Ok tt, s1) /\ delivered s1 = delivered s.
Proof. eexists. split; reflexivity. Qed.

Section Stream.

Variable w : World.
Variable brief : CreativeBrief.
Variable listener : Listener.
Variable ids : RunIds.
Hypothesis Hq : forall e, listener e = Returns (body e).

Local Abbreviation em := (Some listener).
Local Abbreviation chatter := (chats ids).
Local Abbreviation completed := (stream_completed ids).
Local Abbreviation failed_with := (stream_failed ids).

Lemma chatter_of_obeys A k (m : M A) :
  obeys (fun _ => heard ids) (fun _ => True) k m -> chatter m.
Proof. intros H s. exact (proj1 (H s)). Qed.

Lemma chatter_planning : chatter (planning w em brief ids).
Proof.
  apply (@chatter_of_obeys _ 1%nat).
  apply (@obeys_planning w em brief ids (fun _ => heard ids) (fun _ => True) progress);
    try (intros; exact I); try (intros; now apply heard_keep).
  - intros a b s s' s''. apply heard_trans.
  - intros a b s s' _ H. exact H.
  - intros agent prompt options s. apply heard_call.
  - intros event s. apply heard_emit.
  - intros event H. exact H.
Qed.

Lemma chatter_specialists_phase taskMap d :
  chatter (specialists_phase w em brief ids taskMap d).
Proof.
  apply (@chatter_of_obeys _ (List.length (specialists taskMap))).
  apply (@obeys_specialists_phase w em brief ids (fun _ => heard ids) (fun _ => True) progress);
    try (intros; exact I); try (intros; now apply heard_keep).
  - intros a b s s' s''. apply heard_trans.
  - intros a b s s' _ H. exact H.
  - intros agent prompt options s. apply heard_call.
  - intros event s. apply heard_emit.
  - intros event H. exact H.
Qed.

Lemma step_chatter A B (m : M A) (k : A -> M B) s0 Q
  (E : Thrown -> St -> Prop) (N : St -> Prop) :
  chatter m ->
  (forall t s', heard ids s0 s' -> E t s') -> (forall s', heard ids s0 s' -> N s') ->
  (forall a, triple (heard ids s0) (k a) Q E N) ->
  triple (heard ids s0) (bind m k) Q E N.
Proof.
  intros Hm HE HN Hk s Hs. unfold bind. specialize (Hm s).
  destruct (m s) as [[a|t|] s']; cbn [snd] in Hm.
  - apply (Hk a s'). exact (heard_trans Hs Hm).
  - apply HE. exact (heard_trans Hs Hm).
  - apply HN. exact (heard_trans Hs Hm).
Qed.

Lemma chatter_clock : chatter (clock w).
Proof. intros s. now apply heard_keep. Qed.

Lemma chatter_banner p : chatter (banner p).
Proof. intros s. now apply heard_keep. Qed.

Lemma chatter_push_step step : chatter (push_step step).
Proof. intros s. now apply heard_keep. Qed.

Lemma chatter_load name : chatter (load w name).
Proof. intros s. unfold load. destruct (loadPrompt w name); apply heard_refl. Qed.

Lemma chatter_extract T text (schema : ZodSchema T) : chatter (extract w text schema).
Proof.
  intros s. unfold extract. destruct (extractJSON text (WithSchema schema)); apply heard_refl.
Qed.

Lemma chatter_callGemini agent prompt options : chatter (callGemini w agent prompt options).
Proof. intros s. apply heard_call. Qed.

Lemma chatter_emit event : progress event -> chatter (emit w em ids event).
Proof. intros Hp s. now apply heard_emit. Qed.

Ltac chat_with lemma :=
  apply step_chatter;
  [ lemma | intros ? ? Hh; exact Hh | intros ? Hh; exact Hh | intros ? ].

Ltac chat :=
  match goal with
  | |- triple _ (bind (clock _) _) _ _ _ => chat_with ltac:(apply chatter_clock)
  | |- triple _ (bind (banner _) _) _ _ _ => chat_with ltac:(apply chatter_banner)
  | |- triple _ (bind (push_step _) _) _ _ _ => chat_with ltac:(apply chatter_push_step)
  | |- triple _ (bind (load _ _) _) _ _ _ => chat_with ltac:(apply chatter_load)
  | |- triple _ (bind (extract _ _ _) _) _ _ _ => chat_with ltac:(apply chatter_extract)
  | |- triple _ (bind (callGemini _ _ _ _) _) _ _ _ =>
      chat_with ltac:(apply chatter_callGemini)
  | |- triple _ (bind (emit _ _ _ _) _) _ _ _ =>
      chat_with ltac:(apply chatter_emit; exact I)
  end.

Lemma synthesis_stream onePagers s0 :
  triple (heard ids s0) (synthesis w em brief ids onePagers)
    (completed s0) (fun _ => heard ids s0) (heard ids s0).
Proof.
  unfold synthesis. repeat chat.
  intros s (before & Hd & Hf). unfold bind at 1.
  destruct (finalize_log_delivered w s) as (s1 & -> & Hd1).
  unfold bind at 1, get_log at 1. unfold bind at 1.
  match goal with
  | |- context [emit w em ids ?event s1] =>
      destruct (@emit_quiet w em ids event s1 Hq) as (s2 & He & _ & _ & _ & Hl);
      pose proof (emit_footprint w em ids event s1) as (_ & _ & _ & e & Hd2 & Hb & Hid);
      rewrite He in *
  end.
  cbn [snd final_log] in *. cbn. exists before, e.
  split; [rewrite Hd2, Hd1, Hd, <- app_assoc; reflexivity|].
  split; [exact Hf|]. split; [|exact Hid]. rewrite Hb, Hl. reflexivity.
Qed.

Lemma describe_attach t l : describe (attach t l) = describe t.
Proof. destruct t; reflexivity. Qed.

Lemma catch_stream t s0 :
  triple (heard ids s0) (catch_block w em ids t)
    (fun _ _ => False) (failed_with s0) (fun _ => False).
Proof.
  intros s (before & Hd & Hf). unfold catch_block. unfold bind at 1.
  destruct (finalize_log_delivered w s) as (s1 & -> & Hd1).
  unfold bind at 1, clock at 1. unfold bind at 1, push_step at 1, modify at 1.
  unfold bind at 1, get_log at 1. unfold bind at 1.
  match goal with
  | |- context [emit w em ids ?event ?st] =>
      destruct (@emit_quiet w em ids event st Hq) as (s2 & He & _ & _ & _ & Hl);
      pose proof (emit_footprint w em ids event st) as (_ & _ & _ & e & Hd2 & Hb & Hid);
      rewrite He in *
  end.
  cbn [snd final_log] in *. cbn. exists before, e.
  split; [rewrite Hd2; cbn; rewrite Hd1, Hd, <- app_assoc; reflexivity|].
  split; [exact Hf|]. split; [|exact Hid].
  rewrite Hb, Hl, describe_attach. reflexivity.
Qed.

Lemma run_stream s0 :
  triple (heard ids s0)
    (try_catch (try_block w em brief ids) (catch_block w em ids))
    (completed s0) (failed_with s0) (heard ids s0).
Proof.
  apply triple_try with (E1 := fun _ => heard ids s0).
  - unfold try_block.
    apply step_chatter;
      [apply chatter_planning | intros ? ? Hh; exact Hh | intros ? Hh; exact Hh |].
    intros [taskMap d].
    apply step_chatter;
      [apply chatter_specialists_phase | intros ? ? Hh; exact Hh
      | intros ? Hh; exact Hh |].
    intros onePagers. apply synthesis_stream.
  - intros t.
    eapply triple_weaken;
      [apply catch_stream | intros ? Hh; exact Hh | intros ? ? []
      | intros ? ? Hh; exact Hh | intros ? []].
Qed.

End Stream.

(** X15.  With a listener that returns from every event and leaves the
    objects of the event as they are, the events of a run carry its request
    identifier, and exactly one of them ends the stream, as the last one:
    [recipe:complete] with the recipe and the log of the result when the
    run returns, [recipe:error] with the message of the error and the log
    when it throws.  A run that never settles delivers events of progress
    only. *)
Theorem event_stream_ends_once (w : World) (brief : CreativeBrief)
  (listener : Listener) (s : St) :
  (forall e, listener e = Returns (body e)) ->
  let out := generateRecipe w brief (Some listener) s in
  let ids := run_ids w s in
  match fst out with
  | Ok result => stream_completed ids s result (snd out)
  | Throw t => stream_failed ids s t (snd out)
  | Pending => heard ids s (snd out)
  end.
Proof.
  intros Hq out ids. unfold out. rewrite generateRecipe_start. fold ids.
  assert (H := @run_stream w brief listener ids Hq s (start_state w s)).
  destruct (try_catch (try_block w (Some listener) brief ids)
              (catch_block w (Some listener) ids) (start_state w s)) as [[r|t|] s'];
    cbn [fst snd]; apply H; now apply heard_keep.
Qed.

Lemma event_stream_ends_once_witness :
  let out := generateRecipe helpfulWorld exampleBrief (Some patientListener) initial in
  let ids := run_ids helpfulWorld initial in
  match fst out with
  | Ok result => stream_completed ids initial result (snd out)
  | Throw t => stream_failed ids initial t (snd out)
  | Pending => heard ids initial (snd out)
  end.
Proof.
  apply (@event_stream_ends_once helpfulWorld exampleBrief patientListener initial).
  intros e. reflexivity.
Defined.
(** ** The invocations of the specialists *)

(** The task of a specialist, without a listener. *)
Lemma specialist_task_alone w brief ids taskMap spec s :
  task_outcome w brief spec s (specialist_task w None brief ids taskMap spec s).
Proof.
  unfold task_outcome.
  destruct (specialist_task w None brief ids taskMap spec s) as [res s'] eqn:Hrun.
  unfold specialist_task, bind, clock, try_catch, load, emit, ret, throw, extract in Hrun.
  unfold invoked. cbn [fst snd].
  destruct (loadPrompt w (spec_name spec)) as [e|template] eqn:Hload.
  - injection Hrun as <- <-. cbn [fst snd].
    split; [reflexivity|]. split; [reflexivity|].
    eexists (mkInvocation [] [] None _). cbn.
    rewrite !app_nil_r. repeat split.
  - match type of Hrun with
    | context [callGemini w ?a ?p ?o ?st] =>
        pose proof (callGemini_spec w a p o st)
          as (n & Hn & Hreq & Hsl & Hprev & Hend & Hb & _ & Hl);
        destruct (callGemini w a p o st) as [[g|t|] s2]
    end; unfold ends_as, attempt_outcome in Hend, Hprev; cbn [fst snd] in *;
      cbn [requests slept banners log st_tick] in *.
    + destruct Hend as (r & Hout & Herr & ->). cbn [text tokenUsage] in Hrun.
      destruct (extractJSON (response_text r) (WithSchema (SpecialistOnePagerSchema w)))
        as [e|onePager] eqn:Hex; injection Hrun as <- <-;
        cbn [log banners st_tick requests slept].
      * split; [exact Hl|]. split; [exact Hb|].
        eexists (mkInvocation _ _ None _). cbn [inv_onePager inv_step inv_requests inv_delays].
        split; [reflexivity|]. split; [reflexivity|].
        split; [|split; [exact Hreq | exact Hsl]].
        split; [reflexivity|]. split; [reflexivity|].
        exists n. split; [exact Hn|]. split; [reflexivity|]. split; [reflexivity|].
        split; [exact Hprev|]. unfold specialist_request. rewrite Hout, Herr, Hex.
        repeat split.
      * split; [exact Hl|]. split; [exact Hb|].
        eexists (mkInvocation _ _ (Some onePager) _).
        cbn [inv_onePager inv_step inv_requests inv_delays].
        split; [reflexivity|]. split; [reflexivity|].
        split; [|split; [exact Hreq | exact Hsl]].
        split; [reflexivity|]. split; [reflexivity|].
        exists n. split; [exact Hn|]. split; [reflexivity|]. split; [reflexivity|].
        split; [exact Hprev|]. unfold specialist_request. rewrite Hout, Herr, Hex.
        repeat split.
    + destruct Hend as (error & Hc & Hor & (ctx & stamp & ->)).
      injection Hrun as <- <-. cbn [log banners st_tick requests slept].
      split; [exact Hl|]. split; [exact Hb|].
      eexists (mkInvocation _ _ None _).
      cbn [inv_onePager inv_step inv_requests inv_delays].
      split; [reflexivity|]. split; [reflexivity|].
      split; [|split; [exact Hreq | exact Hsl]].
      split; [reflexivity|]. split; [reflexivity|].
      exists n. split; [exact Hn|]. split; [reflexivity|]. split; [reflexivity|].
      split; [exact Hprev|]. unfold specialist_request.
      assert (Hgive : (isRetryableError error = false \/ n = 3%nat) /\
                      @None SpecialistOnePager = None /\
                      failed_step
                        (mkStep (spec_name spec) (js "specialist_contribution")
                           (now w (ticks (st_tick s2)))
                           (now w (ticks s2) - now w (ticks s)) false
                           (Some (llm_message (spec_name spec) error)) None)
                        (llm_message (spec_name spec) error)).
      { split; [|repeat split]. destruct Hor as [H|H]; [now left|].
        right. unfold maxRetries in H. lia. }
      cbn [describe message_of err_message]. fold (llm_message (spec_name spec) error).
      destruct (remote w (Datatypes.length (requests s) + (n - 1)) (spec_name spec) _)
        as [r|t|]; cbn [caught] in Hc.
      * rewrite Hc. exact Hgive.
      * injection Hc as ->. exact Hgive.
      * discriminate.
    + injection Hrun as <- <-. split; [exact Hl|]. split; [exact Hb|].
      exists template, n. split; [exact Hload | exact Hend].
Qed.

Lemma invoked_view w brief sent spec inv p :
  step_view p = step_view (inv_step inv) ->
  invoked w brief sent spec inv ->
  invoked w brief sent spec
    (mkInvocation (inv_requests inv) (inv_delays inv) (inv_onePager inv) p).
Proof.
  unfold step_view. intros [= Ha Hac Hs He Hu].
  unfold invoked, failed_step. cbn [inv_requests inv_delays inv_onePager inv_step].
  rewrite Ha, Hac, Hs, He, Hu. auto.
Qed.

(** Two computations that differ in their quiet listeners make the same
    requests and await the same delays. *)
Lemma rel_effects A (R : A -> A -> Prop) (m1 m2 : M A) s :
  rel R m1 m2 ->
  requests (snd (m1 s)) = requests (snd (m2 s)) /\
  slept (snd (m1 s)) = slept (snd (m2 s)).
Proof.
  intros H. specialize (H s s (sim_refl s)).
  destruct (m1 s) as [[a1|t1|] s1], (m2 s) as [[a2|t2|] s2]; cbn [snd];
    try contradiction.
  - destruct H as [_ (Hr & Hs & _)]. auto.
  - destruct H as [_ (Hr & Hs & _)]. auto.
  - destruct H as (Hr & Hs & _). auto.
Qed.

Section Invocations.

Variable w : World.
Variable em : option Listener.
Variable brief : CreativeBrief.
Variable ids : RunIds.
Hypothesis Hq : quiet em.

(** The task of a specialist, with a quiet listener. *)
Lemma specialist_task_spec taskMap spec s :
  task_outcome w brief spec s (specialist_task w em brief ids taskMap spec s).
Proof.
  pose proof (@specialist_task_settles w em brief ids Hq taskMap spec s s eq_refl) as Hlog.
  pose proof (@rel_specialist_task w brief em None ids ids Hq I taskMap spec s s
                (sim_refl s)) as Hrel.
  pose proof (specialist_task_alone w brief ids taskMap spec s) as Halone.
  unfold task_outcome in *.
  destruct (specialist_task w em brief ids taskMap spec s) as [[[op p]|t|] s1];
    destruct (specialist_task w None brief ids taskMap spec s) as [[[op2 p2]|t2|] s2];
    cbn [fst snd] in *; try contradiction.
  - destruct Hlog as (_ & Hl & Hb). destruct Hrel as ((Hop & Hp) & Hr & Hs & _).
    destruct Halone as (_ & _ & inv & Hi1 & Hi2 & Hinv & Hreq & Hsl).
    cbn [fst snd] in Hop, Hp. subst op2 p2.
    split; [exact Hl|]. split; [exact Hb|].
    exists (mkInvocation (inv_requests inv) (inv_delays inv) (inv_onePager inv) p).
    cbn [inv_requests inv_delays inv_onePager inv_step].
    split; [exact Hi1|]. split; [reflexivity|].
    split; [now apply invoked_view|]. split; congruence.
  - destruct Hlog as (_ & Hl & Hb). destruct Halone as (_ & _ & Hun).
    split; [exact Hl|]. split; [exact Hb | exact Hun].
Qed.

Lemma start_all_invocations taskMap : forall specs s,
  exists results s',
    start_all (map (specialist_task w em brief ids taskMap) specs) s = (Ok results, s') /\
    log s' = log s /\ banners s' = banners s /\
    if existsb is_unsettled results then
      some_unanswered w brief (List.length (requests s)) specs
    else
      exists invs,
        results = map (fun inv => Fulfilled (inv_onePager inv, inv_step inv)) invs /\
        invocations w brief (List.length (requests s)) specs invs /\
        requests s' = requests s ++ flat_map inv_requests invs /\
        slept s' = slept s ++ flat_map inv_delays invs.
Proof.
  induction specs as [|spec specs IH]; intros s.
  - exists [], s. cbn. repeat split. exists []. cbn. rewrite !app_nil_r.
    repeat split. constructor.
  - cbn [map start_all]. unfold bind at 1, settle.
    pose proof (specialist_task_spec taskMap spec s) as Ht. unfold task_outcome in Ht.
    destruct (specialist_task w em brief ids taskMap spec s) as [[[op p]|t|] s1];
      cbn [fst snd] in Ht; destruct Ht as (Hl & Hb & Ht); [|contradiction|].
    + destruct Ht as (inv & Hop & Hp & Hinv & Hreq & Hsl).
      destruct (IH s1) as (results & s' & Hrun & Hl' & Hb' & Hres).
      unfold bind at 1. rewrite Hrun. unfold ret.
      exists (Fulfilled (op, p) :: results), s'.
      split; [reflexivity|]. split; [congruence|]. split; [congruence|].
      cbn [existsb is_unsettled orb].
      assert (Hlen : List.length (requests s1) =
                     (List.length (requests s) + List.length (inv_requests inv))%nat)
        by (rewrite Hreq; apply length_app).
      destruct (existsb is_unsettled results).
      * destruct Hres as (spec' & later & Hin & Hun). rewrite Hlen in Hun.
        exists spec', (List.length (inv_requests inv) + later)%nat.
        split; [now right|]. now rewrite Nat.add_assoc.
      * destruct Hres as (invs & -> & Hinvs & Hreq' & Hsl').
        exists (inv :: invs). cbn [map flat_map]. rewrite Hop, Hp.
        split; [reflexivity|]. split; [|split].
        -- constructor; [exact Hinv|]. now rewrite <- Hlen.
        -- rewrite Hreq', Hreq. now rewrite <- app_assoc.
        -- rewrite Hsl', Hsl. now rewrite <- app_assoc.
    + destruct (IH s1) as (results & s' & Hrun & Hl' & Hb' & _).
      unfold bind at 1. rewrite Hrun. unfold ret.
      exists (Unsettled :: results), s'.
      split; [reflexivity|]. split; [congruence|]. split; [congruence|].
      cbn [existsb is_unsettled orb].
      exists spec, 0%nat. split; [now left|]. now rewrite Nat.add_0_r.
Qed.

Lemma collect_invocations invs : forall s,
  exists s',
    collect (map (fun inv => Fulfilled (inv_onePager inv, inv_step inv)) invs) s =
    (Ok (pagers invs), s') /\
    log s' = add_steps (log s) (map inv_step invs) /\
    requests s' = requests s /\ slept s' = slept s /\ banners s' = banners s.
Proof.
  induction invs as [|inv invs IH]; intros s.
  - exists s. cbn. unfold add_steps. rewrite app_nil_r.
    repeat split. now destruct (log s).
  - cbn [map collect]. unfold bind at 1, push_step, modify.
    destruct (IH (set_log (add_step (log s) (inv_step inv)) s)) as (s' & Hrun & Hl & Hr & Hs & Hb).
    unfold bind at 1. rewrite Hrun. unfold ret. exists s'.
    split; [|split; [|auto]].
    + unfold pagers. cbn [flat_map]. destruct (inv_onePager inv); reflexivity.
    + rewrite Hl. unfold add_steps, add_step. cbn. now rewrite <- app_assoc.
Qed.


(** Lines 111 to 242: the phase of the specialists. *)
Lemma specialists_phase_spec taskMap d s :
  let out := specialists_phase w em brief ids taskMap d s in
  banners (snd out) = banners s ++ [SpecialistsPhase] /\
  match fst out with
  | Pending => some_unanswered w brief (List.length (requests s)) (specialists taskMap)
  | settled =>
      exists invs,
        invocations w brief (List.length (requests s)) (specialists taskMap) invs /\
        requests (snd out) = requests s ++ flat_map inv_requests invs /\
        slept (snd out) = slept s ++ flat_map inv_delays invs /\
        log (snd out) = add_steps (log s) (map inv_step invs) /\
        match settled with
        | Ok onePagers => onePagers = pagers invs /\ onePagers <> []
        | Throw t => pagers invs = [] /\ all_failed_error taskMap t
        | Pending => False
        end
  end.
Proof.
  cbv zeta.
  destruct (specialists_phase w em brief ids taskMap d s) as [res s'] eqn:Hrun.
  cbn [fst snd]. unfold specialists_phase in Hrun.
  unfold bind at 1, banner, modify in Hrun. unfold bind at 1 in Hrun.
  destruct (@emit_quiet w em ids (PhaseStart SpecialistsPhase)
              (st_banner SpecialistsPhase s) Hq) as (s0 & He & Hr0 & Hs0 & Hb0 & Hl0).
  rewrite He in Hrun.
  cbn [final_log] in Hl0. cbn [requests slept banners log st_banner] in *.
  unfold bind at 1, allSettled in Hrun. unfold bind at 1 in Hrun.
  destruct (start_all_invocations taskMap (specialists taskMap) s0)
    as (results & s1 & Hstart & Hl1 & Hb1 & Hres).
  rewrite Hstart in Hrun. rewrite Hr0 in Hres.
  destruct (existsb is_unsettled results).
  - injection Hrun as <- <-. split; [congruence | exact Hres].
  - destruct Hres as (invs & -> & Hinvs & Hreq & Hsl). unfold ret at 1 in Hrun.
    destruct (collect_invocations invs s1) as (s2 & Hc & Hl2 & Hr2 & Hs2 & Hb2).
    unfold bind at 1 in Hrun. rewrite Hc in Hrun.
    destruct (pagers invs) as [|p rest] eqn:Hp.
    + unfold bind, newAppError, clock, ret, throw in Hrun. injection Hrun as <- <-.
      cbn [banners requests slept log st_tick].
      split; [congruence|]. exists invs.
      split; [exact Hinvs|]. split; [congruence|]. split; [congruence|].
      split; [congruence|]. split; [exact Hp | eexists; reflexivity].
    + unfold bind at 1, clock in Hrun. unfold bind at 1 in Hrun.
      match type of Hrun with
      | context [emit w em ids ?event ?st] =>
          destruct (@emit_quiet w em ids event st Hq) as (s3 & He3 & Hr3 & Hs3 & Hb3 & Hl3);
          rewrite He3 in Hrun
      end.
      cbn [final_log] in Hl3. cbn [requests slept banners log st_tick] in *.
      unfold ret in Hrun. injection Hrun as <- <-.
      split; [congruence|]. exists invs.
      split; [exact Hinvs|]. split; [congruence|]. split; [congruence|].
      split; [congruence|]. split; [now rewrite Hp | discriminate].
Qed.

End Invocations.


(** *** The synthesis and the [catch] clause *)


Lemma catch_block_alone w ids t s :
  requests (snd (catch_block w None ids t s)) = requests s /\
  slept (snd (catch_block w None ids t s)) = slept s.
Proof. split; reflexivity. Qed.

Section AfterTheSpecialists.

Variable w : World.
Variable em : option Listener.
Variable brief : CreativeBrief.
Variable ids : RunIds.
Hypothesis Hq : quiet em.


Lemma catch_block_requests t s :
  requests (snd (catch_block w em ids t s)) = requests s /\
  slept (snd (catch_block w em ids t s)) = slept s.
Proof.
  destruct (@rel_effects _ _ (catch_block w em ids t) (catch_block w None ids t) s
              (@rel_catch_block w em None ids ids Hq I t t eq_refl)) as [-> ->].
  apply catch_block_alone.
Qed.

(** The [catch] clause, for an error that carries no log yet. *)
Lemma catch_block_spec e s :
  let out := catch_block w em ids (ThrownError e None) s in
  fst out = Throw (ThrownError e (Some (log (snd out)))) /\
  requests (snd out) = requests s /\ slept (snd out) = slept s /\
  banners (snd out) = banners s /\
  finalized (log (snd out)) /\
  exists err, steps (log (snd out)) = steps (log s) ++ [err] /\
              error_step (message_of e) err.
Proof.
  cbv zeta.
  destruct (catch_block_requests (ThrownError e None) s) as [Hr Hs].
  pose proof (@catch_effect w em ids Hq e s s eq_refl) as Hc.
  destruct (catch_block w em ids (ThrownError e None) s) as [[r|t|] s'];
    try contradiction. cbn [fst snd] in *.
  destruct Hc as (-> & Hb & err & ended & total & Hl & Herr).
  split; [reflexivity|]. split; [exact Hr|]. split; [exact Hs|]. split; [exact Hb|].
  rewrite Hl. split; [split; eexists; reflexivity|].
  exists err. split; [reflexivity | exact Herr].
Qed.

End AfterTheSpecialists.

Lemma run_after_planning w brief em s taskMap d s1 :
  planning w em brief (run_ids w s) (start_state w s) = (Ok (taskMap, d), s1) ->
  generateRecipe w brief em s =
  match specialists_phase w em brief (run_ids w s) taskMap d s1 with
  | (Ok onePagers, s2) =>
      try_catch (synthesis w em brief (run_ids w s) onePagers)
        (catch_block w em (run_ids w s)) s2
  | (Throw t, s2) => catch_block w em (run_ids w s) t s2
  | (Pending, s2) => (Pending, s2)
  end.
Proof.
  intros Hplan. rewrite generateRecipe_start.
  unfold try_catch at 1, try_block. unfold bind at 1. rewrite Hplan.
  unfold bind at 1.
  destruct (specialists_phase w em brief (run_ids w s) taskMap d s1) as [[ops|t|] s2];
    reflexivity.
Qed.

(** *** The claims about the specialists *)




(** The invocation of a specialist whose prompt loads and whose every
    request is refused with a retryable error. *)
Lemma refused_invocation w brief sent A inv template :
  invoked w brief sent A inv ->
  loadPrompt w (spec_name A) = inr template ->
  always_refused w (spec_name A) ->
  inv_requests inv = repeat (spec_name A, specialist_request w brief A template) 3 /\
  inv_delays inv = [1000; 2000] /\
  inv_onePager inv = None /\
  step_agent (inv_step inv) = spec_name A /\
  step_action (inv_step inv) = js "specialist_contribution" /\
  step_success (inv_step inv) = false /\
  exists error,
    step_error (inv_step inv) = Some (llm_message (spec_name A) error) /\
    isRetryableError error = true.
Proof.
  intros (Hagent & Haction & Hinv) Hload Href. rewrite Hload in Hinv.
  destruct Hinv as (n & Hn & Hreq & Hdel & _ & Hlast). cbv zeta in Hlast.
  destruct (Href (sent + (n - 1))%nat (specialist_request w brief A template))
    as (t & Hrem & Hretry).
  rewrite Hrem in Hlast. destruct Hlast as ([Hno|H3] & Hop & Hs & He & _); [congruence|].
  subst n. repeat split; auto. exists t. auto.
Qed.

Lemma refused_is_answered w brief sent A :
  always_refused w (spec_name A) -> ~ unanswered w brief sent A.
Proof.
  intros Href (template & n & _ & Hrem).
  destruct (Href (sent + (n - 1))%nat (specialist_request w brief A template))
    as (t & Ht & _).
  congruence.
Qed.

(** C5, as stated, fails: with the single specialist [boulanger], refused
    three times (the delays of 1000 and 2000 ms were awaited), the log
    attached to the error has three steps, not the four of the claim. *)
Lemma one_step_per_specialist :
  let out := generateRecipe busyWorld exampleBrief None initial in
  exists a l,
    fst out = Throw (ThrownError (AppErr a) (Some l)) /\
    err_message a = all_failed_message /\
    context a = Some [(js "attemptedSpecialists", JArr [JStr (js "boulanger")])] /\
    slept (snd out) = [1000; 2000] /\
    List.length (requests (snd out)) = 4%nat /\
    List.length (steps l) = 3%nat /\
    List.length (steps l) <> (3 + 1)%nat.
Proof.
  cbv zeta. eexists _, _.
  split; [vm_compute; reflexivity|]. split; [vm_compute; reflexivity|].
  split; [vm_compute; reflexivity|]. split; [vm_compute; reflexivity|].
  split; [vm_compute; reflexivity|]. split; [vm_compute; reflexivity|].
  vm_compute. discriminate.
Qed.

(** C5, amended.  Without a listener, or with one that returns from every
    event and leaves its objects as they are: when the task map holds the
    single specialist [A], the prompt of [A] loads and every request for
    [A] is refused with a retryable error, the run sends three requests
    for [A] after the planning, with delays of 1000 and 2000 ms between
    them, and nothing else; it fails with the [AppError] "All specialists
    failed" that names [A], and the log attached to it has three steps:
    the planning step, one failed step for [A] with the message of the
    [LLMError], whatever the number of attempts, and the step of the
    orchestrator's [catch] clause. *)
Theorem single_specialist_failure (w : World) (brief : CreativeBrief)
  (em : option Listener) (s : St) (taskMap : TaskMap) (d : Z) (s1 : St)
  (A : SpecialistAssignment) (template : jsstring) :
  quiet em ->
  planning w em brief (run_ids w s) (start_state w s) = (Ok (taskMap, d), s1) ->
  specialists taskMap = [A] ->
  loadPrompt w (spec_name A) = inr template ->
  always_refused w (spec_name A) ->
  let out := generateRecipe w brief em s in
  requests (snd out) =
    requests s1 ++ repeat (spec_name A, specialist_request w brief A template) 3 /\
  slept (snd out) = slept s1 ++ [1000; 2000] /\
  exists a p sa err error,
    fst out = Throw (ThrownError (AppErr a) (Some (log (snd out)))) /\
    err_message a = all_failed_message /\
    context a = Some [(js "attemptedSpecialists", JArr [JStr (spec_name A)])] /\
    steps (log (snd out)) = [p; sa; err] /\
    planning_step p /\
    step_agent sa = spec_name A /\ step_action sa = js "specialist_contribution" /\
    step_success sa = false /\
    step_error sa = Some (llm_message (spec_name A) error) /\
    isRetryableError error = true /\
    error_step all_failed_message err.
Proof.
  intros Hq Hplan HA Hload Href out.
  pose proof (@planning_effect w em brief (run_ids w s) Hq (start_state w s)
                (start_state w s) eq_refl) as Hp.
  rewrite Hplan in Hp. destruct Hp as (_ & p & Hl1 & Hpl).
  assert (Hs1 : steps (log s1) = [p]) by (rewrite Hl1; reflexivity).
  unfold out. rewrite (@run_after_planning w brief em s taskMap d s1 Hplan).
  pose proof (@specialists_phase_spec w em brief (run_ids w s) Hq taskMap d s1)
    as [_ Hphase].
  rewrite HA in Hphase.
  assert (Hinvs : forall invs,
             invocations w brief (List.length (requests s1)) [A] invs ->
             exists inv, invs = [inv] /\
                         invoked w brief (List.length (requests s1)) A inv).
  { intros invs H. inversion H as [|? ? ? inv rest Hinv Hrest]; subst.
    inversion Hrest; subst. exists inv. auto. }
  destruct (specialists_phase w em brief (run_ids w s) taskMap d s1) as [[ops|t|] s2];
    cbn [fst snd] in Hphase.
  - exfalso. destruct Hphase as (invs & Hi & _ & _ & _ & -> & Hne).
    destruct (Hinvs invs Hi) as (inv & -> & Hinv).
    destruct (refused_invocation Hinv Hload Href) as (_ & _ & Hop & _).
    apply Hne. unfold pagers. cbn. now rewrite Hop.
  - destruct Hphase as (invs & Hi & Hreq & Hsl & Hl2 & _ & (stamp & ->)).
    destruct (Hinvs invs Hi) as (inv & -> & Hinv).
    destruct (refused_invocation Hinv Hload Href)
      as (Hr & Hd & _ & Hagent & Haction & Hfail & error & Herror & Hretry).
    cbn [flat_map map] in Hreq, Hsl, Hl2. rewrite app_nil_r in Hreq, Hsl.
    match goal with
    | |- context [catch_block w em (run_ids w s) (ThrownError ?e None) s2] =>
        destruct (@catch_block_spec w em (run_ids w s) Hq e s2)
          as (Hthrow & Hr4 & Hs4 & _ & _ & err & Hst & Herr)
    end.
    split; [rewrite Hr4, Hreq, Hr; reflexivity|].
    split; [rewrite Hs4, Hsl, Hd; reflexivity|].
    eexists _, p, (inv_step inv), err, error.
    split; [exact Hthrow|]. split; [reflexivity|].
    split; [rewrite HA; reflexivity|].
    split; [rewrite Hst, Hl2; cbn; now rewrite Hs1|].
    repeat split; auto; apply Hpl || apply Herr.
  - exfalso. destruct Hphase as (spec & later & [<-|[]] & Hun).
    exact (refused_is_answered Href Hun).
Qed.

Lemma single_specialist_failure_witness :
  let w := busyWorld in
  let out := generateRecipe w exampleBrief None initial in
  let A := mkAssignment (js "boulanger") [js "dough"] 1 in
  exists s1,
    requests (snd out) =
      requests s1 ++
      repeat (spec_name A, specialist_request w exampleBrief A (js "You are a cook.")) 3 /\
    slept (snd out) = slept s1 ++ [1000; 2000] /\
    exists a p sa err error,
      fst out = Throw (ThrownError (AppErr a) (Some (log (snd out)))) /\
      err_message a = all_failed_message /\
      context a = Some [(js "attemptedSpecialists", JArr [JStr (spec_name A)])] /\
      steps (log (snd out)) = [p; sa; err] /\
      planning_step p /\
      step_agent sa = spec_name A /\ step_action sa = js "specialist_contribution" /\
      step_success sa = false /\
      step_error sa = Some (llm_message (spec_name A) error) /\
      isRetryableError error = true /\
      error_step all_failed_message err.
Proof.
  cbv zeta.
  assert (H : exists d s1,
             planning busyWorld None exampleBrief (run_ids busyWorld initial)
               (start_state busyWorld initial)
             = (Ok (mkTaskMap [mkAssignment (js "boulanger") [js "dough"] 1] Simple, d), s1)).
  { eexists _, _. vm_compute. reflexivity. }
  destruct H as (d & s1 & H). exists s1.
  apply (@single_specialist_failure busyWorld exampleBrief None initial _ d s1
           (mkAssignment (js "boulanger") [js "dough"] 1) (js "You are a cook.") I H).
  - reflexivity.
  - reflexivity.
  - intros n req. eexists. split; vm_compute; reflexivity.
Defined.

(** ** The difficulty of a recipe *)

Lemma lower_unit_idem c : lower_unit (lower_unit c) = lower_unit c.
Proof.
  unfold lower_unit.
  destruct (N.leb 65 c && N.leb c 90) eqn:E; [|now rewrite E].
  apply andb_true_iff in E. destruct E as [H1 H2].
  apply N.leb_le in H1, H2.
  assert (E2 : N.leb (c + 32) 90 = false) by (apply N.leb_gt; lia).
  now rewrite E2, andb_false_r.
Qed.

Lemma toLowerCase_idem s : toLowerCase (toLowerCase s) = toLowerCase s.
Proof.
  unfold toLowerCase. rewrite map_map. apply map_ext. apply lower_unit_idem.
Qed.

(** X18.  Whatever string the model gives as the difficulty of a recipe,
    the schema accepts it: the transform maps it to [easy], [hard] or
    [medium] (the default), so the enumeration behind it never rejects.
    The transform ignores the case of ASCII letters and leaves its own
    results as they are. *)
Theorem difficulty_always_valid (val : jsstring) (p : list PathSegment) :
  let d := difficulty_transform val in
  In d [js "easy"; js "medium"; js "hard"] /\
  z_difficulty p (Some (JStr val)) = ZodOk d /\
  difficulty_transform d = d /\
  difficulty_transform (toLowerCase val) = d.
Proof.
  cbv zeta. unfold z_difficulty, z_string, difficulty_transform.
  rewrite toLowerCase_idem.
  destruct (jseqb (toLowerCase val) (js "easy") || jseqb (toLowerCase val) (js "beginner")
            || jseqb (toLowerCase val) (js "simple")).
  - repeat split; cbn; auto.
  - destruct (jseqb (toLowerCase val) (js "hard") || jseqb (toLowerCase val) (js "advanced")
              || jseqb (toLowerCase val) (js "expert")
              || jseqb (toLowerCase val) (js "difficult")).
    + repeat split; cbn; auto.
    + repeat split; cbn; auto.
Qed.

(** ** The footprint of a call *)

(** X19.  Every attempt of a call of [callGemini] sends the same request,
    built once from the configuration and the options; the delays between
    the attempts add up to 3000 ms at most; and the call leaves the log of
    the run, the banners and the events alone. *)
Theorem callGemini_footprint (w : World) (agent prompt : jsstring)
  (options : GeminiCallOptions) (s : St) :
  let out := callGemini w agent prompt options s in
  exists n delays,
    (1 <= n <= 3)%nat /\
    requests (snd out) = requests s ++ repeat (agent, build_request w agent prompt options) n /\
    slept (snd out) = slept s ++ delays /\ total delays <= 3000 /\
    log (snd out) = log s /\ banners (snd out) = banners s /\
    delivered (snd out) = delivered s.
Proof.
  intros out.
  destruct (callGemini_spec w agent prompt options s)
    as (n & Hn & Hreq & Hsl & _ & _ & Hb & Hd & Hl).
  fold out in Hreq, Hsl, Hb, Hd, Hl.
  exists n, (map backoff (attempts_from 1 (n - 1))).
  repeat split; auto; try lia.
  rewrite (backoff_delays Hn).
  assert (Hc : n = 1%nat \/ n = 2%nat \/ n = 3%nat) by lia.
  destruct Hc as [->|[->| ->]]; cbn; lia.
Qed.

(** ** What the events say of a request *)

(** X20.  The [llm:request] event of the planning names the model
    [gemini-2.5-flash] and the temperature 0.3, whatever the configuration
    says, while the request that follows it (once for each attempt) carries
    the model and the temperature of the configuration, 0.7 when it gives
    none for the agent.  The listener returns from every event and leaves
    its objects as they are. *)
Theorem planning_event_reports_constants (w : World) (listener : Listener)
  (brief : CreativeBrief) (ids : RunIds) (s : St) (template : jsstring) :
  (forall e, listener e = Returns (body e)) ->
  loadPrompt w (js "sous-chef-planning") = inr template ->
  let agent := js "sous_chef_planning" in
  let parts := extractSystemInstruction w template in
  let prompt := renderPrompt w (taskPrompt parts) (mkVars brief None None) in
  let request := build_request w agent prompt (json_mode (systemInstruction parts)) in
  let out := planning w (Some listener) brief ids s in
  exists started announced later n,
    delivered (snd out) = delivered s ++ started :: announced :: later /\
    body announced =
      LlmRequest agent (js "gemini-2.5-flash") (Num false 3 (-1))
        (slice0 200 prompt) prompt None /\
    (1 <= n <= 3)%nat /\
    requests (snd out) = requests s ++ repeat (agent, request) n /\
    req_model request =
      match truthy (lookup agent (agents (agentConfig w))) with
      | Some m => m
      | None => defaultModel (agentConfig w)
      end /\
    req_temperature request =
      match temperatures (agentConfig w) with
      | Some ts => match lookup agent ts with
                   | Some t => t
                   | None => Num false 7 (-1)
                   end
      | None => Num false 7 (-1)
      end.
Proof.
  intros Hq Hload agent parts prompt request out.
  assert (Hrun : exists started announced later n,
             delivered (snd out) = delivered s ++ started :: announced :: later /\
             body announced =
               LlmRequest agent (js "gemini-2.5-flash") (Num false 3 (-1))
                 (slice0 200 prompt) prompt None /\
             (1 <= n <= 3)%nat /\
             requests (snd out) = requests s ++ repeat (agent, request) n).
  { unfold out. destruct (planning w (Some listener) brief ids s) as [res s'] eqn:Hrun.
    cbn [snd]. unfold planning in Hrun.
    unfold bind at 1, banner, modify in Hrun. unfold bind at 1 in Hrun.
    destruct (@emit_heard w listener ids (PhaseStart PlanningPhase)
                (st_banner PlanningPhase s) Hq I)
      as (started & s1 & He1 & Hr1 & Hd1 & _).
    rewrite He1 in Hrun. cbn [requests delivered st_banner] in Hr1, Hd1.
    unfold bind at 1, clock in Hrun. unfold bind at 1, load in Hrun.
    rewrite Hload in Hrun. unfold ret at 1 in Hrun. fold parts in Hrun. fold prompt in Hrun.
    fold agent in Hrun. unfold bind at 1 in Hrun.
    match type of Hrun with
    | context [emit w (Some listener) ids ?event ?st] =>
        destruct (@emit_heard w listener ids event st Hq I)
          as (announced & s2 & He2 & Hr2 & Hd2 & Hb2 & _);
        rewrite He2 in Hrun
    end.
    cbn [requests delivered st_tick] in Hr2, Hd2.
    unfold bind at 1 in Hrun.
    pose proof (callGemini_spec w agent prompt (json_mode (systemInstruction parts)) s2)
      as (n & Hn & Hreq & _ & _ & _ & _ & Hd3 & _).
    fold request in Hreq.
    destruct (callGemini w agent prompt (json_mode (systemInstruction parts)) s2)
      as [[g|t|] s3]; cbn [fst snd] in *.
    - unfold bind at 1, clock in Hrun. unfold bind at 1 in Hrun.
      match type of Hrun with
      | context [emit w (Some listener) ids ?event ?st] =>
          destruct (@emit_heard w listener ids event st Hq I)
            as (e3 & s4 & He4 & Hr4 & Hd4 & _);
          rewrite He4 in Hrun
      end.
      cbn [requests delivered st_tick] in Hr4, Hd4.
      unfold bind at 1, extract in Hrun.
      destruct (extractJSON (text g) (WithSchema (TaskMapSchema w))) as [e|taskMap].
      + injection Hrun as <- <-. exists started, announced, [e3], n.
        split; [rewrite Hd4, Hd3, Hd2, Hd1, <- !app_assoc; reflexivity|].
        split; [exact Hb2|]. split; [exact Hn|]. now rewrite Hr4, Hreq, Hr2, Hr1.
      + unfold ret at 1 in Hrun. unfold bind at 1 in Hrun.
        match type of Hrun with
        | context [emit w (Some listener) ids ?event ?st] =>
            destruct (@emit_heard w listener ids event st Hq I)
              as (e5 & s5 & He5 & Hr5 & Hd5 & _);
            rewrite He5 in Hrun
        end.
        unfold bind at 1, clock in Hrun. unfold bind at 1 in Hrun.
        unfold bind at 1, push_step, modify in Hrun. unfold bind at 1 in Hrun.
        match type of Hrun with
        | context [emit w (Some listener) ids ?event ?st] =>
            destruct (@emit_heard w listener ids event st Hq I)
              as (e6 & s6 & He6 & Hr6 & Hd6 & _);
            rewrite He6 in Hrun
        end.
        cbn [requests delivered st_tick set_log] in Hr6, Hd6.
        unfold ret in Hrun. injection Hrun as <- <-.
        exists started, announced, [e3; e5; e6], n.
        split; [rewrite Hd6, Hd5, Hd4, Hd3, Hd2, Hd1, <- !app_assoc; reflexivity|].
        split; [exact Hb2|]. split; [exact Hn|].
        now rewrite Hr6, Hr5, Hr4, Hreq, Hr2, Hr1.
    - injection Hrun as <- <-. exists started, announced, [], n.
      split; [rewrite Hd3, Hd2, Hd1, <- !app_assoc; reflexivity|].
      split; [exact Hb2|]. split; [exact Hn|]. now rewrite Hreq, Hr2, Hr1.
    - injection Hrun as <- <-. exists started, announced, [], n.
      split; [rewrite Hd3, Hd2, Hd1, <- !app_assoc; reflexivity|].
      split; [exact Hb2|]. split; [exact Hn|]. now rewrite Hreq, Hr2, Hr1. }
  destruct Hrun as (started & announced & later & n & Hd & Hb & Hn & Hr).
  exists started, announced, later, n.
  split; [exact Hd|]. split; [exact Hb|]. split; [exact Hn|]. split; [exact Hr|].
  split; [reflexivity|].
  unfold request, build_request, json_mode. cbn [req_temperature opt_temperature].
  destruct (temperatures (agentConfig w)) as [ts|]; [|reflexivity].
  destruct (lookup agent ts); reflexivity.
Qed.

Lemma planning_event_reports_constants_witness :
  let w := helpfulWorld in
  let agent := js "sous_chef_planning" in
  let parts := extractSystemInstruction w (js "You are a cook.") in
  let prompt := renderPrompt w (taskPrompt parts) (mkVars exampleBrief None None) in
  let request := build_request w agent prompt (json_mode (systemInstruction parts)) in
  let out := planning w (Some patientListener) exampleBrief (run_ids w initial) initial in
  exists started announced later n,
    delivered (snd out) = delivered initial ++ started :: announced :: later /\
    body announced =
      LlmRequest agent (js "gemini-2.5-flash") (Num false 3 (-1))
        (slice0 200 prompt) prompt None /\
    (1 <= n <= 3)%nat /\
    requests (snd out) = requests initial ++ repeat (agent, request) n /\
    req_model request =
      match truthy (lookup agent (agents (agentConfig w))) with
      | Some m => m
      | None => defaultModel (agentConfig w)
      end /\
    req_temperature request =
      match temperatures (agentConfig w) with
      | Some ts => match lookup agent ts with
                   | Some t => t
                   | None => Num false 7 (-1)
                   end
      | None => Num false 7 (-1)
      end.
Proof.
  apply (@planning_event_reports_constants helpfulWorld patientListener exampleBrief
           (run_ids helpfulWorld initial) initial (js "You are a cook.")).
  - intros e. reflexivity.
  - reflexivity.
Defined.

(** ** Edge cases of a run *)

(** X14.  When a run fails before the timer of the route has fired, the
    caller of the route receives the message of the error and the log of
    the run: finalized, with the steps logged before the failure and, as
    the last one, the error step that carries the same message. *)
Theorem failed_run_reports_log (w : World) (body : Json) (brief : CreativeBrief)
  (s : St) (t : Thrown) :
  CreativeBriefSchema w body = ZodOk brief ->
  fst (generateRecipe w brief None s) = Throw t ->
  timer_fired w s (snd (generateRecipe w brief None s)) = false ->
  let out := generate_recipe_route w body s in
  exists code extra prior err,
    fst out = Ok (mkHttp code (ErrorBody (describe t) extra (Some (log (snd out))))) /\
    finalized (log (snd out)) /\
    steps (log (snd out)) = prior ++ [err] /\
    error_step (describe t) err.
Proof.
  intros Hbrief Hthrow Htimer out.
  assert (Hout : out = (Ok (error_response t), snd (generateRecipe w brief None s))).
  { unfold out, generate_recipe_route. rewrite Hbrief.
    destruct (generateRecipe w brief None s) as [[r|t1|] s']; cbn [fst snd] in *;
      try discriminate.
    injection Hthrow as ->. now rewrite Htimer. }
  assert (Hfail : forall t0 prior phases,
             fails_with w brief None s t0 prior phases ->
             exists code extra prior err,
               fst out = Ok (mkHttp code (ErrorBody (describe t) extra (Some (log (snd out))))) /\
               finalized (log (snd out)) /\
               steps (log (snd out)) = prior ++ [err] /\
               error_step (describe t) err).
  { intros t0 prior phases (e & err & _ & Hres & Hsteps & Herr & Hfin & _).
    rewrite Hout. rewrite Hres in Hthrow. injection Hthrow as <-.
    cbn [fst snd].
    destruct e as [m|a]; cbn [error_response fst snd describe message_of];
      eexists _, _, prior, err; (split; [reflexivity|]); auto. }
  destruct (@run_course w brief None s I)
    as [s1 Hp Ho | t0 s1 Hp Ho | tm d s1 p Hp Hpl Hhang Ho
       | tm d s1 p spec_steps t0 Hp Hpl Hsteps Hnone Hall Ho
       | tm d s1 p spec_steps Hp Hpl Hsteps Hsome Ho
       | tm d s1 p spec_steps t0 Hp Hpl Hsteps Hsome Ho
       | tm d s1 p spec_steps y result Hp Hpl Hsteps Hsome Hy Hres Hlog Hall Hfin Hban];
    try (eapply Hfail; exact Ho);
    try (destruct Ho as [Hpend _]; rewrite Hpend in Hthrow; discriminate).
  rewrite Hres in Hthrow. discriminate.
Qed.

Lemma failed_run_reports_log_witness :
  let out := generate_recipe_route busyWorld briefBody initial in
  exists code extra prior err,
    fst out = Ok (mkHttp code (ErrorBody all_failed_message extra (Some (log (snd out))))) /\
    finalized (log (snd out)) /\
    steps (log (snd out)) = prior ++ [err] /\
    error_step all_failed_message err.
Proof.
  assert (H : exists t, fst (generateRecipe busyWorld exampleBrief None initial) = Throw t /\
                        describe t = all_failed_message).
  { eexists. split; vm_compute; reflexivity. }
  destruct H as (t & Ht & <-).
  apply (@failed_run_reports_log busyWorld briefBody exampleBrief initial t eq_refl Ht).
  vm_compute. reflexivity.
Defined.

(** X16.  A plan without specialists makes the run fail as if all of them
    had failed: after the planning no request is made, and the error "All
    specialists failed" is thrown with an empty list of attempted
    specialists and a log of two steps, the planning and the error.  The
    listener, if any, returns from every event and leaves its objects as
    they are. *)
Theorem empty_plan_fails (w : World) (brief : CreativeBrief) (em : option Listener)
  (s : St) (taskMap : TaskMap) (d : Z) (s1 : St) :
  quiet em ->
  planning w em brief (run_ids w s) (start_state w s) = (Ok (taskMap, d), s1) ->
  specialists taskMap = [] ->
  let out := generateRecipe w brief em s in
  exists a p err,
    fst out = Throw (ThrownError (AppErr a) (Some (log (snd out)))) /\
    err_message a = all_failed_message /\
    context a = Some [(js "attemptedSpecialists", JArr [])] /\
    requests (snd out) = requests s1 /\
    steps (log (snd out)) = [p; err] /\
    planning_step p /\ error_step all_failed_message err.
Proof.
  intros Hq Hplan Hnil out.
  pose proof (@planning_effect w em brief (run_ids w s) Hq (start_state w s)
                (start_state w s) eq_refl) as Hp.
  rewrite Hplan in Hp. destruct Hp as (_ & p & Hlog & Hpl).
  assert (Hs1 : steps (log s1) = [p]) by (rewrite Hlog; reflexivity).
  unfold out. rewrite (@run_after_planning w brief em s taskMap d s1 Hplan).
  pose proof (@specialists_phase_spec w em brief (run_ids w s) Hq taskMap d s1)
    as [_ Hphase].
  rewrite Hnil in Hphase.
  destruct (specialists_phase w em brief (run_ids w s) taskMap d s1) as [[ops|t|] s2];
    cbn [fst snd] in Hphase.
  - exfalso. destruct Hphase as (invs & Hi & _ & _ & _ & -> & Hne).
    inversion Hi; subst. now apply Hne.
  - destruct Hphase as (invs & Hi & Hreq & _ & Hl2 & _ & (stamp & ->)).
    inversion Hi; subst. cbn [flat_map map] in Hreq, Hl2. rewrite app_nil_r in Hreq.
    match goal with
    | |- context [catch_block w em (run_ids w s) (ThrownError ?e None) s2] =>
        destruct (@catch_block_spec w em (run_ids w s) Hq e s2)
          as (Hthrow & Hr4 & _ & _ & _ & err & Hst & Herr)
    end.
    eexists _, p, err. split; [exact Hthrow|]. split; [reflexivity|].
    split; [rewrite Hnil; reflexivity|]. split; [congruence|].
    split; [rewrite Hst, Hl2; cbn; rewrite Hs1, app_nil_r; reflexivity|].
    split; [exact Hpl | exact Herr].
  - exfalso. destruct Hphase as (spec & later & [] & _).
Qed.

Lemma empty_plan_fails_witness :
  let out := generateRecipe idleWorld exampleBrief None initial in
  exists s1 a p err,
    fst out = Throw (ThrownError (AppErr a) (Some (log (snd out)))) /\
    err_message a = all_failed_message /\
    context a = Some [(js "attemptedSpecialists", JArr [])] /\
    requests (snd out) = requests s1 /\
    steps (log (snd out)) = [p; err] /\
    planning_step p /\ error_step all_failed_message err.
Proof.
  assert (H : exists d s1,
             planning idleWorld None exampleBrief (run_ids idleWorld initial)
               (start_state idleWorld initial) = (Ok (mkTaskMap [] Simple, d), s1)).
  { eexists _, _. vm_compute. reflexivity. }
  destruct H as (d & s1 & H). exists s1.
  apply (@empty_plan_fails idleWorld exampleBrief None initial (mkTaskMap [] Simple) d s1 I H).
  reflexivity.
Defined.

(** X17.  A specialist whose prompt cannot be loaded costs no request: its
    task returns no one-pager and a failed step that carries the message
    of the loading error, for the orchestrator to log.  The listener, if
    any, returns from every event and leaves its objects as they are. *)
Theorem specialist_without_prompt (w : World) (em : option Listener)
  (brief : CreativeBrief) (ids : RunIds) (taskMap : TaskMap)
  (spec : SpecialistAssignment) (e : ErrorObject) (s : St) :
  quiet em -> loadPrompt w (spec_name spec) = inl e ->
  exists step s',
    specialist_task w em brief ids taskMap spec s = (Ok (None, step), s') /\
    step_agent step = spec_name spec /\
    step_action step = js "specialist_contribution" /\
    step_success step = false /\
    step_error step = Some (message_of e) /\
    step_tokenUsage step = None /\
    requests s' = requests s /\ log s' = log s.
Proof.
  intros Hq He.
  pose proof (@specialist_task_spec w em brief ids Hq taskMap spec s) as Ht.
  unfold task_outcome in Ht.
  destruct (specialist_task w em brief ids taskMap spec s) as [[[op step]|t|] s'];
    cbn [fst snd] in Ht; destruct Ht as (Hl & _ & Ht).
  - destruct Ht as (inv & Hop & Hstep & (Hagent & Haction & Hinv) & Hreq & _).
    rewrite He in Hinv. destruct Hinv as (Hr & _ & Hnone & Hfail & Herr & Husage).
    rewrite Hr, app_nil_r in Hreq. subst op step. rewrite Hnone.
    eexists _, _. split; [reflexivity|]. repeat split; auto.
  - contradiction.
  - destruct Ht as (template & n & Hload & _). congruence.
Qed.

Lemma specialist_without_prompt_witness :
  exists step s',
    specialist_task promptlessWorld None exampleBrief (run_ids promptlessWorld initial)
      (mkTaskMap [mkAssignment (js "boulanger") [js "dough"] 1] Simple)
      (mkAssignment (js "boulanger") [js "dough"] 1) initial = (Ok (None, step), s') /\
    step_agent step = js "boulanger" /\
    step_action step = js "specialist_contribution" /\
    step_success step = false /\
    step_error step = Some (js "Prompt file not found: boulanger.txt") /\
    step_tokenUsage step = None /\
    requests s' = requests initial /\ log s' = log initial.
Proof.
  apply (@specialist_without_prompt promptlessWorld None exampleBrief
           (run_ids promptlessWorld initial)
           (mkTaskMap [mkAssignment (js "boulanger") [js "dough"] 1] Simple)
           (mkAssignment (js "boulanger") [js "dough"] 1) promptNotFound initial I).
  reflexivity.
Defined.
